(** * SUM Chain Ledger application: signing core

    A shallow embedding of the C sources (globals.h, tx_parser.c,
    tx_display.c, address.c, crypto.c, crypto/sum_blake3.c,
    apdu_handlers.c) and the properties of the signing pipeline.

    Conventions of the embedding.
    - Fixed-width unsigned integers are [Z] values; every operation that can
      wrap in C has its reduction modulo [2^w] written out.
    - Byte buffers are [list Z]; character buffers are [list ascii] holding
      the characters in front of the NUL terminator.
    - A function with out-parameters returns the new contents of what it
      writes next to its C return value.
    - The global [G_app_state] is threaded explicitly through the handlers.
    - A handler is modelled on a command and a response buffer, as
      [apdu_dispatch] calls it: it builds the [apdu_t] itself and [app_main]
      passes the I/O buffer as [tx]; an absent data pointer only occurs
      with [lc = 0] and is the empty list.  The guard of [handle_sign_tx]
      on NULL pointer arguments is [handle_sign_tx_call]. *)

From Stdlib Require Import ZArith List Bool Ascii Lia.
From Stdlib Require String.
Import ListNotations.
Open Scope Z_scope.

(** ** Machine integers *)

Definition u8 (x : Z) : Z := x mod 2 ^ 8.
Definition u32 (x : Z) : Z := x mod 2 ^ 32.
Definition u64 (x : Z) : Z := x mod 2 ^ 64.
(** [size_t] of the host build; the device has 32 bits.  Only the
    subtraction in [tx_parser_consume] can wrap, and not on a context that
    the parser itself produced. *)
Definition usize (x : Z) : Z := x mod 2 ^ 64.

Definition byte_ok (b : Z) : Prop := 0 <= b < 256.
Definition bytes_ok (l : list Z) : Prop := Forall byte_ok l.

(** [memcpy(&dst[off], src, length src)] on a buffer held as a list. *)
Definition memcpy_at {A} (dst : list A) (off : nat) (src : list A) : list A :=
  firstn off dst ++ src ++ skipn (off + length src) dst.

(** ** globals.h *)

Definition APPVERSION_MAJOR := 1.
Definition APPVERSION_MINOR := 0.
Definition APPVERSION_PATCH := 0.

Definition CLA_SUMCHAIN := 0xE0.
Definition INS_GET_VERSION := 0x00.
Definition INS_GET_APP_NAME := 0x01.
Definition INS_GET_PUBLIC_KEY := 0x02.
Definition INS_GET_ADDRESS := 0x03.
Definition INS_SIGN_TX := 0x04.

Definition P1_FIRST_CHUNK := 0x00.
Definition P1_MORE_CHUNK := 0x80.
Definition P2_LAST_CHUNK := 0x00.
Definition P2_MORE_CHUNKS := 0x80.

Definition SW_OK := 0x9000.
Definition SW_USER_REJECTED := 0x6985.
Definition SW_INVALID_PATH := 0x6A81.
Definition SW_INVALID_P1P2 := 0x6B00.
Definition SW_INS_NOT_SUPPORTED := 0x6D00.
Definition SW_CLA_NOT_SUPPORTED := 0x6E00.
Definition SW_WRONG_LENGTH := 0x6700.
Definition SW_INTERNAL_ERROR := 0x6F00.
Definition SW_TX_PARSE_ERROR := 0x6F01.
Definition SW_TX_OVERFLOW := 0x6F02.
Definition SW_SESSION_ERROR := 0x6F03.
Definition SW_TX_TOO_LARGE := 0x6F04.

Definition MAX_BIP32_PATH_LEN := 10.
Definition PUBKEY_LEN := 32%nat.
Definition SIGNATURE_LEN := 64%nat.
Definition ADDRESS_LEN := 20%nat.
Definition ADDRESS_BASE58_MAX_LEN := 35.
Definition HASH_LEN := 32%nat.
Definition MAX_TX_SIZE := 8192.
Definition TX_TYPE_TRANSFER := 0x00.

Record bip32_path_t := mk_path {
  path_length : Z;            (* uint8_t length *)
  path : list Z               (* uint32_t path[MAX_BIP32_PATH_LEN] *)
}.

Inductive tx_parse_state_t :=
| TX_PARSE_STATE_INIT
| TX_PARSE_STATE_VERSION
| TX_PARSE_STATE_CHAIN_ID
| TX_PARSE_STATE_SENDER
| TX_PARSE_STATE_NONCE
| TX_PARSE_STATE_GAS_PRICE
| TX_PARSE_STATE_GAS_LIMIT
| TX_PARSE_STATE_TX_TYPE
| TX_PARSE_STATE_RECIPIENT
| TX_PARSE_STATE_AMOUNT
| TX_PARSE_STATE_DONE
| TX_PARSE_STATE_ERROR.

Record tx_parsed_t := mk_parsed {
  version : Z;
  chain_id : Z;
  sender : list Z;
  nonce : Z;
  gas_price : Z;
  gas_limit : Z;
  tx_type : Z;
  recipient : list Z;
  amount : Z;
  fee_overflow : bool;
  fee_low : Z;
  fee_high : Z
}.

Record tx_parser_ctx_t := mk_parser {
  state : tx_parse_state_t;
  field_offset : Z;           (* uint8_t *)
  scratch : list Z;           (* uint8_t scratch[32] *)
  parsed : tx_parsed_t;
  total_consumed : Z          (* size_t *)
}.

Inductive ui_result_t :=
| UI_RESULT_NONE
| UI_RESULT_APPROVED
| UI_RESULT_REJECTED.

(** The all-zero images of the structures, as [SECURE_ZEROIZE] leaves them. *)
Definition bip32_path_zero : bip32_path_t := mk_path 0 (repeat 0 10).

Definition tx_parsed_zero : tx_parsed_t :=
  mk_parsed 0 0 (repeat 0 ADDRESS_LEN) 0 0 0 0 (repeat 0 ADDRESS_LEN) 0 false 0 0.

Definition tx_parser_ctx_zero : tx_parser_ctx_t :=
  mk_parser TX_PARSE_STATE_INIT 0 (repeat 0 32) tx_parsed_zero 0.

(** Field assignments. *)
Definition set_state (s : tx_parse_state_t) (c : tx_parser_ctx_t) :=
  mk_parser s (field_offset c) (scratch c) (parsed c) (total_consumed c).
Definition set_field_offset (o : Z) (c : tx_parser_ctx_t) :=
  mk_parser (state c) o (scratch c) (parsed c) (total_consumed c).
Definition set_parsed (p : tx_parsed_t) (c : tx_parser_ctx_t) :=
  mk_parser (state c) (field_offset c) (scratch c) p (total_consumed c).

Definition set_version (v : Z) (p : tx_parsed_t) :=
  mk_parsed v (chain_id p) (sender p) (nonce p) (gas_price p) (gas_limit p)
    (tx_type p) (recipient p) (amount p) (fee_overflow p) (fee_low p) (fee_high p).
Definition set_chain_id (v : Z) (p : tx_parsed_t) :=
  mk_parsed (version p) v (sender p) (nonce p) (gas_price p) (gas_limit p)
    (tx_type p) (recipient p) (amount p) (fee_overflow p) (fee_low p) (fee_high p).
Definition set_sender (v : list Z) (p : tx_parsed_t) :=
  mk_parsed (version p) (chain_id p) v (nonce p) (gas_price p) (gas_limit p)
    (tx_type p) (recipient p) (amount p) (fee_overflow p) (fee_low p) (fee_high p).
Definition set_nonce (v : Z) (p : tx_parsed_t) :=
  mk_parsed (version p) (chain_id p) (sender p) v (gas_price p) (gas_limit p)
    (tx_type p) (recipient p) (amount p) (fee_overflow p) (fee_low p) (fee_high p).
Definition set_gas_price (v : Z) (p : tx_parsed_t) :=
  mk_parsed (version p) (chain_id p) (sender p) (nonce p) v (gas_limit p)
    (tx_type p) (recipient p) (amount p) (fee_overflow p) (fee_low p) (fee_high p).
Definition set_gas_limit (v : Z) (p : tx_parsed_t) :=
  mk_parsed (version p) (chain_id p) (sender p) (nonce p) (gas_price p) v
    (tx_type p) (recipient p) (amount p) (fee_overflow p) (fee_low p) (fee_high p).
Definition set_tx_type (v : Z) (p : tx_parsed_t) :=
  mk_parsed (version p) (chain_id p) (sender p) (nonce p) (gas_price p) (gas_limit p)
    v (recipient p) (amount p) (fee_overflow p) (fee_low p) (fee_high p).
Definition set_recipient (v : list Z) (p : tx_parsed_t) :=
  mk_parsed (version p) (chain_id p) (sender p) (nonce p) (gas_price p) (gas_limit p)
    (tx_type p) v (amount p) (fee_overflow p) (fee_low p) (fee_high p).
Definition set_amount (v : Z) (p : tx_parsed_t) :=
  mk_parsed (version p) (chain_id p) (sender p) (nonce p) (gas_price p) (gas_limit p)
    (tx_type p) (recipient p) v (fee_overflow p) (fee_low p) (fee_high p).
Definition set_fee (ovf : bool) (lo hi : Z) (p : tx_parsed_t) :=
  mk_parsed (version p) (chain_id p) (sender p) (nonce p) (gas_price p) (gas_limit p)
    (tx_type p) (recipient p) (amount p) ovf lo hi.

(** ** tx_parser.c *)

Definition FIELD_SIZE_VERSION := 1.
Definition FIELD_SIZE_CHAIN_ID := 8.
Definition FIELD_SIZE_SENDER := 20.
Definition FIELD_SIZE_NONCE := 8.
Definition FIELD_SIZE_GAS_PRICE := 8.
Definition FIELD_SIZE_GAS_LIMIT := 8.
Definition FIELD_SIZE_TX_TYPE := 1.
Definition FIELD_SIZE_RECIPIENT := 20.
Definition FIELD_SIZE_AMOUNT := 8.

Definition buf_at (buf : list Z) (i : nat) : Z := nth i buf 0.

Definition read_u64_le (buf : list Z) : Z :=
  Z.lor (buf_at buf 0)
 (Z.lor (u64 (Z.shiftl (buf_at buf 1) 8))
 (Z.lor (u64 (Z.shiftl (buf_at buf 2) 16))
 (Z.lor (u64 (Z.shiftl (buf_at buf 3) 24))
 (Z.lor (u64 (Z.shiftl (buf_at buf 4) 32))
 (Z.lor (u64 (Z.shiftl (buf_at buf 5) 40))
 (Z.lor (u64 (Z.shiftl (buf_at buf 6) 48))
        (u64 (Z.shiftl (buf_at buf 7) 56)))))))).

Definition get_field_size (s : tx_parse_state_t) : Z :=
  match s with
  | TX_PARSE_STATE_VERSION => FIELD_SIZE_VERSION
  | TX_PARSE_STATE_CHAIN_ID => FIELD_SIZE_CHAIN_ID
  | TX_PARSE_STATE_SENDER => FIELD_SIZE_SENDER
  | TX_PARSE_STATE_NONCE => FIELD_SIZE_NONCE
  | TX_PARSE_STATE_GAS_PRICE => FIELD_SIZE_GAS_PRICE
  | TX_PARSE_STATE_GAS_LIMIT => FIELD_SIZE_GAS_LIMIT
  | TX_PARSE_STATE_TX_TYPE => FIELD_SIZE_TX_TYPE
  | TX_PARSE_STATE_RECIPIENT => FIELD_SIZE_RECIPIENT
  | TX_PARSE_STATE_AMOUNT => FIELD_SIZE_AMOUNT
  | _ => 0
  end.

Definition tx_parser_compute_fee (p : tx_parsed_t) : tx_parsed_t :=
  let a := gas_price p in
  let b := gas_limit p in
  let a_lo := u32 a in
  let a_hi := u32 (Z.shiftr a 32) in
  let b_lo := u32 b in
  let b_hi := u32 (Z.shiftr b 32) in
  let lo_lo := u64 (a_lo * b_lo) in
  let lo_hi := u64 (a_lo * b_hi) in
  let hi_lo := u64 (a_hi * b_lo) in
  let hi_hi := u64 (a_hi * b_hi) in
  let mid := u64 (lo_hi + hi_lo) in
  let carry_from_mid := if mid <? lo_hi then 1 else 0 in
  let result_lo := u64 (lo_lo + u64 (Z.shiftl mid 32)) in
  let carry_to_hi := if result_lo <? lo_lo then 1 else 0 in
  let result_hi :=
    u64 (hi_hi + Z.shiftr mid 32 + u64 (Z.shiftl carry_from_mid 32) + carry_to_hi) in
  set_fee (negb (result_hi =? 0)) result_lo result_hi p.

(** Returns the C return value and the context as the call leaves it. *)
Definition process_complete_field (ctx : tx_parser_ctx_t) : bool * tx_parser_ctx_t :=
  let p := parsed ctx in
  let next s c := (true, set_field_offset 0 (set_state s c)) in
  match state ctx with
  | TX_PARSE_STATE_VERSION =>
      let c := set_parsed (set_version (buf_at (scratch ctx) 0) p) ctx in
      if negb (version (parsed c) =? 1) then (false, c)
      else next TX_PARSE_STATE_CHAIN_ID c
  | TX_PARSE_STATE_CHAIN_ID =>
      next TX_PARSE_STATE_SENDER
           (set_parsed (set_chain_id (read_u64_le (scratch ctx)) p) ctx)
  | TX_PARSE_STATE_SENDER =>
      next TX_PARSE_STATE_NONCE
           (set_parsed (set_sender (firstn ADDRESS_LEN (scratch ctx)) p) ctx)
  | TX_PARSE_STATE_NONCE =>
      next TX_PARSE_STATE_GAS_PRICE
           (set_parsed (set_nonce (read_u64_le (scratch ctx)) p) ctx)
  | TX_PARSE_STATE_GAS_PRICE =>
      next TX_PARSE_STATE_GAS_LIMIT
           (set_parsed (set_gas_price (read_u64_le (scratch ctx)) p) ctx)
  | TX_PARSE_STATE_GAS_LIMIT =>
      next TX_PARSE_STATE_TX_TYPE
           (set_parsed (set_gas_limit (read_u64_le (scratch ctx)) p) ctx)
  | TX_PARSE_STATE_TX_TYPE =>
      let c := set_parsed (set_tx_type (buf_at (scratch ctx) 0) p) ctx in
      if tx_type (parsed c) =? TX_TYPE_TRANSFER
      then next TX_PARSE_STATE_RECIPIENT c
      else (false, c)
  | TX_PARSE_STATE_RECIPIENT =>
      next TX_PARSE_STATE_AMOUNT
           (set_parsed (set_recipient (firstn ADDRESS_LEN (scratch ctx)) p) ctx)
  | TX_PARSE_STATE_AMOUNT =>
      next TX_PARSE_STATE_DONE
           (set_parsed
              (tx_parser_compute_fee (set_amount (read_u64_le (scratch ctx)) p))
              ctx)
  | _ => (false, ctx)
  end.

Definition tx_parser_init : tx_parser_ctx_t :=
  mk_parser TX_PARSE_STATE_VERSION 0 (repeat 0 32) tx_parsed_zero 0.

Definition is_terminal (s : tx_parse_state_t) : bool :=
  match s with
  | TX_PARSE_STATE_DONE | TX_PARSE_STATE_ERROR => true
  | _ => false
  end.

(** The [while] loop of [tx_parser_consume].  [rest] is [&data[consumed]],
    so [data_len - consumed] is its length.  Every iteration that does not
    return absorbs a byte or completes a field; [fuel] bounds the number of
    iterations (see [consume_loop_fuel]). *)
Fixpoint consume_loop (fuel : nat) (ctx : tx_parser_ctx_t) (rest : list Z)
    (consumed : Z) : tx_parser_ctx_t * Z :=
  match fuel with
  | O => (ctx, consumed)
  | S fuel' =>
    match rest with
    | [] => (ctx, consumed)
    | _ :: _ =>
      if is_terminal (state ctx) then (ctx, consumed)
      else if total_consumed ctx >=? MAX_TX_SIZE
      then (set_state TX_PARSE_STATE_ERROR ctx, consumed)
      else
        let field_size := get_field_size (state ctx) in
        if field_size =? 0 then (set_state TX_PARSE_STATE_ERROR ctx, consumed)
        else
          let needed := usize (field_size - field_offset ctx) in
          let available := Z.of_nat (length rest) in
          let take := if available <? needed then available else needed in
          if field_offset ctx + take >? 32
          then (set_state TX_PARSE_STATE_ERROR ctx, consumed)
          else
            let ctx1 :=
              mk_parser (state ctx)
                (u8 (field_offset ctx + u8 take))
                (memcpy_at (scratch ctx) (Z.to_nat (field_offset ctx))
                           (firstn (Z.to_nat take) rest))
                (parsed ctx)
                (total_consumed ctx + take) in
            let rest' := skipn (Z.to_nat take) rest in
            let consumed' := consumed + take in
            if field_offset ctx1 >=? field_size then
              match process_complete_field ctx1 with
              | (false, ctx2) => (set_state TX_PARSE_STATE_ERROR ctx2, consumed')
              | (true, ctx2) => consume_loop fuel' ctx2 rest' consumed'
              end
            else consume_loop fuel' ctx1 rest' consumed'
    end
  end.

Definition tx_parser_consume (ctx : tx_parser_ctx_t) (data : list Z)
    : tx_parser_ctx_t * Z :=
  if is_terminal (state ctx) then (ctx, 0)
  else consume_loop (length data + 10) ctx data 0.

Definition tx_parser_is_done (ctx : tx_parser_ctx_t) : bool :=
  match state ctx with TX_PARSE_STATE_DONE => true | _ => false end.

Definition tx_parser_has_error (ctx : tx_parser_ctx_t) : bool :=
  match state ctx with TX_PARSE_STATE_ERROR => true | _ => false end.

Definition tx_parser_get_parsed (ctx : tx_parser_ctx_t) : tx_parsed_t := parsed ctx.

(** Feeding a sequence of chunks, one [tx_parser_consume] call per chunk. *)
Definition consume_chunks (ctx : tx_parser_ctx_t) (chunks : list (list Z))
    : tx_parser_ctx_t :=
  fold_left (fun c chunk => fst (tx_parser_consume c chunk)) chunks ctx.

(** ** tx_display.c *)

Definition TX_DISPLAY_AMOUNT_MAX_LEN := 32.
Definition TX_DISPLAY_FEE_MAX_LEN := 40.
Definition TX_DISPLAY_CHAIN_ID_MAX_LEN := 24.

Record tx_display_t := mk_display {
  d_amount : list ascii;
  d_recipient : list ascii;
  d_fee : list ascii;
  d_chain_id : list ascii;
  d_sender : list ascii;
  d_nonce : list ascii
}.

(** ['0' + (char)d] *)
Definition digit_char (d : Z) : ascii := ascii_of_nat (48 + Z.to_nat d).

(** [while (value > 0 && pos < sizeof(buf))]: [fuel] is [sizeof(buf) - pos]
    and [buf] holds the [pos] digits written so far. *)
Fixpoint u64_digits_loop (fuel : nat) (value : Z) (buf : list ascii) : list ascii :=
  match fuel with
  | O => buf
  | S fuel' =>
      if value >? 0
      then u64_digits_loop fuel' (value / 10) (buf ++ [digit_char (value mod 10)])
      else buf
  end.

Definition format_u64_decimal (value : Z) (out : list ascii) (out_len : Z)
    : list ascii * Z :=
  if out_len =? 0 then (out, 0)
  else if value =? 0 then
    if out_len <? 2 then ([], 0) else (["0"%char], 1)
  else
    let buf := u64_digits_loop 24 value [] in
    let pos := Z.of_nat (length buf) in
    if pos + 1 >? out_len then ([], 0)
    else (rev buf, pos).

Definition q_factor := 1844674407370955161.
Definition r_factor := 6.

(** The string literals of the sources, as character lists. *)
Module Literal.
Import String.
Definition overflow_msg : list ascii := list_ascii_of_string "Overflow".
Definition base58_alphabet : list ascii :=
  list_ascii_of_string "123456789ABCDEFGHJKLMNPQRSTUVWXYZabcdefghijkmnopqrstuvwxyz".
Definition app_name : list ascii := list_ascii_of_string "SUM Chain".
(** What [format_fee] writes for [fee_high = 9] and [fee_low = 2^64 - 1]. *)
Definition wrapped_fee_digits : list ascii :=
  list_ascii_of_string "166020696663385964543".
End Literal.

(** [while ((lo != 0 || hi != 0) && pos < sizeof(buf))] of [format_fee]. *)
Fixpoint fee_digits_loop (fuel : nat) (lo hi : Z) (buf : list ascii) : list ascii :=
  match fuel with
  | O => buf
  | S fuel' =>
      if negb (lo =? 0) || negb (hi =? 0) then
        let hi_div := hi / 10 in
        let hi_rem := hi mod 10 in
        let lo_contrib := u64 (u64 (hi_rem * r_factor) + lo) in
        let lo_div := lo_contrib / 10 in
        let lo_rem := lo_contrib mod 10 in
        let lo_new := u64 (u64 (hi_rem * q_factor) + lo_div) in
        fee_digits_loop fuel' lo_new hi_div (buf ++ [digit_char lo_rem])
      else buf
  end.

Definition format_fee (fee_low fee_high : Z) (overflow : bool)
    (out : list ascii) (out_len : Z) : list ascii * Z :=
  if out_len =? 0 then (out, 0)
  else if overflow then
    let len := Z.of_nat (length Literal.overflow_msg) in
    if len + 1 >? out_len then ([], 0) else (Literal.overflow_msg, len)
  else if fee_high =? 0 then format_u64_decimal fee_low out out_len
  else
    let buf := fee_digits_loop 48 fee_low fee_high [] in
    let pos := Z.of_nat (length buf) in
    if pos + 1 >? out_len then ([], 0)
    else (rev buf, pos).

(** ** address.c *)

Definition BASE58_ALPHABET : list ascii := Literal.base58_alphabet.
Definition MAX_INPUT_LEN := 32.
Definition MAX_B58_LEN := 45%nat.

(** Length of the longest prefix whose elements satisfy [p]. *)
Fixpoint leading_count {A} (p : A -> bool) (l : list A) : nat :=
  match l with
  | x :: tl => if p x then S (leading_count p tl) else O
  | [] => O
  end.

Definition is_zero (b : Z) : bool := b =? 0.

(** [for (i = start; i < in_len; i++)]: one long division of
    [buf[start..in_len)] by 58; returns the quotient bytes and the carry. *)
Fixpoint div58_loop (bytes : list Z) (carry : Z) : list Z * Z :=
  match bytes with
  | [] => ([], carry)
  | b :: tl =>
      let carry := u32 (carry * 256 + b) in
      let q := u8 (carry / 58) in
      let carry := carry mod 58 in
      let (tl', c) := div58_loop tl carry in
      (q :: tl', c)
  end.

(** [while (start < in_len)].  The loop reads and writes only
    [buf[start..in_len)]; [live] is that part of the buffer, so
    [start < in_len] says that [live] is not empty, and skipping the leading
    zeros of the quotient drops them from [live].  The loop returns from the
    function once [b58_len] has reached [MAX_B58_LEN], so [MAX_B58_LEN + 1]
    iterations are never exceeded. *)
Fixpoint b58_loop (fuel : nat) (live : list Z) (b58_rev : list ascii)
    : option (list ascii) :=
  match fuel with
  | O => None
  | S fuel' =>
      match live with
      | [] => Some b58_rev
      | _ :: _ =>
          let (quot, carry) := div58_loop live 0 in
          if (MAX_B58_LEN <=? length b58_rev)%nat then None
          else
            let b58_rev := b58_rev ++ [nth (Z.to_nat carry) BASE58_ALPHABET zero] in
            b58_loop fuel' (skipn (leading_count is_zero quot) quot) b58_rev
      end
  end.

Definition base58_encode (input : list Z) (out : list ascii) (out_len : Z)
    : list ascii * Z :=
  let in_len := Z.of_nat (length input) in
  if out_len =? 0 then (out, 0)
  else if in_len =? 0 then ([], 0)
  else if in_len >? MAX_INPUT_LEN then ([], 0)
  else
    let leading_zeros := leading_count is_zero input in
    match b58_loop (S MAX_B58_LEN) (skipn leading_zeros input) [] with
    | None => ([], 0)
    | Some b58_rev =>
        let total_len := Z.of_nat (leading_zeros + length b58_rev) in
        if total_len + 1 >? out_len then ([], 0)
        else (repeat "1"%char leading_zeros ++ rev b58_rev, total_len)
    end.

Definition sumchain_address_to_base58 (addr20 : list Z) (out : list ascii)
    (out_len : Z) : list ascii * Z :=
  base58_encode (firstn ADDRESS_LEN addr20) out out_len.

Definition format_address := sumchain_address_to_base58.

Definition display_zero : tx_display_t := mk_display [] [] [] [] [] [].

(** [tx_display_format]: the C return value and the display strings. *)
Definition tx_display_format (p : tx_parsed_t) : bool * tx_display_t :=
  let d := display_zero in
  let (s_amount, n) :=
    format_u64_decimal (amount p) (d_amount d) TX_DISPLAY_AMOUNT_MAX_LEN in
  let d := mk_display s_amount (d_recipient d) (d_fee d) (d_chain_id d)
                      (d_sender d) (d_nonce d) in
  if n =? 0 then (false, d) else
  let (s_recipient, n) :=
    format_address (recipient p) (d_recipient d) ADDRESS_BASE58_MAX_LEN in
  let d := mk_display (d_amount d) s_recipient (d_fee d) (d_chain_id d)
                      (d_sender d) (d_nonce d) in
  if n =? 0 then (false, d) else
  let (s_fee, n) :=
    format_fee (fee_low p) (fee_high p) (fee_overflow p) (d_fee d)
               TX_DISPLAY_FEE_MAX_LEN in
  let d := mk_display (d_amount d) (d_recipient d) s_fee (d_chain_id d)
                      (d_sender d) (d_nonce d) in
  if n =? 0 then (false, d) else
  let (s_chain, n) :=
    format_u64_decimal (chain_id p) (d_chain_id d) TX_DISPLAY_CHAIN_ID_MAX_LEN in
  let d := mk_display (d_amount d) (d_recipient d) (d_fee d) s_chain
                      (d_sender d) (d_nonce d) in
  if n =? 0 then (false, d) else
  let (s_sender, n) :=
    format_address (sender p) (d_sender d) ADDRESS_BASE58_MAX_LEN in
  let d := mk_display (d_amount d) (d_recipient d) (d_fee d) (d_chain_id d)
                      s_sender (d_nonce d) in
  if n =? 0 then (false, d) else
  let (s_nonce, n) :=
    format_u64_decimal (nonce p) (d_nonce d) TX_DISPLAY_AMOUNT_MAX_LEN in
  let d := mk_display (d_amount d) (d_recipient d) (d_fee d) (d_chain_id d)
                      (d_sender d) s_nonce in
  if n =? 0 then (false, d) else (true, d).

(** ** crypto.c *)

Definition crypto_validate_path (p : bip32_path_t) : bool :=
  if (path_length p =? 0) || (path_length p >? MAX_BIP32_PATH_LEN) then false
  else forallb (fun c => negb (Z.land c 0x80000000 =? 0))
               (firstn (Z.to_nat (path_length p)) (path p)).

(** The big-endian component at [&data[1 + i * 4]]. *)
Definition path_component (data : list Z) (i : nat) : Z :=
  let p := skipn (1 + i * 4) data in
  Z.lor (u32 (Z.shiftl (buf_at p 0) 24))
 (Z.lor (u32 (Z.shiftl (buf_at p 1) 16))
 (Z.lor (u32 (Z.shiftl (buf_at p 2) 8))
        (buf_at p 3))).

(** [crypto_parse_path(data, data_len, path)] with [data_len] the length of
    [data]; [old] is what [*path] held before the call.  Returns the number
    of bytes consumed (0 on error) and the contents of [*path]. *)
Definition crypto_parse_path (data : list Z) (old : bip32_path_t)
    : Z * bip32_path_t :=
  let data_len := Z.of_nat (length data) in
  if data_len <? 1 then (0, old) else
  let len := buf_at data 0 in
  if (len =? 0) || (len >? MAX_BIP32_PATH_LEN) then (0, old) else
  let required := 1 + len * 4 in
  if data_len <? required then (0, old) else
  (required,
   mk_path len (map (path_component data) (seq 0 (Z.to_nat len))
                ++ skipn (Z.to_nat len) (path old))).

(** The key primitive (SLIP-10 derivation and Ed25519 of the secure element,
    or the stubs of the host build).  Each function takes the previous
    contents of its output buffer and returns the C return value and the
    buffer as the call leaves it; the buffers are the fixed-size arrays
    [pubkey32] and [sig64]. *)
Class KeyProvider : Type := {
  crypto_derive_pubkey : bip32_path_t -> list Z -> bool * list Z;
  crypto_sign_hash : bip32_path_t -> list Z -> list Z -> bool * list Z;
  pubkey32_length : forall p buf,
    length (snd (crypto_derive_pubkey p buf)) = PUBKEY_LEN;
  sig64_length : forall p h buf,
    length (snd (crypto_sign_hash p h buf)) = SIGNATURE_LEN
}.

(** The stubs of the host build: [memset(pubkey32, 0x42, PUBKEY_LEN)] and
    [memset(sig64, 0xAA, SIGNATURE_LEN)]. *)
#[export] Program Instance host_keys : KeyProvider := {
  crypto_derive_pubkey _ _ := (true, repeat 0x42 PUBKEY_LEN);
  crypto_sign_hash _ _ _ := (true, repeat 0xAA SIGNATURE_LEN)
}.

(** ** crypto/sum_blake3.c *)

(** The BLAKE3 primitive: the hasher structure with its all-zero image,
    and [blake3_hasher_init], [_update] and [_finalize]. *)
Class Blake3 : Type := {
  blake3_hasher : Type;
  blake3_hasher_zero : blake3_hasher;
  blake3_hasher_init : blake3_hasher -> blake3_hasher;
  blake3_hasher_update : blake3_hasher -> list Z -> blake3_hasher;
  blake3_hasher_finalize : blake3_hasher -> nat -> list Z;
  blake3_finalize_length : forall h n, length (blake3_hasher_finalize h n) = n
}.

(** A stand-in primitive used to run the handlers on concrete inputs: the
    hasher records what it absorbed ([None] is the all-zero structure) and the
    digest is the padded input. *)
#[export] Program Instance trace_blake3 : Blake3 := {
  blake3_hasher := option (list Z);
  blake3_hasher_zero := None;
  blake3_hasher_init _ := Some [];
  blake3_hasher_update h d := match h with Some l => Some (l ++ d) | None => None end;
  blake3_hasher_finalize h n :=
    firstn n (match h with Some l => l | None => [] end ++ repeat 0 n)
}.
Next Obligation.
  rewrite firstn_length_le; [reflexivity|].
  rewrite length_app, repeat_length. lia.
Qed.

Section Session.
Context {B3 : Blake3} {KP : KeyProvider}.

Record sum_blake3_ctx_t := mk_hash_ctx {
  hasher : blake3_hasher;
  hash_initialized : Z        (* uint8_t initialized *)
}.

Definition sum_blake3_ctx_zero : sum_blake3_ctx_t :=
  mk_hash_ctx blake3_hasher_zero 0.

Definition sum_blake3_init (ctx : sum_blake3_ctx_t) : sum_blake3_ctx_t :=
  mk_hash_ctx (blake3_hasher_init (hasher ctx)) 1.

Definition sum_blake3_update (ctx : sum_blake3_ctx_t) (input : list Z)
    : sum_blake3_ctx_t :=
  if hash_initialized ctx =? 0 then ctx
  else mk_hash_ctx (blake3_hasher_update (hasher ctx) input) (hash_initialized ctx).

Definition sum_blake3_finalize32 (ctx : sum_blake3_ctx_t) (out32 : list Z)
    : sum_blake3_ctx_t * list Z :=
  if hash_initialized ctx =? 0 then (ctx, out32)
  else (mk_hash_ctx (hasher ctx) 0, blake3_hasher_finalize (hasher ctx) 32).

(** [sum_blake3_hash]: the local context is initialised before any use and
    zeroized at the end; the value is the digest. *)
Definition sum_blake3_hash (input : list Z) (out32 : list Z) : list Z :=
  let ctx := sum_blake3_init sum_blake3_ctx_zero in
  let ctx := sum_blake3_update ctx input in
  snd (sum_blake3_finalize32 ctx out32).

(** ** globals.h: the session and the global state *)

Record sign_session_t := mk_session {
  initialized : bool;
  session_path : bip32_path_t;
  tx_hash_ctx : sum_blake3_ctx_t;
  parser : tx_parser_ctx_t;
  total_received : Z;         (* size_t *)
  last_chunk_received : bool
}.

Record app_state_t := mk_app {
  sign_session : sign_session_t;
  ui_result : ui_result_t;
  pubkey : list Z;
  address_bytes : list Z;
  address_str : list ascii;
  hash : list Z;
  signature : list Z
}.

Definition sign_session_zero : sign_session_t :=
  mk_session false bip32_path_zero sum_blake3_ctx_zero tx_parser_ctx_zero 0 false.

Definition set_sign_session (s : sign_session_t) (st : app_state_t) :=
  mk_app s (ui_result st) (pubkey st) (address_bytes st) (address_str st)
         (hash st) (signature st).
Definition set_pubkey (v : list Z) (st : app_state_t) :=
  mk_app (sign_session st) (ui_result st) v (address_bytes st) (address_str st)
         (hash st) (signature st).
Definition set_address_str (v : list ascii) (st : app_state_t) :=
  mk_app (sign_session st) (ui_result st) (pubkey st) (address_bytes st) v
         (hash st) (signature st).
Definition set_hash (v : list Z) (st : app_state_t) :=
  mk_app (sign_session st) (ui_result st) (pubkey st) (address_bytes st)
         (address_str st) v (signature st).
Definition set_signature (v : list Z) (st : app_state_t) :=
  mk_app (sign_session st) (ui_result st) (pubkey st) (address_bytes st)
         (address_str st) (hash st) v.

(** [SECURE_ZEROIZE(&G_state.sign_session, sizeof(sign_session_t))] followed
    by [initialized = false]. *)
Definition reset_sign_session (st : app_state_t) : app_state_t :=
  set_sign_session sign_session_zero st.

(** ** address.c, continued *)

Definition sumchain_address_bytes_from_pubkey (pubkey32 : list Z) : list Z :=
  let hash := sum_blake3_hash pubkey32 (repeat 0 32) in
  firstn 20 (skipn 12 hash).

(** Returns the C return value and the contents of [out_str].  The local
    buffers are written before they are read. *)
Definition sumchain_get_address_for_path (p : bip32_path_t) (display : bool)
    (out_str : list ascii) (out_str_len : Z) : bool * list ascii :=
  if out_str_len <? ADDRESS_BASE58_MAX_LEN then (false, out_str)
  else if negb (crypto_validate_path p) then (false, out_str)
  else
    let (ok, pubkey) := crypto_derive_pubkey p (repeat 0 PUBKEY_LEN) in
    if negb ok then (false, out_str)
    else
      let addr_bytes := sumchain_address_bytes_from_pubkey pubkey in
      let (s, len) := sumchain_address_to_base58 addr_bytes out_str out_str_len in
      if len =? 0 then (false, s) else (true, s).

(** ** apdu_handlers.c *)

Record apdu_t := mk_apdu {
  cla : Z;
  ins : Z;
  p1 : Z;
  p2 : Z;
  data : list Z               (* the [lc] data bytes *)
}.

Definition lc (a : apdu_t) : Z := Z.of_nat (length (data a)).

Definition byte_of_char (c : ascii) : Z := Z.of_nat (nat_of_ascii c).

(** A handler returns the status word, the bytes it appended at [*tx] and
    the global state. *)
Definition response : Type := Z * list Z * app_state_t.

Definition handle_get_version (st : app_state_t) (a : apdu_t) : response :=
  (SW_OK, [APPVERSION_MAJOR; APPVERSION_MINOR; APPVERSION_PATCH], st).

Definition handle_get_app_name (st : app_state_t) (a : apdu_t) : response :=
  (SW_OK, map byte_of_char Literal.app_name, st).

(** The local [path] is uninitialised in C; [crypto_parse_path] writes
    [length] and the first [length] components, and nothing reads the others,
    so the model starts it from zeros. *)
Definition handle_get_public_key (st : app_state_t) (a : apdu_t) : response :=
  if lc a <? 1 then (SW_WRONG_LENGTH, [], st) else
  let (path_bytes, p) := crypto_parse_path (data a) bip32_path_zero in
  if path_bytes =? 0 then (SW_INVALID_PATH, [], st) else
  if negb (crypto_validate_path p) then (SW_INVALID_PATH, [], st) else
  let (ok, pk) := crypto_derive_pubkey p (pubkey st) in
  let st := set_pubkey pk st in
  if negb ok then (SW_INTERNAL_ERROR, [], st)
  else (SW_OK, firstn PUBKEY_LEN (pubkey st), st).

Definition handle_get_address (st : app_state_t) (a : apdu_t) : response :=
  let display := p1 a =? 0x01 in
  if lc a <? 1 then (SW_WRONG_LENGTH, [], st) else
  let (path_bytes, p) := crypto_parse_path (data a) bip32_path_zero in
  if path_bytes =? 0 then (SW_INVALID_PATH, [], st) else
  if negb (crypto_validate_path p) then (SW_INVALID_PATH, [], st) else
  let (ok, s) :=
    sumchain_get_address_for_path p display (address_str st)
                                  ADDRESS_BASE58_MAX_LEN in
  let st := set_address_str s st in
  if negb ok then (SW_INTERNAL_ERROR, [], st)
  else (SW_OK, map byte_of_char (address_str st), st).

(** Where [handle_sign_tx] stands when it either returns to the dispatcher
    or calls [tx_display_show_approval]. *)
Inductive sign_progress :=
| Exit (sw : Z) (st : app_state_t)
| Ask (display : tx_display_t) (st : app_state_t).

Definition with_session (f : sign_session_t -> sign_session_t)
    (st : app_state_t) : app_state_t :=
  set_sign_session (f (sign_session st)) st.

(** Feeding [tx_data] to the hash and to the parser (both arms): [inl sw]
    is an error return after [reset_sign_session], [inr s] the session to
    go on with. *)
Definition absorb_tx_bytes (s : sign_session_t) (tx_data : list Z)
    : Z + sign_session_t :=
  let tx_len := Z.of_nat (length tx_data) in
  if tx_len >? 0 then
    if total_received s + tx_len >? MAX_TX_SIZE then inl SW_TX_TOO_LARGE
    else
      let h := sum_blake3_update (tx_hash_ctx s) tx_data in
      let (pc, consumed) := tx_parser_consume (parser s) tx_data in
      if negb (consumed =? tx_len) || tx_parser_has_error pc
      then inl SW_TX_PARSE_ERROR
      else inr (mk_session (initialized s) (session_path s) h pc
                           (total_received s + tx_len) (last_chunk_received s))
  else inr s.

(** [handle_sign_tx] behind its guard on the pointer arguments (the guard is
    in [handle_sign_tx_call] below), up to the return of the chunk or the
    approval call. *)
Definition sign_tx_until_approval (st : app_state_t) (a : apdu_t) : sign_progress :=
  let is_first := p1 a =? P1_FIRST_CHUNK in
  let is_more := p2 a =? P2_MORE_CHUNKS in
  if negb (p1 a =? P1_FIRST_CHUNK) && negb (p1 a =? P1_MORE_CHUNK)
  then Exit SW_INVALID_P1P2 (reset_sign_session st)
  else if negb (p2 a =? P2_LAST_CHUNK) && negb (p2 a =? P2_MORE_CHUNKS)
  then Exit SW_INVALID_P1P2 (reset_sign_session st)
  else
    let absorbed : Z * app_state_t + app_state_t :=
      if is_first then
        let st := reset_sign_session st in
        if lc a <? 1 then inl (SW_WRONG_LENGTH, st) else
        let (path_bytes, p) :=
          crypto_parse_path (data a) (session_path (sign_session st)) in
        if path_bytes =? 0 then inl (SW_INVALID_PATH, reset_sign_session st) else
        if negb (crypto_validate_path p)
        then inl (SW_INVALID_PATH, reset_sign_session st) else
        let s := mk_session true p
                   (sum_blake3_init (tx_hash_ctx (sign_session st)))
                   tx_parser_init 0 (negb is_more) in
        match absorb_tx_bytes s (skipn (Z.to_nat path_bytes) (data a)) with
        | inl sw => inl (sw, reset_sign_session st)
        | inr s => inr (set_sign_session s st)
        end
      else
        let s := sign_session st in
        if negb (initialized s) then inl (SW_SESSION_ERROR, st) else
        if last_chunk_received s
        then inl (SW_SESSION_ERROR, reset_sign_session st) else
        let s := mk_session (initialized s) (session_path s) (tx_hash_ctx s)
                   (parser s) (total_received s) (negb is_more) in
        match absorb_tx_bytes s (data a) with
        | inl sw => inl (sw, reset_sign_session st)
        | inr s => inr (set_sign_session s st)
        end in
    match absorbed with
    | inl (sw, st) => Exit sw st
    | inr st =>
        if negb is_more then
          let s := sign_session st in
          if negb (tx_parser_is_done (parser s))
          then Exit SW_TX_PARSE_ERROR (reset_sign_session st) else
          let parsed := tx_parser_get_parsed (parser s) in
          let (ok, display) := tx_display_format parsed in
          if negb ok then Exit SW_INTERNAL_ERROR (reset_sign_session st) else
          if fee_overflow parsed
          then Exit SW_TX_OVERFLOW (reset_sign_session st)
          else Ask display st
        else Exit SW_OK st
    end.

(** [handle_sign_tx] from the value that [tx_display_show_approval]
    returned. *)
Definition sign_tx_after_approval (result : ui_result_t) (st : app_state_t)
    : response :=
  match result with
  | UI_RESULT_APPROVED =>
      let s := sign_session st in
      let (h, digest) := sum_blake3_finalize32 (tx_hash_ctx s) (hash st) in
      let s := mk_session (initialized s) (session_path s) h (parser s)
                 (total_received s) (last_chunk_received s) in
      let st := set_hash digest (set_sign_session s st) in
      let (ok, sig) := crypto_sign_hash (session_path s) (hash st) (signature st) in
      let st := set_signature sig st in
      if negb ok then
        (SW_INTERNAL_ERROR, [],
         reset_sign_session (set_hash (repeat 0 HASH_LEN) st))
      else
        (SW_OK, firstn SIGNATURE_LEN (signature st),
         reset_sign_session
           (set_signature (repeat 0 SIGNATURE_LEN)
              (set_hash (repeat 0 HASH_LEN) st)))
  | _ => (SW_USER_REJECTED, [], reset_sign_session st)
  end.

(** [tx_display_show_approval] is the display collaborator; the handler
    takes it as the function [ui] from the display strings to the decision.
    This is [handle_sign_tx] on a command [a] and a response buffer, that
    is, behind the guard on its pointer arguments. *)
Definition handle_sign_tx (ui : tx_display_t -> ui_result_t)
    (st : app_state_t) (a : apdu_t) : response :=
  match sign_tx_until_approval st a with
  | Exit sw st' => (sw, [], st')
  | Ask display st' => sign_tx_after_approval (ui display) st'
  end.

(** The argument [uint8_t **tx] of a handler: [tx] is NULL, or [*tx] is
    NULL, or [*tx] is the cursor into a response buffer. *)
Inductive tx_arg_t :=
| TX_NULL
| TX_CURSOR_NULL
| TX_BUFFER.

(** [handle_sign_tx(apdu, tx)] as it is called, [apdu] being NULL ([None])
    or a pointer to a command: the function starts with
    [if (apdu == NULL || tx == NULL || *tx == NULL) return SW_INTERNAL_ERROR;]
    which comes before any [reset_sign_session()] and writes nothing. *)
Definition handle_sign_tx_call (ui : tx_display_t -> ui_result_t)
    (st : app_state_t) (apdu : option apdu_t) (tx : tx_arg_t) : response :=
  match apdu, tx with
  | Some a, TX_BUFFER => handle_sign_tx ui st a
  | _, _ => (SW_INTERNAL_ERROR, [], st)
  end.

(** [apdu_dispatch] builds the command on its stack and hands its address
    to the handler; [tx] is the response cursor of the caller. *)
Definition apdu_dispatch (ui : tx_display_t -> ui_result_t)
    (st : app_state_t) (a : apdu_t) : response :=
  if negb (cla a =? CLA_SUMCHAIN) then (SW_CLA_NOT_SUPPORTED, [], st)
  else if ins a =? INS_GET_VERSION then handle_get_version st a
  else if ins a =? INS_GET_APP_NAME then handle_get_app_name st a
  else if ins a =? INS_GET_PUBLIC_KEY then handle_get_public_key st a
  else if ins a =? INS_GET_ADDRESS then handle_get_address st a
  else if ins a =? INS_SIGN_TX then handle_sign_tx ui st a
  else (SW_INS_NOT_SUPPORTED, [], st).

(** The states of the running application: [app_main] resets the signing
    session on startup (whatever the other buffers hold) and then serves
    one command after the other. *)
Inductive reachable : app_state_t -> Prop :=
| reach_boot : forall st, reachable (reset_sign_session st)
| reach_apdu : forall ui st a,
    reachable st -> reachable (snd (apdu_dispatch ui st a)).

End Session.

(** The approval stub of the host build. *)
Definition ui_auto_approve (_ : tx_display_t) : ui_result_t := UI_RESULT_APPROVED.
Definition ui_reject (_ : tx_display_t) : ui_result_t := UI_RESULT_REJECTED.

(** ** The wire format and auxiliary notions used in the statements *)

(** The [len] bytes of [data] from offset [off]. *)
Definition wire_field (data : list Z) (off len : nat) : list Z :=
  firstn len (skipn off data).

(** The number a byte sequence denotes, least significant byte first. *)
Definition le_value (bytes : list Z) : Z :=
  fold_right (fun b acc => b + 256 * acc) 0 bytes.

(** Offsets of the fields of a Transfer on the wire:
    version 1, chain_id 8, sender 20, nonce 8, gas_price 8, gas_limit 8,
    tx_type 1, recipient 20, amount 8. *)
Definition OFF_VERSION := 0%nat.
Definition OFF_CHAIN_ID := 1%nat.
Definition OFF_SENDER := 9%nat.
Definition OFF_NONCE := 29%nat.
Definition OFF_GAS_PRICE := 37%nat.
Definition OFF_GAS_LIMIT := 45%nat.
Definition OFF_TX_TYPE := 53%nat.
Definition OFF_RECIPIENT := 54%nat.
Definition OFF_AMOUNT := 74%nat.
Definition TRANSFER_LEN := 82%nat.

(** A well-formed Transfer: 82 bytes, version byte 1, tx_type byte 0. *)
Definition valid_transfer (data : list Z) : Prop :=
  length data = TRANSFER_LEN /\ bytes_ok data /\
  nth OFF_VERSION data 0 = 1 /\ nth OFF_TX_TYPE data 0 = TX_TYPE_TRANSFER.

(** One byte given to the parser in a call of its own. *)
Definition feed (ctx : tx_parser_ctx_t) (b : Z) : tx_parser_ctx_t :=
  fst (tx_parser_consume ctx [b]).

(** The context after [memcpy] of [chunk] into the scratch buffer and the
    three counter updates of a loop iteration. *)
Definition absorbed (ctx : tx_parser_ctx_t) (chunk : list Z) : tx_parser_ctx_t :=
  mk_parser (state ctx)
    (field_offset ctx + Z.of_nat (length chunk))
    (memcpy_at (scratch ctx) (Z.to_nat (field_offset ctx)) chunk)
    (parsed ctx)
    (total_consumed ctx + Z.of_nat (length chunk)).

(** The context after [process_complete_field] and the caller's reaction
    to its return value. *)
Definition completed (ctx : tx_parser_ctx_t) : tx_parser_ctx_t :=
  match process_complete_field ctx with
  | (false, c) => set_state TX_PARSE_STATE_ERROR c
  | (true, c) => c
  end.

(** What holds of every context between two calls: the scratch buffer has
    its 32 bytes and the offset lies inside the current field. *)
Definition parser_inv (ctx : tx_parser_ctx_t) : Prop :=
  length (scratch ctx) = 32%nat /\ 0 <= total_consumed ctx /\
  (get_field_size (state ctx) <> 0 ->
   0 <= field_offset ctx < get_field_size (state ctx)).

(** The number a byte sequence denotes, most significant byte first. *)
Fixpoint be_value (bytes : list Z) : Z :=
  match bytes with
  | [] => 0
  | b :: tl => b * 256 ^ Z.of_nat (length tl) + be_value tl
  end.

Definition is_one (c : ascii) : bool := Ascii.eqb c "1"%char.

Definition in_alphabet (c : ascii) : Prop := In c BASE58_ALPHABET.

(** The value of a decimal string. *)
Definition decimal_value (s : list ascii) : Z :=
  fold_left (fun acc c => acc * 10 + (Z.of_nat (nat_of_ascii c) - 48)) s 0.

Section SessionNotions.
Context {B3 : Blake3} {KP : KeyProvider}.

(** An idle session is a zeroized one. *)
Definition session_inv (st : app_state_t) : Prop :=
  initialized (sign_session st) = false -> sign_session st = sign_session_zero.

(** What the handler has done when it returns or asks for approval. *)
Definition progress_ok (st : app_state_t) (a : apdu_t) (r : sign_progress) : Prop :=
  match r with
  | Exit sw st' =>
      st' = set_sign_session (sign_session st') st /\
      ((sw = SW_OK /\ p2 a = P2_MORE_CHUNKS /\
        initialized (sign_session st') = true)
       \/ (sw <> SW_OK /\ sign_session st' = sign_session_zero)
       \/ (sw = SW_SESSION_ERROR /\ st' = st /\
           initialized (sign_session st) = false))
  | Ask _ st' =>
      st' = set_sign_session (sign_session st') st /\ p2 a <> P2_MORE_CHUNKS
  end.

End SessionNotions.

(** ** Notions used in the further properties *)

(** The wire offset at which the field of a parser state starts; for the
    done state, the length of a Transfer. *)
Definition field_start (s : tx_parse_state_t) : Z :=
  match s with
  | TX_PARSE_STATE_VERSION => 0
  | TX_PARSE_STATE_CHAIN_ID => 1
  | TX_PARSE_STATE_SENDER => 9
  | TX_PARSE_STATE_NONCE => 29
  | TX_PARSE_STATE_GAS_PRICE => 37
  | TX_PARSE_STATE_GAS_LIMIT => 45
  | TX_PARSE_STATE_TX_TYPE => 53
  | TX_PARSE_STATE_RECIPIENT => 54
  | TX_PARSE_STATE_AMOUNT => 74
  | TX_PARSE_STATE_DONE => 82
  | _ => 0
  end.

(** The states that lie behind the version field, and behind the tx_type
    field. *)
Definition version_checked (s : tx_parse_state_t) : bool :=
  match s with
  | TX_PARSE_STATE_INIT | TX_PARSE_STATE_VERSION | TX_PARSE_STATE_ERROR => false
  | _ => true
  end.

Definition tx_type_checked (s : tx_parse_state_t) : bool :=
  match s with
  | TX_PARSE_STATE_RECIPIENT | TX_PARSE_STATE_AMOUNT | TX_PARSE_STATE_DONE => true
  | _ => false
  end.

(** What holds of a context that started from [tx_parser_init]: the bytes
    consumed are those in front of the current position on the wire, and
    the checks of the fields passed did succeed. *)
Definition wire_ok (ctx : tx_parser_ctx_t) : Prop :=
  state ctx <> TX_PARSE_STATE_INIT /\
  (state ctx <> TX_PARSE_STATE_ERROR ->
   total_consumed ctx = field_start (state ctx) + field_offset ctx) /\
  (state ctx = TX_PARSE_STATE_ERROR -> 0 <= total_consumed ctx <= 82) /\
  (state ctx = TX_PARSE_STATE_DONE -> field_offset ctx = 0) /\
  (version_checked (state ctx) = true -> version (parsed ctx) = 1) /\
  (tx_type_checked (state ctx) = true -> tx_type (parsed ctx) = TX_TYPE_TRANSFER).

Definition is_digit (c : ascii) : Prop := (48 <= nat_of_ascii c <= 57)%nat.
Definition is_char_zero (c : ascii) : bool := Ascii.eqb c "0"%char.

(** A record as the parser leaves it: 64-bit integers, 20-byte addresses,
    and an overflow flag that says whether [fee_high] is non-zero. *)
Definition parsed_ok (p : tx_parsed_t) : Prop :=
  0 <= chain_id p < 2 ^ 64 /\ 0 <= nonce p < 2 ^ 64 /\ 0 <= amount p < 2 ^ 64 /\
  length (sender p) = 20%nat /\ bytes_ok (sender p) /\
  length (recipient p) = 20%nat /\ bytes_ok (recipient p) /\
  0 <= fee_low p < 2 ^ 64 /\
  fee_overflow p = negb (fee_high p =? 0).

(** The position of a character in a string (its length when absent), the
    digit value of a Base58 character, and the number a Base58 string
    denotes, most significant digit first. *)
Fixpoint index_of (c : ascii) (l : list ascii) : nat :=
  match l with
  | [] => O
  | x :: tl => if Ascii.eqb c x then O else S (index_of c tl)
  end.

Definition b58_digit (c : ascii) : Z := Z.of_nat (index_of c BASE58_ALPHABET).

Definition b58_value (s : list ascii) : Z :=
  fold_left (fun acc c => acc * 58 + b58_digit c) s 0.

(** The same for digits listed least significant first. *)
Definition b58_value_lsb (ds : list ascii) : Z :=
  fold_right (fun c v => b58_digit c + 58 * v) 0 ds.

(** The wire form of a derivation path: the count byte and the components,
    four bytes each, most significant byte first. *)
Definition be32_bytes (c : Z) : list Z :=
  [c / 2 ^ 24 mod 256; c / 2 ^ 16 mod 256; c / 2 ^ 8 mod 256; c mod 256].

Definition path_wire (comps : list Z) : list Z :=
  Z.of_nat (length comps) :: flat_map be32_bytes comps.

Definition u32_ok (c : Z) : Prop := 0 <= c < 2 ^ 32.
Definition hardened (c : Z) : Prop := 2 ^ 31 <= c.

Section StreamNotions.
Context {B3 : Blake3} {KP : KeyProvider}.

(** The hash context after [sum_blake3_init] on the zeroized session and one
    [sum_blake3_update] per chunk. *)
Definition hash_of_chunks (chunks : list (list Z)) : sum_blake3_ctx_t :=
  fold_left sum_blake3_update chunks (sum_blake3_init sum_blake3_ctx_zero).

(** A session that has received the transaction bytes [chunks], chunk by
    chunk: the path passed validation, the hash has absorbed these chunks,
    the parser stands where a parse of all the bytes in one call ends, has
    absorbed every byte and reports no error. *)
Definition stream_session (s : sign_session_t) (chunks : list (list Z)) : Prop :=
  crypto_validate_path (session_path s) = true /\
  tx_hash_ctx s = hash_of_chunks chunks /\
  parser s = fst (tx_parser_consume tx_parser_init (concat chunks)) /\
  total_received s = Z.of_nat (length (concat chunks)) /\
  total_consumed (parser s) = total_received s /\
  tx_parser_has_error (parser s) = false.

(** An active session is one that waits for more chunks of a stream. *)
Definition stream_inv (st : app_state_t) : Prop :=
  initialized (sign_session st) = true ->
  last_chunk_received (sign_session st) = false /\
  exists chunks, stream_session (sign_session st) chunks.

(** What [handle_sign_tx] has established when it returns to the dispatcher
    or calls [tx_display_show_approval]; [lc] is a [uint8_t]. *)
Definition stream_progress (st : app_state_t) (a : apdu_t) (r : sign_progress)
    : Prop :=
  match r with
  | Exit sw st' => stream_inv st' /\ (lc a <= 255 -> sw <> SW_TX_TOO_LARGE)
  | Ask d st' =>
      let s := sign_session st' in
      st' = set_sign_session s st /\
      initialized s = true /\
      session_path s
      = (if p1 a =? P1_FIRST_CHUNK
         then snd (crypto_parse_path (data a) bip32_path_zero)
         else session_path (sign_session st)) /\
      (exists chunks, stream_session s chunks) /\
      tx_parser_is_done (parser s) = true /\
      tx_display_format (tx_parser_get_parsed (parser s)) = (true, d) /\
      fee_overflow (tx_parser_get_parsed (parser s)) = false
  end.

End StreamNotions.

(** A decimal numeral of a 64-bit value: 1 to 20 digits that denote it,
    without a leading zero unless the numeral is ["0"]. *)
Definition decimal_of (s : list ascii) (v : Z) : Prop :=
  Forall is_digit s /\ (1 <= length s <= 20)%nat /\ decimal_value s = v /\
  (v <> 0 -> leading_count is_char_zero s = O) /\
  (v = 0 -> s = ["0"%char]).

(** The Base58 numeral of a 20-byte address: 1 to 34 characters of the
    alphabet that denote the bytes read as a number, with one ['1'] in
    front for each leading zero byte. *)
Definition base58_of (s : list ascii) (bytes : list Z) : Prop :=
  Forall in_alphabet s /\ (1 <= length s <= 34)%nat /\
  b58_value s = be_value bytes /\
  leading_count is_one s = leading_count is_zero bytes.

(** ** Concrete inputs *)

(** The transaction of scenario S1: gas_price 1000, gas_limit 21000. *)
Definition fee_s1 : tx_parsed_t :=
  set_gas_limit 21000 (set_gas_price 1000 tx_parsed_zero).

(** Little-endian bytes of [v], used to write down concrete transactions. *)
Fixpoint le_bytes (n : nat) (v : Z) : list Z :=
  match n with
  | O => []
  | S n' => v mod 256 :: le_bytes n' (v / 256)
  end.

(** The transaction of scenario S1 on the wire. *)
Definition tx_s1 : list Z :=
  [1] ++ le_bytes 8 1 ++ repeat 0x11 20 ++ le_bytes 8 42 ++ le_bytes 8 1000
  ++ le_bytes 8 21000 ++ [0] ++ repeat 0x22 20 ++ le_bytes 8 1000000.

(** A partition of it whose pieces straddle field boundaries, and the
    partition into single bytes. *)
Definition chunks_s1 : list (list Z) :=
  [firstn 5 tx_s1; firstn 30 (skipn 5 tx_s1); firstn 1 (skipn 35 tx_s1);
   skipn 36 tx_s1].
Definition bytes_s1 : list (list Z) := map (fun b => [b]) tx_s1.

(** An address with two leading zero bytes. *)
Definition addr_sample : list Z :=
  [0; 0; 0x5A; 1; 2; 3; 4; 5; 6; 7; 8; 9; 10; 11; 12; 13; 14; 15; 16; 0xFF].

(** The path of scenario S1 in wire form:
    [0x8000002C, 0x800001F5, 0x80000000, 0x80000000, 0x80000000]. *)
Definition path_s1_wire : list Z :=
  [5; 0x80; 0; 0; 0x2C;  0x80; 0; 1; 0xF5;  0x80; 0; 0; 0;
      0x80; 0; 0; 0;  0x80; 0; 0; 0].

(** The global state at startup, with the host primitives. *)
Definition boot_state : @app_state_t trace_blake3 :=
  mk_app sign_session_zero UI_RESULT_NONE (repeat 0 PUBKEY_LEN)
         (repeat 0 ADDRESS_LEN) [] (repeat 0 HASH_LEN) (repeat 0 SIGNATURE_LEN).

(** Scenario S1 in one APDU (first and last chunk). *)
Definition apdu_sign_s1 : apdu_t :=
  mk_apdu CLA_SUMCHAIN INS_SIGN_TX P1_FIRST_CHUNK P2_LAST_CHUNK
          (path_s1_wire ++ tx_s1).

(** A first chunk that carries the path only and announces more chunks,
    and a continuation chunk without a session. *)
Definition apdu_first_more : apdu_t :=
  mk_apdu CLA_SUMCHAIN INS_SIGN_TX P1_FIRST_CHUNK P2_MORE_CHUNKS path_s1_wire.
Definition apdu_continue_last : apdu_t :=
  mk_apdu CLA_SUMCHAIN INS_SIGN_TX P1_MORE_CHUNK P2_LAST_CHUNK tx_s1.

(** The state in which the session is streaming. *)
Definition streaming_state : @app_state_t trace_blake3 :=
  snd (handle_sign_tx ui_auto_approve boot_state apdu_first_more).

(** A get-public-key command whose path is followed by three more bytes. *)
Definition apdu_pubkey_trailing : apdu_t :=
  mk_apdu CLA_SUMCHAIN INS_GET_PUBLIC_KEY 0 0 (path_s1_wire ++ [0xDE; 0xAD; 0xBF]).

(** A parsed record that [tx_display_format] accepts, with a fee of
    [10 * 2^64 - 1] and the overflow flag clear. *)
Definition parsed_wide_fee : tx_parsed_t :=
  set_fee false (2 ^ 64 - 1) 9 tx_parsed_zero.

(** The path of scenario S1. *)
Definition path_s1 : list Z :=
  [0x8000002C; 0x800001F5; 0x80000000; 0x80000000; 0x80000000].

(** A Transfer whose fee does not fit 64 bits: gas_price [2^64 - 1],
    gas_limit 2; and the command that carries it in one chunk. *)
Definition tx_overflow : list Z :=
  [1] ++ le_bytes 8 1 ++ repeat 0x11 20 ++ le_bytes 8 42
  ++ le_bytes 8 (2 ^ 64 - 1) ++ le_bytes 8 2 ++ [0] ++ repeat 0x22 20
  ++ le_bytes 8 1000000.
Definition apdu_sign_overflow : apdu_t :=
  mk_apdu CLA_SUMCHAIN INS_SIGN_TX P1_FIRST_CHUNK P2_LAST_CHUNK
          (path_wire path_s1 ++ tx_overflow).

(** A path whose second component is not hardened, and a GET_ADDRESS
    command for the path of scenario S1. *)
Definition path_soft : list Z := [0x8000002C; 0x1F5].
Definition apdu_address_s1 : apdu_t :=
  mk_apdu CLA_SUMCHAIN INS_GET_ADDRESS 0 0 (path_wire path_s1).
Definition apdu_pubkey_soft : apdu_t :=
  mk_apdu CLA_SUMCHAIN INS_GET_PUBLIC_KEY 0 0 (path_wire path_soft).

(** * Properties *)

(** ** Fee arithmetic *)

Lemma u64_range x : 0 <= u64 x < 2 ^ 64.
Proof. unfold u64. apply Z.mod_pos_bound. lia. Qed.

Lemma u64_small x : 0 <= x < 2 ^ 64 -> u64 x = x.
Proof. intros. unfold u64. apply Z.mod_small. assumption. Qed.

(** Unsigned addition that wraps once: the C idiom [(s < x) ? 1 : 0]
    recovers the carry. *)
Lemma u64_add_carry x y :
  0 <= x < 2 ^ 64 -> 0 <= y < 2 ^ 64 ->
  x + y = u64 (x + y) + 2 ^ 64 * (if u64 (x + y) <? x then 1 else 0).
Proof.
  intros Hx Hy. unfold u64.
  destruct (Z_lt_ge_dec (x + y) (2 ^ 64)) as [Hs|Hs].
  - rewrite Z.mod_small by lia.
    destruct (Z.ltb_spec (x + y) x); lia.
  - replace (x + y) with ((x + y - 2 ^ 64) + 1 * 2 ^ 64) at 2 3 by ring.
    rewrite Z.mod_add by lia. rewrite Z.mod_small by lia.
    destruct (Z.ltb_spec (x + y - 2 ^ 64) x); lia.
Qed.

Lemma mul32_range x y :
  0 <= x < 2 ^ 32 -> 0 <= y < 2 ^ 32 -> 0 <= x * y <= (2 ^ 32 - 1) * (2 ^ 32 - 1).
Proof. intros. split; [nia|]. apply Z.mul_le_mono_nonneg; lia. Qed.

Lemma compute_fee_product (p : tx_parsed_t) :
  0 <= gas_price p < 2 ^ 64 -> 0 <= gas_limit p < 2 ^ 64 ->
  let q := tx_parser_compute_fee p in
  fee_high q * 2 ^ 64 + fee_low q = gas_price p * gas_limit p
  /\ 0 <= fee_low q < 2 ^ 64 /\ 0 <= fee_high q < 2 ^ 64.
Proof.
  intros Ha Hb. cbv zeta.
  unfold tx_parser_compute_fee, set_fee; cbn [fee_high fee_low].
  set (a := gas_price p) in *. set (b := gas_limit p) in *.
  rewrite !Z.shiftr_div_pow2, !Z.shiftl_mul_pow2 by lia.
  set (al := u32 a). set (ah := u32 (a / 2 ^ 32)).
  set (bl := u32 b). set (bh := u32 (b / 2 ^ 32)).
  assert (Hal : 0 <= al < 2 ^ 32) by (apply Z.mod_pos_bound; lia).
  assert (Hbl : 0 <= bl < 2 ^ 32) by (apply Z.mod_pos_bound; lia).
  assert (Hah : 0 <= ah < 2 ^ 32) by (apply Z.mod_pos_bound; lia).
  assert (Hbh : 0 <= bh < 2 ^ 32) by (apply Z.mod_pos_bound; lia).
  assert (Ea : a = ah * 2 ^ 32 + al).
  { subst ah al. unfold u32. rewrite (Z.mod_small (a / 2 ^ 32)).
    - rewrite Z.mul_comm. apply Z.div_mod. lia.
    - split; [apply Z.div_pos; lia|]. apply Z.div_lt_upper_bound; lia. }
  assert (Eb : b = bh * 2 ^ 32 + bl).
  { subst bh bl. unfold u32. rewrite (Z.mod_small (b / 2 ^ 32)).
    - rewrite Z.mul_comm. apply Z.div_mod. lia.
    - split; [apply Z.div_pos; lia|]. apply Z.div_lt_upper_bound; lia. }
  pose proof (mul32_range al bl Hal Hbl) as Rll.
  pose proof (mul32_range al bh Hal Hbh) as Rlh.
  pose proof (mul32_range ah bl Hah Hbl) as Rhl.
  pose proof (mul32_range ah bh Hah Hbh) as Rhh.
  rewrite (u64_small (al * bl)), (u64_small (al * bh)),
          (u64_small (ah * bl)), (u64_small (ah * bh)) by lia.
  set (ll := al * bl) in *. set (lh := al * bh) in *.
  set (hl := ah * bl) in *. set (hh := ah * bh) in *.
  pose proof (u64_add_carry lh hl ltac:(lia) ltac:(lia)) as Hmid.
  pose proof (u64_range (lh + hl)) as Rmid.
  set (mid := u64 (lh + hl)) in *.
  set (cm := if mid <? lh then 1 else 0) in *.
  assert (Hcm : cm = 0 \/ cm = 1) by (subst cm; destruct (mid <? lh); auto).
  (* mid = mh * 2^32 + ml *)
  pose proof (Z.div_mod mid (2 ^ 32) ltac:(lia)) as Emid.
  pose proof (Z.mod_pos_bound mid (2 ^ 32) ltac:(lia)) as Rml.
  set (mh := mid / 2 ^ 32) in *. set (ml := mid mod 2 ^ 32) in *.
  assert (Rmh : 0 <= mh < 2 ^ 32).
  { subst mh. split; [apply Z.div_pos; lia|]. apply Z.div_lt_upper_bound; lia. }
  assert (Esh : u64 (mid * 2 ^ 32) = ml * 2 ^ 32).
  { unfold u64. rewrite Emid.
    replace ((2 ^ 32 * mh + ml) * 2 ^ 32) with (ml * 2 ^ 32 + mh * 2 ^ 64) by ring.
    rewrite Z.mod_add by lia. apply Z.mod_small. lia. }
  rewrite Esh.
  pose proof (u64_add_carry ll (ml * 2 ^ 32) ltac:(lia) ltac:(lia)) as Hlo.
  pose proof (u64_range (ll + ml * 2 ^ 32)) as Rlo.
  set (rlo := u64 (ll + ml * 2 ^ 32)) in *.
  set (ch := if rlo <? ll then 1 else 0) in *.
  assert (Hch : ch = 0 \/ ch = 1) by (subst ch; destruct (rlo <? ll); auto).
  assert (Ecm : u64 (cm * 2 ^ 32) = cm * 2 ^ 32) by (apply u64_small; lia).
  rewrite Ecm.
  assert (Eprod : (hh + mh + cm * 2 ^ 32 + ch) * 2 ^ 64 + rlo = a * b).
  { rewrite Ea, Eb. subst ll lh hl hh. nia. }
  assert (Rhi : 0 <= hh + mh + cm * 2 ^ 32 + ch < 2 ^ 64).
  { split; [lia|].
    assert (a * b < 2 ^ 64 * 2 ^ 64) by (apply Z.mul_lt_mono_nonneg; lia).
    nia. }
  rewrite (u64_small _ Rhi). repeat split; lia.
Qed.

(** C4. For unsigned 64-bit [gas_price] and [gas_limit],
    [tx_parser_compute_fee] stores the exact 128-bit product: [fee_low] is
    its low 64 bits, [fee_high] its high 64 bits, and [fee_overflow] is set
    if and only if [fee_high] is not zero. *)
Theorem compute_fee_exact (p : tx_parsed_t) :
  0 <= gas_price p < 2 ^ 64 -> 0 <= gas_limit p < 2 ^ 64 ->
  let q := tx_parser_compute_fee p in
  fee_high q * 2 ^ 64 + fee_low q = gas_price p * gas_limit p
  /\ fee_low q = (gas_price p * gas_limit p) mod 2 ^ 64
  /\ fee_high q = (gas_price p * gas_limit p) / 2 ^ 64
  /\ (fee_overflow q = true <-> fee_high q <> 0).
Proof.
  intros Ha Hb q.
  destruct (compute_fee_product p Ha Hb) as (E & Rlo & Rhi). fold q in E, Rlo, Rhi.
  split; [exact E|]. rewrite <- E. split; [|split].
  - rewrite Z.add_comm, Z.mod_add by lia. symmetry. apply Z.mod_small. exact Rlo.
  - rewrite Z.div_add_l by lia. rewrite Z.div_small by lia. lia.
  - subst q. unfold tx_parser_compute_fee, set_fee. cbn [fee_overflow fee_high].
    rewrite negb_true_iff. apply Z.eqb_neq.
Qed.

Lemma compute_fee_exact_witness :
  (0 <= gas_price fee_s1 < 2 ^ 64) /\ (0 <= gas_limit fee_s1 < 2 ^ 64) /\
  fee_low (tx_parser_compute_fee fee_s1) = 21000000 /\
  fee_high (tx_parser_compute_fee fee_s1) = 0.
Proof.
  assert (Ha : 0 <= gas_price fee_s1 < 2 ^ 64) by (cbn; lia).
  assert (Hb : 0 <= gas_limit fee_s1 < 2 ^ 64) by (cbn; lia).
  destruct (compute_fee_exact fee_s1 Ha Hb) as (_ & Hlo & Hhi & _).
  split; [exact Ha|]. split; [exact Hb|]. split.
  - rewrite Hlo. reflexivity.
  - rewrite Hhi. reflexivity.
Defined.

(** ** The streaming parser *)

Lemma memcpy_at_length {A} (dst : list A) off src :
  (off + length src <= length dst)%nat ->
  length (memcpy_at dst off src) = length dst.
Proof.
  intros H. unfold memcpy_at.
  rewrite !length_app, length_firstn, length_skipn. lia.
Qed.

Lemma memcpy_at_cons {A} (dst : list A) off b tl :
  (off <= length dst)%nat ->
  memcpy_at (memcpy_at dst off [b]) (S off) tl = memcpy_at dst off (b :: tl).
Proof.
  intros H. unfold memcpy_at. cbn [length app].
  assert (L : length (firstn off dst) = off) by (rewrite length_firstn; lia).
  replace (firstn (S off) (firstn off dst ++ b :: skipn (off + 1) dst))
    with (firstn off dst ++ [b]).
  2:{ rewrite firstn_app, L. replace (S off - off)%nat with 1%nat by lia.
      rewrite (firstn_all2 (n := S off) (firstn off dst)) by lia. reflexivity. }
  replace (skipn (S off + length tl) (firstn off dst ++ b :: skipn (off + 1) dst))
    with (skipn (off + S (length tl)) dst).
  2:{ rewrite skipn_app, L.
      rewrite (skipn_all2 (firstn off dst)) by lia.
      replace (S off + length tl - off)%nat with (S (length tl)) by lia.
      cbn [app skipn]. rewrite skipn_skipn. f_equal. lia. }
  rewrite <- app_assoc. reflexivity.
Qed.

Ltac field_sizes :=
  cbv [get_field_size FIELD_SIZE_VERSION FIELD_SIZE_CHAIN_ID FIELD_SIZE_SENDER
       FIELD_SIZE_NONCE FIELD_SIZE_GAS_PRICE FIELD_SIZE_GAS_LIMIT
       FIELD_SIZE_TX_TYPE FIELD_SIZE_RECIPIENT FIELD_SIZE_AMOUNT] in *.

Lemma get_field_size_range s :
  get_field_size s = 0 \/ 1 <= get_field_size s <= 20.
Proof. destruct s; field_sizes; lia. Qed.

Lemma terminal_field_size s : is_terminal s = true -> get_field_size s = 0.
Proof. destruct s; cbn; congruence. Qed.

(** The loop unfolded once. *)
Lemma consume_loop_S fuel ctx b tl n :
  consume_loop (S fuel) ctx (b :: tl) n =
    if is_terminal (state ctx) then (ctx, n)
    else if total_consumed ctx >=? MAX_TX_SIZE
    then (set_state TX_PARSE_STATE_ERROR ctx, n)
    else if get_field_size (state ctx) =? 0
    then (set_state TX_PARSE_STATE_ERROR ctx, n)
    else consume_loop (S fuel) ctx (b :: tl) n.
Proof.
  cbn [consume_loop].
  destruct (is_terminal (state ctx)); [reflexivity|].
  destruct (total_consumed ctx >=? MAX_TX_SIZE); [reflexivity|].
  destruct (get_field_size (state ctx) =? 0); reflexivity.
Qed.

(** One iteration of the loop on a context that satisfies the invariant:
    it takes [k = min(available, needed)] bytes, at least one. *)
Lemma consume_loop_step fuel ctx b tl n :
  parser_inv ctx ->
  total_consumed ctx < MAX_TX_SIZE ->
  get_field_size (state ctx) <> 0 ->
  let fs := get_field_size (state ctx) in
  let k := Z.min (Z.of_nat (length (b :: tl))) (fs - field_offset ctx) in
  let c1 := absorbed ctx (firstn (Z.to_nat k) (b :: tl)) in
  consume_loop (S fuel) ctx (b :: tl) n =
    if field_offset ctx + k >=? fs then
      match process_complete_field c1 with
      | (false, c2) => (set_state TX_PARSE_STATE_ERROR c2, n + k)
      | (true, c2) => consume_loop fuel c2 (skipn (Z.to_nat k) (b :: tl)) (n + k)
      end
    else consume_loop fuel c1 (skipn (Z.to_nat k) (b :: tl)) (n + k).
Proof.
  intros (Hlen & Htot & Hoff) Hmax Hfs fs k c1.
  specialize (Hoff Hfs). fold fs in Hoff.
  destruct (get_field_size_range (state ctx)) as [E|Hr]; [contradiction|].
  fold fs in Hr.
  assert (Hterm : is_terminal (state ctx) = false).
  { destruct (is_terminal (state ctx)) eqn:E; [|reflexivity].
    apply terminal_field_size in E. contradiction. }
  cbn [consume_loop]. rewrite Hterm.
  destruct (Z.geb_spec (total_consumed ctx) MAX_TX_SIZE) as [?|_]; [lia|].
  fold fs. destruct (Z.eqb_spec fs 0) as [?|_]; [lia|].
  assert (En : usize (fs - field_offset ctx) = fs - field_offset ctx).
  { unfold usize. apply Z.mod_small. lia. }
  rewrite En.
  set (available := Z.of_nat (length (b :: tl))).
  assert (Hav : 1 <= available) by (subst available; cbn [length]; lia).
  assert (Ek : (if available <? fs - field_offset ctx then available
                else fs - field_offset ctx) = k).
  { subst k. fold available.
    destruct (Z.ltb_spec available (fs - field_offset ctx)); lia. }
  rewrite Ek.
  assert (Hk : 1 <= k <= fs - field_offset ctx /\ k <= available).
  { subst k. fold available. lia. }
  destruct (Z.gtb_spec (field_offset ctx + k) 32) as [?|_]; [lia|].
  assert (Ec1 : mk_parser (state ctx) (u8 (field_offset ctx + u8 k))
                  (memcpy_at (scratch ctx) (Z.to_nat (field_offset ctx))
                             (firstn (Z.to_nat k) (b :: tl)))
                  (parsed ctx) (total_consumed ctx + k) = c1).
  { subst c1. unfold absorbed.
    rewrite length_firstn, Nat.min_l by (subst available; lia).
    rewrite Z2Nat.id by lia.
    unfold u8. rewrite (Z.mod_small k) by lia. rewrite Z.mod_small by lia.
    reflexivity. }
  rewrite Ec1.
  replace (field_offset c1) with (field_offset ctx + k).
  2:{ subst c1. unfold absorbed. cbn [field_offset].
      rewrite length_firstn, Nat.min_l by (subst available; lia).
      rewrite Z2Nat.id by lia. reflexivity. }
  reflexivity.
Qed.

Lemma feed_terminal ctx b : is_terminal (state ctx) = true -> feed ctx b = ctx.
Proof. intros H. unfold feed, tx_parser_consume. rewrite H. reflexivity. Qed.

Lemma fold_feed_terminal l ctx :
  is_terminal (state ctx) = true -> fold_left feed l ctx = ctx.
Proof.
  induction l as [|b l IH]; intros H; cbn [fold_left]; [reflexivity|].
  rewrite feed_terminal by exact H. apply IH, H.
Qed.

(** The effect of a single byte. *)
Lemma feed_unfold ctx b :
  parser_inv ctx -> is_terminal (state ctx) = false ->
  feed ctx b =
    if total_consumed ctx >=? MAX_TX_SIZE then set_state TX_PARSE_STATE_ERROR ctx
    else if get_field_size (state ctx) =? 0 then set_state TX_PARSE_STATE_ERROR ctx
    else
      let c1 := absorbed ctx [b] in
      if field_offset c1 >=? get_field_size (state ctx) then completed c1 else c1.
Proof.
  intros Hinv Hterm.
  destruct (Z.geb_spec (total_consumed ctx) MAX_TX_SIZE) as [Hmax|Hmax].
  { unfold feed, tx_parser_consume. rewrite Hterm.
    change (length [b] + 10)%nat with (S 10). rewrite consume_loop_S, Hterm.
    destruct (Z.geb_spec (total_consumed ctx) MAX_TX_SIZE); [|lia].
    reflexivity. }
  destruct (Z.eqb_spec (get_field_size (state ctx)) 0) as [Hfs|Hfs].
  { unfold feed, tx_parser_consume. rewrite Hterm.
    change (length [b] + 10)%nat with (S 10). rewrite consume_loop_S, Hterm.
    destruct (Z.geb_spec (total_consumed ctx) MAX_TX_SIZE); [lia|].
    rewrite Hfs. reflexivity. }
  unfold feed, tx_parser_consume. rewrite Hterm.
  change (length [b] + 10)%nat with (S 10).
  rewrite (consume_loop_step _ ctx b [] 0 Hinv Hmax Hfs).
  destruct Hinv as (_ & _ & Hoff). specialize (Hoff Hfs).
  cbn [length Z.of_nat Pos.of_succ_nat].
  rewrite Z.min_l by lia.
  change (Z.to_nat 1) with 1%nat. cbn [firstn skipn].
  cbv zeta. unfold completed.
  replace (field_offset (absorbed ctx [b])) with (field_offset ctx + 1)
    by reflexivity.
  destruct (field_offset ctx + 1 >=? get_field_size (state ctx)).
  - destruct (process_complete_field (absorbed ctx [b])) as [[|] c2]; reflexivity.
  - reflexivity.
Qed.

Lemma completed_inv c :
  length (scratch c) = 32%nat -> 0 <= total_consumed c ->
  parser_inv (completed c) /\ total_consumed (completed c) = total_consumed c.
Proof.
  intros Hlen Htot. unfold completed, process_complete_field, parser_inv.
  destruct c as [s off scr p tot]. cbn [state scratch total_consumed parsed] in *.
  destruct s; cbn; field_sizes; try (repeat split; try assumption; lia).
  - destruct (buf_at scr 0 =? 1); cbn; field_sizes;
      repeat split; try assumption; lia.
  - destruct (buf_at scr 0 =? TX_TYPE_TRANSFER); cbn; field_sizes;
      repeat split; try assumption; lia.
Qed.

Lemma absorbed_inv ctx chunk :
  parser_inv ctx -> get_field_size (state ctx) <> 0 ->
  field_offset ctx + Z.of_nat (length chunk) <= get_field_size (state ctx) ->
  length (scratch (absorbed ctx chunk)) = 32%nat /\
  0 <= total_consumed (absorbed ctx chunk).
Proof.
  intros (Hlen & Htot & Hoff) Hfs Hk. specialize (Hoff Hfs).
  destruct (get_field_size_range (state ctx)) as [?|Hr]; [contradiction|].
  unfold absorbed. cbn [scratch total_consumed]. split; [|lia].
  rewrite memcpy_at_length; [exact Hlen|]. lia.
Qed.

(** Bytes that stay inside the current field, given one at a time, have the
    effect of one [memcpy] of them all. *)
Lemma fold_feed_field chunk : forall ctx,
  parser_inv ctx -> get_field_size (state ctx) <> 0 ->
  chunk <> [] ->
  field_offset ctx + Z.of_nat (length chunk) <= get_field_size (state ctx) ->
  total_consumed ctx + Z.of_nat (length chunk) <= MAX_TX_SIZE ->
  fold_left feed chunk ctx =
    if field_offset ctx + Z.of_nat (length chunk) >=? get_field_size (state ctx)
    then completed (absorbed ctx chunk) else absorbed ctx chunk.
Proof.
  induction chunk as [|b tl IH]; intros ctx Hinv Hfs Hne Hk Hmax; [congruence|].
  assert (Hterm : is_terminal (state ctx) = false).
  { destruct (is_terminal (state ctx)) eqn:E; [|reflexivity].
    apply terminal_field_size in E. contradiction. }
  cbn [fold_left]. rewrite (feed_unfold _ _ Hinv Hterm).
  cbn [length] in Hk, Hmax. rewrite Nat2Z.inj_succ in Hk, Hmax.
  destruct (Z.geb_spec (total_consumed ctx) MAX_TX_SIZE) as [?|_]; [lia|].
  destruct (Z.eqb_spec (get_field_size (state ctx)) 0) as [?|_]; [contradiction|].
  cbv zeta.
  replace (field_offset (absorbed ctx [b])) with (field_offset ctx + 1)
    by reflexivity.
  destruct tl as [|b' tl'].
  - cbn [fold_left length]. reflexivity.
  - set (tl := b' :: tl') in *.
    assert (Hl : 1 <= Z.of_nat (length tl)) by (subst tl; cbn [length]; lia).
    destruct (Z.geb_spec (field_offset ctx + 1) (get_field_size (state ctx)));
      [lia|].
    pose proof Hinv as (Hlen & Htot & Hoff). specialize (Hoff Hfs).
    destruct (get_field_size_range (state ctx)) as [?|Hr]; [contradiction|].
    assert (Hinv1 : parser_inv (absorbed ctx [b])).
    { destruct (absorbed_inv ctx [b] Hinv Hfs) as (L1 & T1);
        [cbn [length]; lia|].
      split; [exact L1|]. split; [exact T1|].
      intros _. unfold absorbed. cbn [state field_offset length]. lia. }
    rewrite IH; try assumption.
    + assert (Eabs : absorbed (absorbed ctx [b]) tl = absorbed ctx (b :: tl)).
      { unfold absorbed. cbn [state field_offset scratch parsed total_consumed].
        cbn [length]. rewrite !Nat2Z.inj_succ. cbn [Z.of_nat].
        f_equal; try lia.
        replace (Z.to_nat (field_offset ctx + Z.succ 0))
          with (S (Z.to_nat (field_offset ctx))) by lia.
        apply memcpy_at_cons. lia. }
      rewrite Eabs.
      change (field_offset (absorbed ctx [b])) with (field_offset ctx + 1).
      change (state (absorbed ctx [b])) with (state ctx).
      replace (field_offset ctx + 1 + Z.of_nat (length tl))
        with (field_offset ctx + Z.of_nat (length (b :: tl)))
        by (cbn [length]; lia).
      reflexivity.
    + subst tl. discriminate.
    + unfold absorbed. cbn [state field_offset length]. lia.
    + unfold absorbed. cbn [total_consumed length]. lia.
Qed.

(** The loop absorbs its input as if it were given byte by byte; the fuel
    is enough as soon as it covers the bytes that are left. *)
Lemma consume_loop_feed fuel : forall ctx rest n,
  parser_inv ctx ->
  total_consumed ctx + Z.of_nat (length rest) <= MAX_TX_SIZE ->
  (length rest <= fuel)%nat ->
  fst (consume_loop fuel ctx rest n) = fold_left feed rest ctx.
Proof.
  induction fuel as [|fuel IH]; intros ctx rest n Hinv Hmax Hfuel.
  { destruct rest; [reflexivity|cbn [length] in Hfuel; lia]. }
  destruct rest as [|b tl]; [reflexivity|].
  destruct (is_terminal (state ctx)) eqn:Hterm.
  { rewrite consume_loop_S, Hterm. cbn [fst].
    symmetry. apply fold_feed_terminal, Hterm. }
  assert (Hlt : total_consumed ctx < MAX_TX_SIZE) by (cbn [length] in Hmax; lia).
  destruct (Z.eq_dec (get_field_size (state ctx)) 0) as [Hfs|Hfs].
  { rewrite consume_loop_S, Hterm. cbn [fold_left].
    rewrite (feed_unfold _ _ Hinv Hterm).
    destruct (Z.geb_spec (total_consumed ctx) MAX_TX_SIZE); [lia|].
    rewrite Hfs. cbn [Z.eqb fst].
    symmetry. apply fold_feed_terminal. reflexivity. }
  rewrite (consume_loop_step fuel ctx b tl n Hinv Hlt Hfs). cbv zeta.
  pose proof Hinv as (Hlen & Htot & Hoff). specialize (Hoff Hfs).
  set (fs := get_field_size (state ctx)) in *.
  set (rest := b :: tl) in *.
  set (k := Z.min (Z.of_nat (length rest)) (fs - field_offset ctx)).
  assert (Hav : 1 <= Z.of_nat (length rest)) by (subst rest; cbn [length]; lia).
  assert (Hk : 1 <= k <= fs - field_offset ctx /\ k <= Z.of_nat (length rest))
    by (subst k; lia).
  set (chunk := firstn (Z.to_nat k) rest).
  assert (Lchunk : Z.of_nat (length chunk) = k).
  { subst chunk. rewrite length_firstn, Nat.min_l by lia. lia. }
  assert (Lrest : Z.of_nat (length (skipn (Z.to_nat k) rest))
                  = Z.of_nat (length rest) - k).
  { rewrite length_skipn. lia. }
  replace (fold_left feed rest ctx)
    with (fold_left feed (chunk ++ skipn (Z.to_nat k) rest) ctx)
    by (subst chunk; rewrite firstn_skipn; reflexivity).
  rewrite fold_left_app.
  rewrite (fold_feed_field chunk ctx Hinv Hfs); fold fs; try lia.
  2:{ intros E. rewrite E in Lchunk. cbn in Lchunk. lia. }
  rewrite Lchunk.
  destruct (absorbed_inv ctx chunk Hinv Hfs) as (L1 & T1); [fold fs; lia|].
  assert (Tc : total_consumed (absorbed ctx chunk) = total_consumed ctx + k).
  { unfold absorbed. cbn [total_consumed]. lia. }
  destruct (field_offset ctx + k >=? fs) eqn:Hge.
  - destruct (completed_inv _ L1 T1) as (Hinv2 & Tot2).
    unfold completed in *.
    destruct (process_complete_field (absorbed ctx chunk)) as [[|] c2].
    + apply IH; [exact Hinv2| |lia]. rewrite Tot2, Tc, Lrest. lia.
    + cbn [fst]. symmetry. apply fold_feed_terminal. reflexivity.
  - apply IH; [|rewrite Tc, Lrest; lia|lia].
    split; [exact L1|]. split; [exact T1|]. intros _.
    unfold absorbed. cbn [state field_offset]. fold fs.
    rewrite Lchunk. destruct (Z.geb_spec (field_offset ctx + k) fs); [discriminate|lia].
Qed.

Lemma consume_feed ctx data :
  parser_inv ctx ->
  total_consumed ctx + Z.of_nat (length data) <= MAX_TX_SIZE ->
  fst (tx_parser_consume ctx data) = fold_left feed data ctx.
Proof.
  intros Hinv Hmax. unfold tx_parser_consume.
  destruct (is_terminal (state ctx)) eqn:Hterm.
  - symmetry. apply fold_feed_terminal, Hterm.
  - apply consume_loop_feed; [assumption..|lia].
Qed.

(** The fuel of [tx_parser_consume] is never used up: on a context that
    satisfies the invariant every iteration takes at least one byte, so
    fuel beyond the number of bytes left changes nothing. *)
Lemma consume_loop_more_fuel fuel : forall ctx rest n,
  parser_inv ctx -> (length rest <= fuel)%nat ->
  consume_loop (S fuel) ctx rest n = consume_loop fuel ctx rest n.
Proof.
  induction fuel as [|fuel IH]; intros ctx rest n Hinv Hfuel.
  { destruct rest; [reflexivity|cbn [length] in Hfuel; lia]. }
  destruct rest as [|b tl]; [reflexivity|].
  rewrite (consume_loop_S (S fuel)), (consume_loop_S fuel).
  destruct (is_terminal (state ctx)); [reflexivity|].
  destruct (Z.geb_spec (total_consumed ctx) MAX_TX_SIZE) as [|Hlt]; [reflexivity|].
  destruct (Z.eqb_spec (get_field_size (state ctx)) 0) as [|Hfs]; [reflexivity|].
  rewrite (consume_loop_step (S fuel) ctx b tl n Hinv Hlt Hfs).
  rewrite (consume_loop_step fuel ctx b tl n Hinv Hlt Hfs). cbv zeta.
  pose proof Hinv as (Hlen & Htot & Hoff). specialize (Hoff Hfs).
  set (fs := get_field_size (state ctx)) in *.
  set (rest := b :: tl) in *.
  set (k := Z.min (Z.of_nat (length rest)) (fs - field_offset ctx)).
  assert (Hav : 1 <= Z.of_nat (length rest)) by (subst rest; cbn [length]; lia).
  assert (Hk : 1 <= k <= fs - field_offset ctx /\ k <= Z.of_nat (length rest))
    by (subst k; lia).
  set (chunk := firstn (Z.to_nat k) rest).
  assert (Lchunk : Z.of_nat (length chunk) = k).
  { subst chunk. rewrite length_firstn, Nat.min_l by lia. lia. }
  assert (Lrest : (length (skipn (Z.to_nat k) rest) <= fuel)%nat).
  { rewrite length_skipn. lia. }
  destruct (absorbed_inv ctx chunk Hinv Hfs) as (L1 & T1); [fold fs; lia|].
  destruct (field_offset ctx + k >=? fs) eqn:Hge.
  - destruct (completed_inv _ L1 T1) as (Hinv2 & _). unfold completed in Hinv2.
    destruct (process_complete_field (absorbed ctx chunk)) as [[|] c2];
      [|reflexivity].
    apply IH; assumption.
  - apply IH; [|exact Lrest].
    split; [exact L1|]. split; [exact T1|]. intros _.
    unfold absorbed. cbn [state field_offset]. fold fs. rewrite Lchunk.
    destruct (Z.geb_spec (field_offset ctx + k) fs); [discriminate|lia].
Qed.

Lemma consume_loop_fuel ctx rest n extra :
  parser_inv ctx ->
  consume_loop (length rest + extra) ctx rest n
  = consume_loop (length rest) ctx rest n.
Proof.
  intros Hinv. induction extra as [|extra IH].
  - rewrite Nat.add_0_r. reflexivity.
  - rewrite Nat.add_succ_r, consume_loop_more_fuel by (assumption || lia).
    exact IH.
Qed.

Lemma feed_inv ctx b :
  parser_inv ctx ->
  parser_inv (feed ctx b) /\ total_consumed (feed ctx b) <= total_consumed ctx + 1.
Proof.
  intros Hinv.
  destruct (is_terminal (state ctx)) eqn:Hterm.
  { rewrite feed_terminal by exact Hterm. split; [exact Hinv|lia]. }
  rewrite (feed_unfold _ _ Hinv Hterm).
  pose proof Hinv as (Hlen & Htot & Hoff).
  assert (Herr : parser_inv (set_state TX_PARSE_STATE_ERROR ctx)).
  { split; [exact Hlen|]. split; [exact Htot|]. cbn. congruence. }
  destruct (total_consumed ctx >=? MAX_TX_SIZE); [split; [exact Herr|cbn; lia]|].
  destruct (Z.eqb_spec (get_field_size (state ctx)) 0) as [Hfs|Hfs];
    [split; [exact Herr|cbn; lia]|].
  specialize (Hoff Hfs). cbv zeta.
  destruct (absorbed_inv ctx [b] Hinv Hfs) as (L1 & T1); [cbn [length]; lia|].
  assert (Tc : total_consumed (absorbed ctx [b]) = total_consumed ctx + 1)
    by reflexivity.
  destruct (Z.geb_spec (field_offset (absorbed ctx [b])) (get_field_size (state ctx)))
    as [Hge|Hlt].
  - destruct (completed_inv _ L1 T1) as (Hinv2 & Tot2). split; [exact Hinv2|lia].
  - split; [|lia]. split; [exact L1|]. split; [exact T1|]. intros _.
    change (field_offset (absorbed ctx [b])) with (field_offset ctx + 1) in *.
    change (state (absorbed ctx [b])) with (state ctx). lia.
Qed.

Lemma fold_feed_inv l : forall ctx,
  parser_inv ctx ->
  parser_inv (fold_left feed l ctx) /\
  total_consumed (fold_left feed l ctx) <= total_consumed ctx + Z.of_nat (length l).
Proof.
  induction l as [|b l IH]; intros ctx Hinv; cbn [fold_left length].
  - split; [exact Hinv|lia].
  - destruct (feed_inv ctx b Hinv) as (H1 & H2).
    destruct (IH _ H1) as (H3 & H4). split; [exact H3|lia].
Qed.

Lemma tx_parser_init_inv : parser_inv tx_parser_init.
Proof. repeat split; cbn; field_sizes; lia. Qed.

(** Chunk independence: under the size cap, any sequence of calls has the
    effect of a single call on the concatenated input. *)
Lemma consume_chunks_concat chunks : forall ctx,
  parser_inv ctx ->
  total_consumed ctx + Z.of_nat (length (concat chunks)) <= MAX_TX_SIZE ->
  consume_chunks ctx chunks = fst (tx_parser_consume ctx (concat chunks)).
Proof.
  intros ctx Hinv Hmax. rewrite consume_feed by assumption.
  revert ctx Hinv Hmax.
  induction chunks as [|c chunks IH]; intros ctx Hinv Hmax; [reflexivity|].
  cbn [concat] in *. rewrite length_app, Nat2Z.inj_add in Hmax.
  unfold consume_chunks in *. cbn [fold_left].
  rewrite fold_left_app, consume_feed by (assumption || lia).
  destruct (fold_feed_inv c ctx Hinv) as (H1 & H2).
  apply IH; [exact H1|lia].
Qed.

Lemma lor_shift_add x y k :
  0 <= k -> 0 <= x < 2 ^ k -> 0 <= y -> Z.lor x (y * 2 ^ k) = x + y * 2 ^ k.
Proof.
  intros Hk Hx Hy.
  assert (Hland : Z.land x (y * 2 ^ k) = 0).
  { apply Z.bits_inj'. intros n Hn. rewrite Z.land_spec, Z.bits_0.
    destruct (Z_lt_ge_dec n k) as [Hlt|Hge].
    - rewrite <- Z.shiftl_mul_pow2 by lia.
      rewrite Z.shiftl_spec_low by lia. apply andb_false_r.
    - destruct (Z.eq_dec x 0) as [->|Hnz]; [rewrite Z.bits_0; reflexivity|].
      rewrite (Z.bits_above_log2 x n); [reflexivity|lia|].
      apply Z.log2_lt_pow2; [lia|].
      apply Z.lt_le_trans with (2 ^ k); [lia|].
      apply Z.pow_le_mono_r; lia. }
  rewrite <- Z.lxor_lor by exact Hland.
  symmetry. apply Z.add_nocarry_lxor. exact Hland.
Qed.

Lemma read_u64_le_value b0 b1 b2 b3 b4 b5 b6 b7 tail :
  byte_ok b0 -> byte_ok b1 -> byte_ok b2 -> byte_ok b3 ->
  byte_ok b4 -> byte_ok b5 -> byte_ok b6 -> byte_ok b7 ->
  read_u64_le (b0 :: b1 :: b2 :: b3 :: b4 :: b5 :: b6 :: b7 :: tail)
  = le_value [b0; b1; b2; b3; b4; b5; b6; b7].
Proof.
  unfold byte_ok. intros H0 H1 H2 H3 H4 H5 H6 H7.
  unfold read_u64_le, buf_at, le_value. cbn [nth fold_right].
  rewrite !Z.shiftl_mul_pow2 by lia.
  rewrite !u64_small by lia.
  rewrite (lor_shift_add (b6 * 2 ^ 48) b7 56) by lia.
  set (s6 := b6 + b7 * 2 ^ 8).
  replace (b6 * 2 ^ 48 + b7 * 2 ^ 56) with (s6 * 2 ^ 48) by (subst s6; ring).
  assert (R6 : 0 <= s6 < 2 ^ 16) by (subst s6; lia).
  rewrite (lor_shift_add (b5 * 2 ^ 40) s6 48) by lia.
  set (s5 := b5 + s6 * 2 ^ 8).
  replace (b5 * 2 ^ 40 + s6 * 2 ^ 48) with (s5 * 2 ^ 40) by (subst s5; ring).
  assert (R5 : 0 <= s5 < 2 ^ 24) by (subst s5; lia).
  rewrite (lor_shift_add (b4 * 2 ^ 32) s5 40) by lia.
  set (s4 := b4 + s5 * 2 ^ 8).
  replace (b4 * 2 ^ 32 + s5 * 2 ^ 40) with (s4 * 2 ^ 32) by (subst s4; ring).
  assert (R4 : 0 <= s4 < 2 ^ 32) by (subst s4; lia).
  rewrite (lor_shift_add (b3 * 2 ^ 24) s4 32) by lia.
  set (s3 := b3 + s4 * 2 ^ 8).
  replace (b3 * 2 ^ 24 + s4 * 2 ^ 32) with (s3 * 2 ^ 24) by (subst s3; ring).
  assert (R3 : 0 <= s3 < 2 ^ 40) by (subst s3; lia).
  rewrite (lor_shift_add (b2 * 2 ^ 16) s3 24) by lia.
  set (s2 := b2 + s3 * 2 ^ 8).
  replace (b2 * 2 ^ 16 + s3 * 2 ^ 24) with (s2 * 2 ^ 16) by (subst s2; ring).
  assert (R2 : 0 <= s2 < 2 ^ 48) by (subst s2; lia).
  rewrite (lor_shift_add (b1 * 2 ^ 8) s2 16) by lia.
  set (s1 := b1 + s2 * 2 ^ 8).
  replace (b1 * 2 ^ 8 + s2 * 2 ^ 16) with (s1 * 2 ^ 8) by (subst s1; ring).
  assert (R1 : 0 <= s1 < 2 ^ 56) by (subst s1; lia).
  rewrite (lor_shift_add b0 s1 8) by lia.
  subst s1 s2 s3 s4 s5 s6. ring.
Qed.

(** A list of known length is the list of its elements. *)
Ltac explode_list l :=
  repeat match goal with
  | H : length l = S _ |- _ =>
      let b := fresh "b" in
      destruct l as [|b l]; [discriminate H|];
      cbn [length] in H; apply Nat.succ_inj in H
  | H : length l = O |- _ =>
      destruct l; [clear H|discriminate H]
  end.

Ltac explode_forall :=
  repeat match goal with
  | H : Forall _ (_ :: _) |- _ => inversion H; clear H; subst
  | H : Forall _ [] |- _ => clear H
  end.

(** C5. A well-formed 82-byte Transfer (version byte 1, tx_type byte 0) fed
    in one call to a freshly initialised parser is absorbed whole, leaves
    the parser in the done state, and [tx_parser_get_parsed] returns the
    fields that are on the wire, the integers decoded little-endian. *)
Theorem parse_transfer_exact (data : list Z) :
  valid_transfer data ->
  let r := tx_parser_consume tx_parser_init data in
  let p := tx_parser_get_parsed (fst r) in
  snd r = 82 /\
  tx_parser_is_done (fst r) = true /\
  tx_parser_has_error (fst r) = false /\
  version p = 1 /\
  chain_id p = le_value (wire_field data OFF_CHAIN_ID 8) /\
  sender p = wire_field data OFF_SENDER 20 /\
  nonce p = le_value (wire_field data OFF_NONCE 8) /\
  gas_price p = le_value (wire_field data OFF_GAS_PRICE 8) /\
  gas_limit p = le_value (wire_field data OFF_GAS_LIMIT 8) /\
  tx_type p = TX_TYPE_TRANSFER /\
  recipient p = wire_field data OFF_RECIPIENT 20 /\
  amount p = le_value (wire_field data OFF_AMOUNT 8).
Proof.
  intros (Hlen & Hbytes & Hver & Hty). unfold TRANSFER_LEN in Hlen.
  explode_list data.
  cbn [nth OFF_VERSION OFF_TX_TYPE] in Hver, Hty. subst.
  unfold bytes_ok in Hbytes. explode_forall.
  cbv zeta.
  match goal with
  | |- context [tx_parser_consume ?c ?d] =>
      let t := eval cbv -[read_u64_le tx_parser_compute_fee] in
               (tx_parser_consume c d) in
      change (tx_parser_consume c d) with t
  end.
  unfold tx_parser_get_parsed, tx_parser_is_done, tx_parser_has_error.
  cbn [fst snd state parsed].
  unfold tx_parser_compute_fee, set_fee.
  cbn [version chain_id sender nonce gas_price gas_limit tx_type recipient amount].
  unfold wire_field, OFF_CHAIN_ID, OFF_SENDER, OFF_NONCE, OFF_GAS_PRICE,
    OFF_GAS_LIMIT, OFF_RECIPIENT, OFF_AMOUNT.
  cbn [firstn skipn].
  repeat split; try reflexivity; apply read_u64_le_value; assumption.
Qed.

Ltac prove_bytes_ok :=
  unfold bytes_ok;
  repeat (apply Forall_cons; [unfold byte_ok; lia|]); apply Forall_nil.

Lemma tx_s1_valid : valid_transfer tx_s1.
Proof.
  unfold valid_transfer. split; [reflexivity|]. split.
  - let l := eval vm_compute in tx_s1 in change tx_s1 with l. prove_bytes_ok.
  - split; reflexivity.
Defined.

Lemma parse_transfer_exact_witness :
  valid_transfer tx_s1 /\
  let p := tx_parser_get_parsed (fst (tx_parser_consume tx_parser_init tx_s1)) in
  chain_id p = 1 /\ nonce p = 42 /\ gas_price p = 1000 /\ gas_limit p = 21000 /\
  amount p = 1000000 /\ sender p = repeat 0x11 20 /\ recipient p = repeat 0x22 20.
Proof.
  split; [exact tx_s1_valid|].
  destruct (parse_transfer_exact tx_s1 tx_s1_valid)
    as (_ & _ & _ & _ & Hc & Hs & Hn & Hp & Hl & _ & Hr & Ha).
  cbv zeta. rewrite Hc, Hs, Hn, Hp, Hl, Hr, Ha.
  repeat split; reflexivity.
Defined.

(** C6. For a valid transaction and any partition of it into one or more
    non-empty chunks, feeding the chunks in order to a freshly initialised
    parser leaves the same parser context, and so the same parsed record, as
    feeding the whole transaction in one call. *)
Theorem chunked_parse_equals_one_shot (tx : list Z) (chunks : list (list Z)) :
  valid_transfer tx ->
  chunks <> [] -> Forall (fun c => c <> []) chunks -> concat chunks = tx ->
  consume_chunks tx_parser_init chunks = fst (tx_parser_consume tx_parser_init tx)
  /\ tx_parser_get_parsed (consume_chunks tx_parser_init chunks)
     = tx_parser_get_parsed (fst (tx_parser_consume tx_parser_init tx)).
Proof.
  intros (Hlen & _) _ _ Hcat.
  assert (E : consume_chunks tx_parser_init chunks
              = fst (tx_parser_consume tx_parser_init tx)).
  { rewrite <- Hcat. apply consume_chunks_concat; [apply tx_parser_init_inv|].
    rewrite Hcat, Hlen. cbn. unfold MAX_TX_SIZE. lia. }
  split; [exact E|]. rewrite E. reflexivity.
Qed.

Lemma chunked_parse_equals_one_shot_witness :
  valid_transfer tx_s1 /\ chunks_s1 <> [] /\
  Forall (fun c => c <> []) chunks_s1 /\ concat chunks_s1 = tx_s1 /\
  consume_chunks tx_parser_init chunks_s1
  = fst (tx_parser_consume tx_parser_init tx_s1).
Proof.
  assert (H1 : chunks_s1 <> []) by discriminate.
  assert (H2 : Forall (fun c => c <> []) chunks_s1)
    by (repeat constructor; discriminate).
  assert (H3 : concat chunks_s1 = tx_s1) by reflexivity.
  split; [exact tx_s1_valid|]. split; [exact H1|]. split; [exact H2|].
  split; [exact H3|].
  exact (proj1 (chunked_parse_equals_one_shot tx_s1 chunks_s1 tx_s1_valid H1 H2 H3)).
Defined.

(** ** Base58 *)

Lemma be_value_range l : bytes_ok l -> 0 <= be_value l < 256 ^ Z.of_nat (length l).
Proof.
  induction 1 as [|b tl Hb _ IH]; cbn [be_value length]; [cbn; lia|].
  rewrite Nat2Z.inj_succ, Z.pow_succ_r by lia.
  unfold byte_ok in Hb.
  assert (0 < 256 ^ Z.of_nat (length tl)) by (apply Z.pow_pos_nonneg; lia).
  nia.
Qed.

Lemma leading_count_le {A} (p : A -> bool) l : (leading_count p l <= length l)%nat.
Proof. induction l as [|x l IH]; cbn; [lia|]. destruct (p x); lia. Qed.

Lemma leading_count_skipn {A} (p : A -> bool) l :
  leading_count p (skipn (leading_count p l) l) = O.
Proof.
  induction l as [|x l IH]; cbn; [reflexivity|].
  destruct (p x) eqn:E; cbn [skipn leading_count]; [exact IH|].
  rewrite E. reflexivity.
Qed.

Lemma be_value_skip_zeros l :
  be_value (skipn (leading_count is_zero l) l) = be_value l.
Proof.
  induction l as [|b l IH]; cbn [leading_count]; [reflexivity|].
  unfold is_zero at 1. destruct (Z.eqb_spec b 0) as [->|Hb].
  - cbn [skipn be_value]. rewrite IH. lia.
  - reflexivity.
Qed.

Lemma bytes_ok_skipn n l : bytes_ok l -> bytes_ok (skipn n l).
Proof.
  unfold bytes_ok. revert l. induction n as [|n IH]; intros l H; [exact H|].
  destruct l as [|b l]; [exact H|]. cbn [skipn]. apply IH. inversion H; assumption.
Qed.

(** A non-empty buffer without a leading zero denotes a positive number. *)
Lemma be_value_pos l :
  bytes_ok l -> l <> [] -> leading_count is_zero l = O -> 0 < be_value l.
Proof.
  intros Hl Hne Hz. destruct l as [|b tl]; [congruence|].
  inversion Hl as [|? ? Hb Htl]; subst. cbn [leading_count] in Hz.
  unfold is_zero in Hz. destruct (Z.eqb_spec b 0); [discriminate|].
  cbn [be_value]. pose proof (be_value_range tl Htl).
  assert (0 < 256 ^ Z.of_nat (length tl)) by (apply Z.pow_pos_nonneg; lia).
  unfold byte_ok in Hb. nia.
Qed.

(** The inner loop is a long division by 58. *)
Lemma div58_loop_spec l : forall carry,
  bytes_ok l -> 0 <= carry < 58 ->
  bytes_ok (fst (div58_loop l carry)) /\
  length (fst (div58_loop l carry)) = length l /\
  0 <= snd (div58_loop l carry) < 58 /\
  carry * 256 ^ Z.of_nat (length l) + be_value l
  = 58 * be_value (fst (div58_loop l carry)) + snd (div58_loop l carry).
Proof.
  induction l as [|b tl IH]; intros carry Hl Hc.
  - cbn. repeat split; try lia. constructor.
  - inversion Hl as [|? ? Hb Htl]; subst. unfold byte_ok in Hb.
    cbn [div58_loop].
    assert (E1 : u32 (carry * 256 + b) = carry * 256 + b)
      by (unfold u32; apply Z.mod_small; lia).
    rewrite E1. set (c1 := carry * 256 + b) in *.
    assert (Hq : 0 <= c1 / 58 < 256).
    { split; [apply Z.div_pos; lia|]. apply Z.div_lt_upper_bound; lia. }
    assert (E2 : u8 (c1 / 58) = c1 / 58) by (unfold u8; apply Z.mod_small; lia).
    rewrite E2.
    pose proof (Z.mod_pos_bound c1 58 ltac:(lia)) as Hr.
    specialize (IH (c1 mod 58) Htl Hr).
    destruct (div58_loop tl (c1 mod 58)) as [tl' c] eqn:E.
    cbn [fst snd] in *. destruct IH as (Hok & Hlen & Hc' & Hval).
    split; [constructor; [exact Hq|exact Hok]|].
    split; [cbn [length]; lia|]. split; [exact Hc'|].
    cbn [be_value length]. rewrite Hlen.
    rewrite Nat2Z.inj_succ, Z.pow_succ_r by lia.
    pose proof (Z.div_mod c1 58 ltac:(lia)) as Hdm.
    set (P := 256 ^ Z.of_nat (length tl)) in *.
    replace (carry * (256 * P) + (b * P + be_value tl))
      with (c1 * P + be_value tl) by (subst c1; ring).
    rewrite Hdm at 1. nia.
Qed.

Lemma alphabet_char_in n : (n < 58)%nat -> in_alphabet (nth n BASE58_ALPHABET zero).
Proof. intros H. apply nth_In. exact H. Qed.

Lemma alphabet_char_not_one n :
  (1 <= n < 58)%nat -> is_one (nth n BASE58_ALPHABET zero) = false.
Proof.
  intros H.
  assert (F : forallb (fun k => negb (is_one (nth k BASE58_ALPHABET zero)))
                      (seq 1 57) = true) by reflexivity.
  rewrite forallb_forall in F. specialize (F n).
  rewrite in_seq in F. apply negb_true_iff, F. lia.
Qed.

(** The outer loop emits the base-58 digits of the number in [live], least
    significant first: it ends within [m] digits when the number is below
    [58 ^ m], and the last digit it emits is not the zero digit. *)
Lemma b58_loop_spec fuel : forall live acc m,
  bytes_ok live -> leading_count is_zero live = O ->
  be_value live < 58 ^ Z.of_nat m ->
  (length acc + m <= MAX_B58_LEN)%nat -> (m < fuel)%nat ->
  exists r,
    b58_loop fuel live acc = Some r /\
    (length acc <= length r <= length acc + m)%nat /\
    (live <> [] -> (length acc < length r)%nat) /\
    (Forall in_alphabet acc -> Forall in_alphabet r) /\
    ((live = [] -> leading_count is_one (rev acc) = O) ->
     leading_count is_one (rev r) = O).
Proof.
  induction fuel as [|fuel IH]; intros live acc m Hok Hnorm Hval Hroom Hfuel;
    [lia|].
  destruct live as [|b tl].
  { exists acc. cbn [b58_loop]. repeat split; try lia; auto. congruence. }
  set (live := b :: tl) in *.
  assert (Hpos : 0 < be_value live) by (apply be_value_pos; [assumption|discriminate|assumption]).
  destruct m as [|m]; [change (58 ^ Z.of_nat 0) with 1 in Hval; lia|].
  destruct (div58_loop_spec live 0 Hok ltac:(lia)) as (Hqok & Hqlen & Hc & Hdiv).
  change (b58_loop (S fuel) live acc) with
    (let (quot, carry) := div58_loop live 0 in
     if (MAX_B58_LEN <=? length acc)%nat then None
     else b58_loop fuel (skipn (leading_count is_zero quot) quot)
            (acc ++ [nth (Z.to_nat carry) BASE58_ALPHABET zero])).
  destruct (div58_loop live 0) as [quot carry]. cbn [fst snd] in *.
  destruct (Nat.leb_spec MAX_B58_LEN (length acc)) as [?|_]; [lia|].
  set (c := nth (Z.to_nat carry) BASE58_ALPHABET zero).
  set (live' := skipn (leading_count is_zero quot) quot).
  assert (Hv' : be_value live' = be_value quot) by apply be_value_skip_zeros.
  assert (Hq : be_value quot < 58 ^ Z.of_nat m).
  { rewrite Nat2Z.inj_succ, Z.pow_succ_r in Hval by lia. lia. }
  destruct (IH live' (acc ++ [c]) m) as (r & Hr & Hlen & _ & Hin & Hlast).
  - apply bytes_ok_skipn, Hqok.
  - apply leading_count_skipn.
  - rewrite Hv'. exact Hq.
  - rewrite length_app. cbn [length]. lia.
  - lia.
  - rewrite length_app in Hlen. cbn [length] in Hlen.
    exists r. split; [exact Hr|]. split; [lia|]. split; [lia|]. split.
    + intros Hacc. apply Hin. apply Forall_app. split; [exact Hacc|].
      constructor; [|constructor]. apply alphabet_char_in. lia.
    + intros _. apply Hlast. intros Hnil.
      rewrite rev_app_distr. cbn [rev app leading_count].
      assert (Hq0 : be_value quot = 0) by (rewrite <- Hv', Hnil; reflexivity).
      subst c. rewrite alphabet_char_not_one; [reflexivity|]. lia.
Qed.

(** [256 ^ (20 - z) <= 58 ^ (34 - z)]: an address with [z] leading zero
    bytes needs at most [34 - z] digits. *)
Lemma address_digits_bound z :
  (z <= 20)%nat -> 256 ^ Z.of_nat (20 - z) <= 58 ^ Z.of_nat (34 - z).
Proof.
  intros H.
  assert (F : forallb (fun k => 256 ^ Z.of_nat (20 - k) <=? 58 ^ Z.of_nat (34 - k))
                      (seq 0 21) = true) by (vm_compute; reflexivity).
  rewrite forallb_forall in F. apply Z.leb_le, F, in_seq. lia.
Qed.

Lemma leading_count_repeat_app (c : ascii) n l :
  is_one c = true ->
  leading_count is_one (repeat c n ++ l) = (n + leading_count is_one l)%nat.
Proof.
  intros Hc. induction n as [|n IH]; cbn [repeat app leading_count]; [reflexivity|].
  rewrite Hc, IH. reflexivity.
Qed.

(** C8. For a 20-byte input and an output buffer of at least 35 bytes,
    [base58_encode] writes a string over the Base58 alphabet and returns
    its length, which lies in [1, 34]; the string starts with exactly as
    many ['1'] characters as the input has leading zero bytes. *)
Theorem base58_encode_address (input : list Z) (out : list ascii) (out_len : Z) :
  length input = 20%nat -> bytes_ok input -> ADDRESS_BASE58_MAX_LEN <= out_len ->
  let s := fst (base58_encode input out out_len) in
  let n := snd (base58_encode input out out_len) in
  n = Z.of_nat (length s) /\ 1 <= n <= 34 /\
  Forall in_alphabet s /\
  leading_count is_one s = leading_count is_zero input.
Proof.
  intros Hlen Hok Hout. unfold ADDRESS_BASE58_MAX_LEN in Hout.
  unfold base58_encode. rewrite Hlen.
  destruct (Z.eqb_spec out_len 0) as [?|_]; [lia|].
  change (Z.of_nat 20 =? 0) with false.
  change (Z.of_nat 20 >? MAX_INPUT_LEN) with false. cbv iota.
  set (z := leading_count is_zero input).
  assert (Hz : (z <= 20)%nat).
  { subst z. rewrite <- Hlen. apply leading_count_le. }
  set (live := skipn z input).
  assert (Hlive : length live = (20 - z)%nat)
    by (subst live; rewrite length_skipn; lia).
  assert (Hval : be_value live < 58 ^ Z.of_nat (34 - z)).
  { pose proof (be_value_range live (bytes_ok_skipn z input Hok)) as Hr.
    rewrite Hlive in Hr. pose proof (address_digits_bound z Hz). lia. }
  destruct (b58_loop_spec (S MAX_B58_LEN) live [] (34 - z)) as
    (r & Hr & Hrlen & Hne & Hin & Hlast).
  - apply bytes_ok_skipn, Hok.
  - apply leading_count_skipn.
  - exact Hval.
  - unfold MAX_B58_LEN. cbn [length]. lia.
  - unfold MAX_B58_LEN. lia.
  - rewrite Hr. cbn [length] in Hrlen, Hne.
    destruct (Z.gtb_spec (Z.of_nat (z + length r) + 1) out_len) as [?|_]; [lia|].
    cbv zeta. cbn [fst snd].
    assert (Hpos : (1 <= z + length r)%nat).
    { destruct (Nat.eq_dec z 0) as [Hz0|]; [|lia].
      assert (live <> []).
      { intros E. rewrite E in Hlive. cbn [length] in Hlive. lia. }
      specialize (Hne H). lia. }
    split; [rewrite length_app, repeat_length, length_rev; reflexivity|].
    split; [lia|]. split.
    + apply Forall_app. split.
      * apply Forall_forall. intros c Hc. apply repeat_spec in Hc. subst c.
        unfold in_alphabet. cbn. auto.
      * apply Forall_rev. apply Hin. constructor.
    + rewrite leading_count_repeat_app by reflexivity.
      rewrite Hlast; [lia|]. reflexivity.
Qed.

Lemma addr_sample_ok : bytes_ok addr_sample.
Proof. unfold addr_sample. prove_bytes_ok. Defined.

Lemma base58_encode_address_witness :
  length addr_sample = 20%nat /\ bytes_ok addr_sample /\
  ADDRESS_BASE58_MAX_LEN <= 35 /\
  snd (base58_encode addr_sample [] 35) = 27 /\
  leading_count is_one (fst (base58_encode addr_sample [] 35)) = 2%nat.
Proof.
  assert (H1 : length addr_sample = 20%nat) by reflexivity.
  assert (H3 : ADDRESS_BASE58_MAX_LEN <= 35) by (unfold ADDRESS_BASE58_MAX_LEN; lia).
  destruct (base58_encode_address addr_sample [] 35 H1 addr_sample_ok H3)
    as (_ & _ & _ & Hlead).
  split; [exact H1|]. split; [exact addr_sample_ok|]. split; [exact H3|].
  split; [reflexivity|]. rewrite Hlead. reflexivity.
Defined.

(** ** The fee string *)

Lemma decimal_value_acc s : forall a,
  fold_left (fun acc c => acc * 10 + (Z.of_nat (nat_of_ascii c) - 48)) s a
  = a * 10 ^ Z.of_nat (length s) + decimal_value s.
Proof.
  unfold decimal_value.
  induction s as [|c s IH]; intros a; cbn [fold_left length].
  - cbn. lia.
  - rewrite IH, (IH (0 * 10 + _)).
    rewrite Nat2Z.inj_succ, Z.pow_succ_r by lia. ring.
Qed.

Lemma digit_char_value d :
  0 <= d < 10 -> Z.of_nat (nat_of_ascii (digit_char d)) - 48 = d.
Proof.
  intros H. unfold digit_char. rewrite nat_ascii_embedding by lia. lia.
Qed.

(** The digit loop of [format_u64_decimal] writes the decimal digits of
    [value], least significant first. *)
Lemma u64_digits_loop_value fuel : forall v buf,
  0 <= v < 10 ^ Z.of_nat fuel ->
  decimal_value (rev (u64_digits_loop fuel v buf))
  = v * 10 ^ Z.of_nat (length buf) + decimal_value (rev buf).
Proof.
  induction fuel as [|fuel IH]; intros v buf Hv.
  - change (10 ^ Z.of_nat 0) with 1 in Hv. cbn [u64_digits_loop].
    replace v with 0 by lia. lia.
  - cbn [u64_digits_loop]. destruct (Z.gtb_spec v 0) as [Hpos|Hz].
    + rewrite Nat2Z.inj_succ, Z.pow_succ_r in Hv by lia.
      rewrite IH by (split; [apply Z.div_pos; lia|apply Z.div_lt_upper_bound; lia]).
      rewrite length_app, rev_app_distr. cbn [length rev app].
      unfold decimal_value at 1. cbn [fold_left].
      rewrite decimal_value_acc, length_rev.
      rewrite digit_char_value by (apply Z.mod_pos_bound; lia).
      rewrite Nat2Z.inj_add, Z.pow_add_r by lia. cbn [Z.of_nat Pos.of_succ_nat].
      rewrite (Z.div_mod v 10) at 3 by lia. ring.
    + replace v with 0 by lia. lia.
Qed.

Lemma u64_digits_loop_length fuel : forall v buf,
  (length (u64_digits_loop fuel v buf) <= length buf + fuel)%nat.
Proof.
  induction fuel as [|fuel IH]; intros v buf; cbn [u64_digits_loop]; [lia|].
  destruct (v >? 0); [|lia].
  specialize (IH (v / 10) (buf ++ [digit_char (v mod 10)])).
  rewrite length_app in IH. cbn [length] in IH. lia.
Qed.

Lemma u64_digits_loop_grows fuel : forall v buf,
  (length buf <= length (u64_digits_loop fuel v buf))%nat.
Proof.
  induction fuel as [|fuel IH]; intros v buf; cbn [u64_digits_loop]; [lia|].
  destruct (v >? 0); [|lia].
  specialize (IH (v / 10) (buf ++ [digit_char (v mod 10)])).
  rewrite length_app in IH. cbn [length] in IH. lia.
Qed.

(** With the overflow flag set, [format_fee] writes ["Overflow"]. *)
Lemma format_fee_overflow_flag lo hi out out_len :
  9 <= out_len ->
  format_fee lo hi true out out_len = (Literal.overflow_msg, 8).
Proof.
  intros H. unfold format_fee.
  destruct (Z.eqb_spec out_len 0); [lia|].
  change (Z.of_nat (length Literal.overflow_msg)) with 8.
  destruct (Z.gtb_spec (8 + 1) out_len); [lia|reflexivity].
Qed.

(** With the flag clear and a zero high part, the string denotes
    [fee_low]. *)
Lemma format_fee_low_part lo out out_len :
  0 <= lo < 2 ^ 64 -> 25 <= out_len ->
  decimal_value (fst (format_fee lo 0 false out out_len)) = lo /\
  snd (format_fee lo 0 false out out_len)
  = Z.of_nat (length (fst (format_fee lo 0 false out out_len))) /\
  1 <= snd (format_fee lo 0 false out out_len).
Proof.
  intros Hlo Hout. unfold format_fee.
  destruct (Z.eqb_spec out_len 0); [lia|]. cbn [Z.eqb].
  unfold format_u64_decimal.
  destruct (Z.eqb_spec out_len 0); [lia|].
  destruct (Z.eqb_spec lo 0) as [->|Hnz].
  { destruct (Z.ltb_spec out_len 2); [lia|]. cbn. repeat split; lia. }
  pose proof (u64_digits_loop_length 24 lo []) as Hlen. cbn [length] in Hlen.
  pose proof (u64_digits_loop_value 24 lo []) as Hval.
  destruct (Z.gtb_spec (Z.of_nat (length (u64_digits_loop 24 lo [])) + 1) out_len);
    [lia|].
  cbn [fst snd]. rewrite Hval by (change (10 ^ Z.of_nat 24) with (10 ^ 24); lia).
  rewrite length_rev.
  change (10 ^ Z.of_nat (length (@nil ascii))) with 1.
  change (decimal_value (rev [])) with 0.
  split; [lia|]. split; [reflexivity|].
  assert (Hpos : (1 <= length (u64_digits_loop 24 lo []))%nat).
  { change 24%nat with (S 23). cbn [u64_digits_loop].
    destruct (Z.gtb_spec lo 0); [|lia].
    pose proof (u64_digits_loop_grows 23 (lo / 10) ([] ++ [digit_char (lo mod 10)]))
      as G.
    cbn [app length] in G. exact G. }
  lia.
Qed.

(** C7 (the code departs from it). With the overflow flag clear and a
    non-zero high part, [format_fee] computes [hi_rem * 6 + lo] in 64 bits;
    for [fee_high = 9] and [fee_low = 2^64 - 1] the sum wraps and the digits
    written are not those of [fee_high * 2^64 + fee_low]. *)
Theorem format_fee_wraps :
  format_fee (2 ^ 64 - 1) 9 false [] TX_DISPLAY_FEE_MAX_LEN
  = (Literal.wrapped_fee_digits, 21)
  /\ decimal_value
       (fst (format_fee (2 ^ 64 - 1) 9 false [] TX_DISPLAY_FEE_MAX_LEN))
     = 166020696663385964543
  /\ 9 * 2 ^ 64 + (2 ^ 64 - 1) = 184467440737095516159
  /\ d_fee (snd (tx_display_format parsed_wide_fee))
     = fst (format_fee (2 ^ 64 - 1) 9 false [] TX_DISPLAY_FEE_MAX_LEN).
Proof. repeat split; vm_compute; reflexivity. Qed.

(** ** The signing session *)

Ltac break_match :=
  match goal with
  | |- context [if ?c then _ else _] => destruct c eqn:?
  | |- context [match ?x with _ => _ end] => destruct x eqn:?
  end.

Ltac sw_differ :=
  unfold SW_OK, SW_USER_REJECTED, SW_INVALID_PATH, SW_INVALID_P1P2,
    SW_WRONG_LENGTH, SW_INTERNAL_ERROR, SW_TX_PARSE_ERROR, SW_TX_OVERFLOW,
    SW_SESSION_ERROR, SW_TX_TOO_LARGE; discriminate.

Section SessionProps.
Context {B3 : Blake3} {KP : KeyProvider}.

Lemma absorb_tx_bytes_initialized s d s' :
  absorb_tx_bytes s d = inr s' -> initialized s' = initialized s.
Proof.
  unfold absorb_tx_bytes.
  repeat (break_match; try discriminate); intros H; inversion H; subst;
    reflexivity.
Qed.

Lemma absorb_tx_bytes_status s d sw :
  absorb_tx_bytes s d = inl sw -> sw <> SW_OK /\ sw <> SW_SESSION_ERROR.
Proof.
  unfold absorb_tx_bytes.
  repeat (break_match; try discriminate); intros H; inversion H; subst;
    split; sw_differ.
Qed.

Lemma sign_tx_until_approval_ok st a :
  progress_ok st a (sign_tx_until_approval st a).
Proof.
  unfold sign_tx_until_approval.
  destruct (negb (p1 a =? P1_FIRST_CHUNK) && negb (p1 a =? P1_MORE_CHUNK)).
  { cbn. split; [reflexivity|]. right. left. split; [sw_differ|reflexivity]. }
  destruct (negb (p2 a =? P2_LAST_CHUNK) && negb (p2 a =? P2_MORE_CHUNKS)).
  { cbn. split; [reflexivity|]. right. left. split; [sw_differ|reflexivity]. }
  (* the two arms end in an error return or in a session to go on with *)
  match goal with
  | |- progress_ok _ _ (match ?arm with _ => _ end) =>
      assert (Harm : match arm with
                     | inl (sw, st') =>
                         st' = set_sign_session (sign_session st') st /\
                         sw <> SW_OK /\
                         (sign_session st' = sign_session_zero \/
                          (sw = SW_SESSION_ERROR /\ st' = st /\
                           initialized (sign_session st) = false))
                     | inr st' =>
                         st' = set_sign_session (sign_session st') st /\
                         initialized (sign_session st') = true
                     end);
      [|destruct arm as [[sw st']|st']]
  end.
  - destruct (p1 a =? P1_FIRST_CHUNK).
    + destruct (lc a <? 1).
      { split; [reflexivity|]. split; [sw_differ|left; reflexivity]. }
      destruct (crypto_parse_path (data a)
                  (session_path (sign_session (reset_sign_session st))))
        as [path_bytes p].
      destruct (path_bytes =? 0).
      { split; [reflexivity|]. split; [sw_differ|left; reflexivity]. }
      destruct (negb (crypto_validate_path p)).
      { split; [reflexivity|]. split; [sw_differ|left; reflexivity]. }
      match goal with
      | |- context [absorb_tx_bytes ?s ?d] =>
          destruct (absorb_tx_bytes s d) as [sw|s'] eqn:E
      end.
      * apply absorb_tx_bytes_status in E.
        split; [reflexivity|]. split; [apply E|left; reflexivity].
      * apply absorb_tx_bytes_initialized in E.
        split; [reflexivity|]. cbn in *. exact E.
    + destruct (initialized (sign_session st)) eqn:Hi; cbn [negb].
      2:{ split; [destruct st; reflexivity|]. split; [sw_differ|].
          right. auto. }
      destruct (last_chunk_received (sign_session st)).
      { split; [reflexivity|]. split; [sw_differ|left; reflexivity]. }
      match goal with
      | |- context [absorb_tx_bytes ?s ?d] =>
          destruct (absorb_tx_bytes s d) as [sw|s'] eqn:E
      end.
      * apply absorb_tx_bytes_status in E.
        split; [reflexivity|]. split; [apply E|left; reflexivity].
      * apply absorb_tx_bytes_initialized in E.
        split; [reflexivity|]. cbn in *. congruence.
  - destruct Harm as (Hf & Hsw & [Hz|Hidle]); cbn; (split; [exact Hf|]).
    + right. left. split; assumption.
    + right. right. exact Hidle.
  - destruct Harm as (Hf & Hi).
    destruct (p2 a =? P2_MORE_CHUNKS) eqn:Hmore; cbn [negb].
    { apply Z.eqb_eq in Hmore. cbn. split; [exact Hf|]. left. auto. }
    apply Z.eqb_neq in Hmore.
    destruct (negb (tx_parser_is_done (parser (sign_session st')))).
    { cbn. rewrite Hf at 1. split; [reflexivity|].
      right. left. split; [sw_differ|reflexivity]. }
    destruct (tx_display_format (tx_parser_get_parsed (parser (sign_session st'))))
      as [ok display].
    destruct (negb ok).
    { cbn. rewrite Hf at 1. split; [reflexivity|].
      right. left. split; [sw_differ|reflexivity]. }
    destruct (fee_overflow (tx_parser_get_parsed (parser (sign_session st')))).
    { cbn. rewrite Hf at 1. split; [reflexivity|].
      right. left. split; [sw_differ|reflexivity]. }
    cbn. split; assumption.
Qed.

Lemma sign_tx_after_approval_ok r st :
  let res := sign_tx_after_approval r st in
  sign_session (snd res) = sign_session_zero /\
  (r <> UI_RESULT_APPROVED ->
   res = (SW_USER_REJECTED, [], reset_sign_session st)) /\
  (snd (fst res) <> [] ->
   r = UI_RESULT_APPROVED /\ fst (fst res) = SW_OK /\
   length (snd (fst res)) = SIGNATURE_LEN).
Proof.
  cbv zeta. unfold sign_tx_after_approval.
  destruct r; try (cbn; repeat split; congruence).
  destruct (sum_blake3_finalize32 (tx_hash_ctx (sign_session st)) (hash st))
    as [h digest].
  match goal with
  | |- context [crypto_sign_hash ?p ?d ?b] =>
      pose proof (sig64_length p d b) as Hlen;
      destruct (crypto_sign_hash p d b) as [ok sg]
  end.
  cbn [snd] in Hlen.
  destruct ok; cbn [negb fst snd].
  - split; [reflexivity|]. split; [congruence|]. intros _.
    split; [reflexivity|]. split; [reflexivity|].
    cbn [signature set_signature]. rewrite firstn_all2; lia.
  - split; [reflexivity|]. split; congruence.
Qed.

Lemma handle_sign_tx_outcome ui st a :
  session_inv st ->
  let res := handle_sign_tx ui st a in
  (fst (fst res) = SW_OK /\ p2 a = P2_MORE_CHUNKS /\
   initialized (sign_session (snd res)) = true /\ snd (fst res) = [])
  \/ (sign_session (snd res) = sign_session_zero /\
      ~ (fst (fst res) = SW_OK /\ p2 a = P2_MORE_CHUNKS)).
Proof.
  intros Hinv. cbv zeta. unfold handle_sign_tx.
  pose proof (sign_tx_until_approval_ok st a) as Hp.
  destruct (sign_tx_until_approval st a) as [sw st'|d st']; cbn [progress_ok] in Hp.
  - cbn [fst snd].
    destruct Hp as (_ & [(H1 & H2 & H3)|[(H1 & H2)|(H1 & H2 & H3)]]).
    + left. auto.
    + right. split; [exact H2|]. intros (H & _). contradiction.
    + right. subst st' sw. split; [apply Hinv, H3|].
      intros (H & _). revert H. sw_differ.
  - destruct Hp as (_ & Hp2).
    destruct (sign_tx_after_approval_ok (ui d) st') as (Hz & _).
    right. split; [exact Hz|]. intros (_ & H). contradiction.
Qed.

Lemma handle_sign_tx_inv ui st a :
  session_inv st -> session_inv (snd (handle_sign_tx ui st a)).
Proof.
  intros Hinv.
  destruct (handle_sign_tx_outcome ui st a Hinv) as [(_ & _ & Hi & _)|(Hz & _)];
    unfold session_inv; [congruence|auto].
Qed.

Lemma handle_get_public_key_session st a :
  sign_session (snd (handle_get_public_key st a)) = sign_session st.
Proof.
  unfold handle_get_public_key. repeat break_match; reflexivity.
Qed.

Lemma handle_get_address_session st a :
  sign_session (snd (handle_get_address st a)) = sign_session st.
Proof.
  unfold handle_get_address. repeat break_match; reflexivity.
Qed.

(** The sign handler is the only one that touches the session, and it
    leaves it either streaming or zeroized. *)
Lemma apdu_dispatch_inv ui st a :
  session_inv st -> session_inv (snd (apdu_dispatch ui st a)).
Proof.
  intros Hinv. unfold apdu_dispatch.
  repeat break_match; try exact Hinv.
  - unfold session_inv. rewrite handle_get_public_key_session. exact Hinv.
  - unfold session_inv. rewrite handle_get_address_session. exact Hinv.
  - apply handle_sign_tx_inv, Hinv.
Qed.

Lemma reachable_inv st : reachable st -> session_inv st.
Proof.
  induction 1 as [st|ui st a _ IH].
  - intros _. reflexivity.
  - apply apdu_dispatch_inv, IH.
Qed.

(** C1. When the handler reaches the approval step and the display
    collaborator answers reject or none, it returns 0x6985 with an empty
    response, leaves the signature buffer as it was and zeroizes the
    session; a response that is not empty is a 64-byte signature returned
    with 0x9000 after the collaborator answered approve. *)
Theorem sign_tx_needs_approval ui st a :
  (forall d st1,
     sign_tx_until_approval st a = Ask d st1 ->
     ui d = UI_RESULT_REJECTED \/ ui d = UI_RESULT_NONE ->
     fst (fst (handle_sign_tx ui st a)) = SW_USER_REJECTED /\
     snd (fst (handle_sign_tx ui st a)) = [] /\
     signature (snd (handle_sign_tx ui st a)) = signature st /\
     sign_session (snd (handle_sign_tx ui st a)) = sign_session_zero)
  /\
  (snd (fst (handle_sign_tx ui st a)) <> [] ->
   length (snd (fst (handle_sign_tx ui st a))) = SIGNATURE_LEN /\
   fst (fst (handle_sign_tx ui st a)) = SW_OK /\
   exists d st1,
     sign_tx_until_approval st a = Ask d st1 /\ ui d = UI_RESULT_APPROVED).
Proof.
  split.
  - intros d st1 Hask Hui. unfold handle_sign_tx. rewrite Hask.
    destruct (sign_tx_after_approval_ok (ui d) st1) as (_ & Hrej & _).
    rewrite Hrej by (destruct Hui as [-> | ->]; discriminate).
    cbn [fst snd]. repeat split.
    pose proof (sign_tx_until_approval_ok st a) as Hp. rewrite Hask in Hp.
    destruct Hp as (Hf & _). rewrite Hf. reflexivity.
  - unfold handle_sign_tx.
    destruct (sign_tx_until_approval st a) as [sw st'|d st1]; cbn [fst snd];
      [congruence|].
    intros Hne.
    destruct (sign_tx_after_approval_ok (ui d) st1) as (_ & _ & Hsig).
    destruct (Hsig Hne) as (H1 & H2 & H3).
    split; [exact H3|]. split; [exact H2|]. exists d, st1. auto.
Qed.

Lemma sign_tx_after_approval_status r st :
  fst (fst (sign_tx_after_approval r st)) <> SW_SESSION_ERROR.
Proof.
  unfold sign_tx_after_approval.
  repeat break_match; cbn [fst]; sw_differ.
Qed.

(** C2, as the code has it. A sign-transaction APDU with P1 = 0x00 that
    arrives while a session is initialized zeroizes that session and is then
    handled as the first chunk of a new session: status, response and state
    are those the same APDU yields on a zeroized session, and the status is
    never the session error 0x6F03. *)
Theorem first_chunk_restarts_session ui st a :
  initialized (sign_session st) = true ->
  p1 a = P1_FIRST_CHUNK ->
  handle_sign_tx ui st a = handle_sign_tx ui (reset_sign_session st) a /\
  fst (fst (handle_sign_tx ui st a)) <> SW_SESSION_ERROR.
Proof.
  intros _ Hp1.
  assert (E : (p1 a =? P1_FIRST_CHUNK) = true) by (apply Z.eqb_eq, Hp1).
  split.
  - unfold handle_sign_tx, sign_tx_until_approval. rewrite E. reflexivity.
  - unfold handle_sign_tx, sign_tx_until_approval. rewrite E.
    cbn [negb andb].
    destruct (negb (p2 a =? P2_LAST_CHUNK) && negb (p2 a =? P2_MORE_CHUNKS));
      [cbn [fst]; sw_differ|].
    destruct (lc a <? 1); [cbn [fst]; sw_differ|].
    destruct (crypto_parse_path (data a)
                (session_path (sign_session (reset_sign_session st))))
      as [path_bytes p].
    destruct (path_bytes =? 0); [cbn [fst]; sw_differ|].
    destruct (negb (crypto_validate_path p)); [cbn [fst]; sw_differ|].
    match goal with
    | |- context [absorb_tx_bytes ?s ?d] =>
        destruct (absorb_tx_bytes s d) as [sw|s'] eqn:Eabs
    end.
    { cbn [fst]. apply absorb_tx_bytes_status in Eabs. apply Eabs. }
    destruct (negb (p2 a =? P2_MORE_CHUNKS)); [|cbn [fst]; sw_differ].
    cbv zeta.
    match goal with
    | |- context [tx_parser_is_done ?c] => destruct (negb (tx_parser_is_done c))
    end; [cbn [fst]; sw_differ|].
    match goal with
    | |- context [tx_display_format ?q] =>
        destruct (tx_display_format q) as [ok display];
        destruct (negb ok); [cbn [fst]; sw_differ|];
        destruct (fee_overflow q); [cbn [fst]; sw_differ|]
    end.
    apply sign_tx_after_approval_status.
Qed.

(** C3 (as amended). In the running application, whenever
    [handle_sign_tx], called with a command and a response buffer, returns
    a status other than 0x9000, the session is all zero afterwards: the
    derivation path, the parser context with its scratch buffer, and the
    hash context.  Called with [apdu], [tx] or [*tx] NULL it returns
    0x6F00 and leaves the whole state, the session included, as it was. *)
Theorem error_exit_zeroizes_session ui st apdu tx :
  reachable st ->
  let res := handle_sign_tx_call ui st apdu tx in
  fst (fst res) <> SW_OK ->
  (apdu <> None -> tx = TX_BUFFER ->
   let s := sign_session (snd res) in
   s = sign_session_zero /\
   session_path s = bip32_path_zero /\
   parser s = tx_parser_ctx_zero /\
   scratch (parser s) = repeat 0 32 /\
   tx_hash_ctx s = sum_blake3_ctx_zero) /\
  (apdu = None \/ tx <> TX_BUFFER -> res = (SW_INTERNAL_ERROR, [], st)).
Proof.
  intros Hreach. cbv zeta. intros Hsw. split.
  - intros Ha Htx. subst tx. destruct apdu as [a|]; [|contradiction].
    cbn [handle_sign_tx_call] in *.
    destruct (handle_sign_tx_outcome ui st a (reachable_inv st Hreach))
      as [(H & _)|(Hz & _)]; [contradiction|].
    rewrite Hz. repeat split.
  - intros [Ha|Htx].
    + subst apdu. reflexivity.
    + destruct apdu; destruct tx; try reflexivity. contradiction.
Qed.

(** C9 (as amended). In the running application, after [handle_sign_tx],
    called with a command and a response buffer, returns, the session's
    [initialized] flag is set if and only if the call returned 0x9000 for a
    chunk with P2 = 0x80; after every other such return the whole session
    structure is zero.  Called with [apdu], [tx] or [*tx] NULL it returns
    0x6F00 and leaves the whole state, the session included, as it was. *)
Theorem initialized_iff_more_chunks ui st a apdu tx :
  reachable st ->
  (let sw := fst (fst (handle_sign_tx_call ui st (Some a) TX_BUFFER)) in
   let st' := snd (handle_sign_tx_call ui st (Some a) TX_BUFFER) in
   (initialized (sign_session st') = true <->
    sw = SW_OK /\ p2 a = P2_MORE_CHUNKS) /\
   (~ (sw = SW_OK /\ p2 a = P2_MORE_CHUNKS) ->
    sign_session st' = sign_session_zero)) /\
  (apdu = None \/ tx <> TX_BUFFER ->
   handle_sign_tx_call ui st apdu tx = (SW_INTERNAL_ERROR, [], st)).
Proof.
  intros Hreach. cbv zeta. cbn [handle_sign_tx_call]. split.
  - destruct (handle_sign_tx_outcome ui st a (reachable_inv st Hreach))
      as [(H1 & H2 & H3 & _)|(Hz & Hn)].
    + split; [split; auto|]. intros Hc. exfalso. apply Hc. auto.
    + split; [|intros _; exact Hz]. split; [|intros Hc; contradiction].
      rewrite Hz. cbn. discriminate.
  - intros [Ha|Htx].
    + subst apdu. reflexivity.
    + destruct apdu; destruct tx; try reflexivity. contradiction.
Qed.

(** *** Path parsing *)

Lemma buf_at_skipn_app k j (d t : list Z) :
  (k + j < length d)%nat ->
  buf_at (skipn k (d ++ t)) j = buf_at (skipn k d) j.
Proof.
  intros H. unfold buf_at. rewrite !nth_skipn. apply app_nth1. exact H.
Qed.

Lemma path_component_app d t i :
  (1 + i * 4 + 4 <= length d)%nat ->
  path_component (d ++ t) i = path_component d i.
Proof.
  intros H. unfold path_component.
  rewrite !(buf_at_skipn_app (1 + i * 4)) by lia. reflexivity.
Qed.

Lemma crypto_parse_path_app wire trailing old n body :
  wire = Z.of_nat n :: body -> (1 <= n <= 10)%nat -> length body = (4 * n)%nat ->
  crypto_parse_path (wire ++ trailing) old = crypto_parse_path wire old /\
  fst (crypto_parse_path wire old) = Z.of_nat (length wire) /\
  path_length (snd (crypto_parse_path wire old)) = Z.of_nat n /\
  firstn n (path (snd (crypto_parse_path wire old)))
  = map (path_component wire) (seq 0 n).
Proof.
  intros -> Hn Hbody. unfold crypto_parse_path.
  rewrite length_app. cbn [length app buf_at nth]. rewrite Hbody.
  unfold MAX_BIP32_PATH_LEN.
  destruct (Z.ltb_spec (Z.of_nat (S (4 * n) + length trailing)) 1); [lia|].
  destruct (Z.ltb_spec (Z.of_nat (S (4 * n))) 1); [lia|].
  destruct (Z.eqb_spec (Z.of_nat n) 0); [lia|].
  destruct (Z.gtb_spec (Z.of_nat n) 10); [lia|]. cbn [orb].
  destruct (Z.ltb_spec (Z.of_nat (S (4 * n) + length trailing))
                       (1 + Z.of_nat n * 4)); [lia|].
  destruct (Z.ltb_spec (Z.of_nat (S (4 * n))) (1 + Z.of_nat n * 4)); [lia|].
  rewrite Nat2Z.id. cbn [fst snd path_length path].
  assert (Hmap : map (path_component ((Z.of_nat n :: body) ++ trailing)) (seq 0 n)
                 = map (path_component (Z.of_nat n :: body)) (seq 0 n)).
  { apply map_ext_in. intros i Hi. apply in_seq in Hi.
    apply path_component_app. cbn [length]. lia. }
  change (Z.of_nat n :: body ++ trailing)
    with ((Z.of_nat n :: body) ++ trailing).
  rewrite Hmap. split; [reflexivity|]. split; [lia|]. split; [reflexivity|].
  rewrite firstn_app, length_map, length_seq, Nat.sub_diag.
  cbn [firstn]. rewrite app_nil_r. apply firstn_all2.
  rewrite length_map, length_seq. lia.
Qed.

Lemma high_bit_land c :
  Z.testbit c 31 = true -> (Z.land c 0x80000000 =? 0) = false.
Proof.
  intros H. apply Z.eqb_neq. intros E.
  assert (F : Z.testbit (Z.land c 0x80000000) 31 = true)
    by (rewrite Z.land_spec, H; reflexivity).
  rewrite E, Z.bits_0 in F. discriminate.
Qed.

(** C10. A get-public-key APDU whose data starts with a well-formed path
    (count byte [n] in 1..10, then [4 * n] bytes, every decoded component
    with its high bit set) is answered with 0x9000 and the 32-byte key the
    key primitive derives for that path, whatever bytes follow the path:
    the answer is the one given to the path alone. *)
Theorem get_public_key_ignores_trailing st a n body trailing pk :
  data a = (Z.of_nat n :: body) ++ trailing ->
  (1 <= n <= 10)%nat -> length body = (4 * n)%nat ->
  (forall i, (i < n)%nat ->
     Z.testbit (path_component (Z.of_nat n :: body) i) 31 = true) ->
  crypto_derive_pubkey
    (snd (crypto_parse_path (Z.of_nat n :: body) bip32_path_zero)) (pubkey st)
  = (true, pk) ->
  handle_get_public_key st a = (SW_OK, pk, set_pubkey pk st) /\
  length pk = PUBKEY_LEN /\
  handle_get_public_key st a
  = handle_get_public_key st
      (mk_apdu (cla a) (ins a) (p1 a) (p2 a) (Z.of_nat n :: body)).
Proof.
  intros Hdata Hn Hbody Hhard Hderive.
  destruct (crypto_parse_path_app (Z.of_nat n :: body) trailing bip32_path_zero
              n body eq_refl Hn Hbody) as (Happ & Hreq & Hplen & Hcomps).
  assert (Hvalid : crypto_validate_path
            (snd (crypto_parse_path (Z.of_nat n :: body) bip32_path_zero)) = true).
  { unfold crypto_validate_path. rewrite Hplen, Nat2Z.id, Hcomps.
    unfold MAX_BIP32_PATH_LEN.
    destruct (Z.eqb_spec (Z.of_nat n) 0); [lia|].
    destruct (Z.gtb_spec (Z.of_nat n) 10); [lia|]. cbn [orb].
    apply forallb_forall. intros c Hc. apply in_map_iff in Hc.
    destruct Hc as (i & <- & Hi). apply in_seq in Hi.
    rewrite high_bit_land; [reflexivity|]. apply Hhard. lia. }
  pose proof (pubkey32_length
    (snd (crypto_parse_path (Z.of_nat n :: body) bip32_path_zero)) (pubkey st))
    as Hlen.
  rewrite Hderive in Hlen. cbn [snd] in Hlen.
  assert (Hgen : forall d,
            crypto_parse_path d bip32_path_zero
            = crypto_parse_path (Z.of_nat n :: body) bip32_path_zero ->
            (1 <= length d)%nat ->
            handle_get_public_key st (mk_apdu (cla a) (ins a) (p1 a) (p2 a) d)
            = (SW_OK, pk, set_pubkey pk st)).
  { intros d Hd Hlc. unfold handle_get_public_key, lc. cbn [data].
    destruct (Z.ltb_spec (Z.of_nat (length d)) 1); [lia|].
    rewrite Hd.
    destruct (crypto_parse_path (Z.of_nat n :: body) bip32_path_zero)
      as [path_bytes p] eqn:Ep.
    cbn [fst snd] in *.
    destruct (Z.eqb_spec path_bytes 0); [cbn [length] in Hreq; lia|].
    rewrite Hvalid. cbn [negb]. rewrite Hderive. cbn [negb].
    cbn [pubkey set_pubkey]. rewrite firstn_all2 by lia. reflexivity. }
  assert (Ea : a = mk_apdu (cla a) (ins a) (p1 a) (p2 a)
                       ((Z.of_nat n :: body) ++ trailing))
    by (destruct a; cbn in *; congruence).
  split; [|split; [exact Hlen|]].
  - rewrite Ea. cbn [cla ins p1 p2]. apply Hgen; [exact Happ|].
    rewrite length_app. cbn [length]. lia.
  - rewrite Ea at 1. cbn [cla ins p1 p2].
    rewrite !Hgen; try reflexivity; try exact Happ; cbn [length]; try lia.
    rewrite length_app. cbn [length]. lia.
Qed.

End SessionProps.

(** ** The properties at concrete commands, with the host primitives *)

Lemma boot_reachable : reachable boot_state.
Proof. exact (reach_boot boot_state). Defined.

Lemma streaming_reachable : reachable streaming_state.
Proof.
  exact (reach_apdu ui_auto_approve boot_state apdu_first_more boot_reachable).
Defined.

Lemma sign_tx_needs_approval_witness :
  (exists d st1, sign_tx_until_approval boot_state apdu_sign_s1 = Ask d st1) /\
  fst (fst (handle_sign_tx ui_reject boot_state apdu_sign_s1)) = SW_USER_REJECTED /\
  snd (fst (handle_sign_tx ui_reject boot_state apdu_sign_s1)) = [] /\
  length (snd (fst (handle_sign_tx ui_auto_approve boot_state apdu_sign_s1)))
  = SIGNATURE_LEN.
Proof.
  assert (Hask : exists d st1,
             sign_tx_until_approval boot_state apdu_sign_s1 = Ask d st1)
    by (vm_compute; eauto).
  split; [exact Hask|]. destruct Hask as (d & st1 & Hask).
  destruct (sign_tx_needs_approval ui_reject boot_state apdu_sign_s1) as (Hrej & _).
  destruct (Hrej d st1 Hask (or_introl eq_refl)) as (H1 & H2 & _).
  split; [exact H1|]. split; [exact H2|].
  destruct (sign_tx_needs_approval ui_auto_approve boot_state apdu_sign_s1)
    as (_ & Hsig).
  apply Hsig. vm_compute. discriminate.
Defined.

(** C2 fails as stated: with a session streaming, a first chunk is accepted
    with 0x9000 and opens a new session. *)
Lemma first_chunk_while_streaming_accepted :
  initialized (sign_session streaming_state) = true /\
  last_chunk_received (sign_session streaming_state) = false /\
  p1 apdu_first_more = P1_FIRST_CHUNK /\
  fst (fst (handle_sign_tx ui_auto_approve streaming_state apdu_first_more))
  = SW_OK /\
  fst (fst (handle_sign_tx ui_auto_approve streaming_state apdu_first_more))
  <> SW_SESSION_ERROR /\
  sign_session (snd (handle_sign_tx ui_auto_approve streaming_state apdu_first_more))
  <> sign_session_zero.
Proof.
  repeat split; try (vm_compute; reflexivity); vm_compute; discriminate.
Qed.

Lemma first_chunk_restarts_session_witness :
  initialized (sign_session streaming_state) = true /\
  p1 apdu_first_more = P1_FIRST_CHUNK /\
  handle_sign_tx ui_auto_approve streaming_state apdu_first_more
  = handle_sign_tx ui_auto_approve (reset_sign_session streaming_state)
      apdu_first_more.
Proof.
  assert (H1 : initialized (sign_session streaming_state) = true) by reflexivity.
  assert (H2 : p1 apdu_first_more = P1_FIRST_CHUNK) by reflexivity.
  split; [exact H1|]. split; [exact H2|].
  exact (proj1 (first_chunk_restarts_session ui_auto_approve streaming_state
                  apdu_first_more H1 H2)).
Defined.

(** C3 fails as stated: with a session streaming, a call with [apdu] NULL
    returns 0x6F00, an error status, and the session is still the live one. *)
Lemma null_apdu_exit_keeps_session :
  reachable streaming_state /\
  fst (fst (handle_sign_tx_call ui_auto_approve streaming_state None TX_BUFFER))
  = SW_INTERNAL_ERROR /\
  SW_INTERNAL_ERROR <> SW_OK /\
  snd (handle_sign_tx_call ui_auto_approve streaming_state None TX_BUFFER)
  = streaming_state /\
  initialized (sign_session streaming_state) = true /\
  session_path (sign_session streaming_state) <> bip32_path_zero /\
  sign_session streaming_state <> sign_session_zero.
Proof.
  split; [exact streaming_reachable|].
  repeat split; try reflexivity; vm_compute; discriminate.
Qed.

Lemma error_exit_zeroizes_session_witness :
  reachable streaming_state /\
  fst (fst (handle_sign_tx_call ui_reject streaming_state
              (Some apdu_continue_last) TX_BUFFER))
  = SW_USER_REJECTED /\
  sign_session (snd (handle_sign_tx_call ui_reject streaming_state
                       (Some apdu_continue_last) TX_BUFFER))
  = sign_session_zero.
Proof.
  split; [exact streaming_reachable|]. split; [reflexivity|].
  assert (Hsw : fst (fst (handle_sign_tx_call ui_reject streaming_state
                            (Some apdu_continue_last) TX_BUFFER)) <> SW_OK)
    by (vm_compute; discriminate).
  destruct (error_exit_zeroizes_session ui_reject streaming_state
              (Some apdu_continue_last) TX_BUFFER streaming_reachable Hsw)
    as (Hvalid & _).
  apply Hvalid; [discriminate | reflexivity].
Defined.

(** C9 fails as stated: with a session streaming, a call with [tx] NULL
    returns 0x6F00, which is not 0x9000, and [initialized] is still set on
    a session that is not zero. *)
Lemma null_tx_exit_keeps_initialized :
  reachable streaming_state /\
  fst (fst (handle_sign_tx_call ui_auto_approve streaming_state
              (Some apdu_continue_last) TX_NULL))
  = SW_INTERNAL_ERROR /\
  SW_INTERNAL_ERROR <> SW_OK /\
  initialized
    (sign_session (snd (handle_sign_tx_call ui_auto_approve streaming_state
                          (Some apdu_continue_last) TX_NULL))) = true /\
  sign_session (snd (handle_sign_tx_call ui_auto_approve streaming_state
                       (Some apdu_continue_last) TX_NULL))
  <> sign_session_zero.
Proof.
  split; [exact streaming_reachable|].
  repeat split; try reflexivity; vm_compute; discriminate.
Qed.

Lemma initialized_iff_more_chunks_witness :
  reachable boot_state /\
  initialized (sign_session (snd (handle_sign_tx_call ui_auto_approve boot_state
                                    (Some apdu_first_more) TX_BUFFER))) = true /\
  sign_session (snd (handle_sign_tx_call ui_auto_approve boot_state
                       (Some apdu_sign_s1) TX_BUFFER))
  = sign_session_zero.
Proof.
  split; [exact boot_reachable|]. split.
  - apply (proj1 (initialized_iff_more_chunks ui_auto_approve boot_state
                    apdu_first_more None TX_NULL boot_reachable)).
    split; reflexivity.
  - apply (proj1 (initialized_iff_more_chunks ui_auto_approve boot_state
                    apdu_sign_s1 None TX_NULL boot_reachable)).
    intros (_ & H). vm_compute in H. discriminate.
Defined.

Lemma get_public_key_ignores_trailing_witness :
  handle_get_public_key boot_state apdu_pubkey_trailing
  = (SW_OK, repeat 0x42 PUBKEY_LEN, set_pubkey (repeat 0x42 PUBKEY_LEN) boot_state)
  /\ lc apdu_pubkey_trailing = 1 + 4 * 5 + 3.
Proof.
  split; [|reflexivity].
  apply (get_public_key_ignores_trailing boot_state apdu_pubkey_trailing 5
           (tl path_s1_wire) [0xDE; 0xAD; 0xBF] (repeat 0x42 PUBKEY_LEN)).
  - reflexivity.
  - lia.
  - reflexivity.
  - intros i Hi.
    do 5 (destruct i as [|i]; [vm_compute; reflexivity|]). lia.
  - reflexivity.
Defined.

(** * Further properties of the code *)

(** ** tx_parser.c: what [tx_parser_consume] returns *)

Lemma process_complete_field_total c :
  total_consumed (snd (process_complete_field c)) = total_consumed c.
Proof.
  unfold process_complete_field.
  destruct (state c); cbn; try reflexivity.
  - destruct (buf_at (scratch c) 0 =? 1); reflexivity.
  - destruct (buf_at (scratch c) 0 =? TX_TYPE_TRANSFER); reflexivity.
Qed.

Lemma usize_nonneg x : 0 <= usize x.
Proof. unfold usize. apply Z.mod_pos_bound. lia. Qed.

Lemma consume_loop_count fuel : forall ctx rest n,
  let r := consume_loop fuel ctx rest n in
  snd r - n = total_consumed (fst r) - total_consumed ctx /\
  n <= snd r <= n + Z.of_nat (length rest).
Proof.
  induction fuel as [|fuel IH]; intros ctx rest n; cbv zeta.
  { cbn. lia. }
  destruct rest as [|b tl]; [cbn; lia|].
  cbn [consume_loop].
  destruct (is_terminal (state ctx)); [cbn [fst snd]; lia|].
  destruct (total_consumed ctx >=? MAX_TX_SIZE); [cbn; lia|].
  destruct (get_field_size (state ctx) =? 0); [cbn; lia|].
  set (rest := b :: tl).
  set (needed := usize (get_field_size (state ctx) - field_offset ctx)).
  set (available := Z.of_nat (length rest)).
  set (take := if available <? needed then available else needed).
  assert (Hav : 1 <= available) by (subst available rest; cbn [length]; lia).
  assert (Htake : 0 <= take <= available).
  { pose proof (usize_nonneg (get_field_size (state ctx) - field_offset ctx)).
    subst take. fold needed in H. destruct (Z.ltb_spec available needed); lia. }
  destruct (field_offset ctx + take >? 32); [cbn; lia|].
  set (ctx1 := mk_parser _ _ _ _ _).
  assert (Lrest : Z.of_nat (length (skipn (Z.to_nat take) rest)) = available - take).
  { rewrite length_skipn. subst available. lia. }
  assert (T1 : total_consumed ctx1 = total_consumed ctx + take) by reflexivity.
  destruct (field_offset ctx1 >=? get_field_size (state ctx)).
  - pose proof (process_complete_field_total ctx1) as Hp.
    destruct (process_complete_field ctx1) as [[|] c2]; cbn [snd] in Hp.
    + specialize (IH c2 (skipn (Z.to_nat take) rest) (n + take)). cbv zeta in IH.
      rewrite Lrest in IH. lia.
    + cbn [fst snd set_state total_consumed]. fold available. lia.
  - specialize (IH ctx1 (skipn (Z.to_nat take) rest) (n + take)). cbv zeta in IH.
    rewrite Lrest in IH. fold available. lia.
Qed.

Lemma consume_count ctx data :
  snd (tx_parser_consume ctx data)
  = total_consumed (fst (tx_parser_consume ctx data)) - total_consumed ctx /\
  0 <= snd (tx_parser_consume ctx data) <= Z.of_nat (length data).
Proof.
  unfold tx_parser_consume.
  destruct (is_terminal (state ctx)); [cbn; lia|].
  pose proof (consume_loop_count (length data + 10) ctx data 0) as H.
  cbv zeta in H. lia.
Qed.

(** X1. Whatever the context, [tx_parser_consume] returns the number of
    bytes by which [total_consumed] grew, a number between 0 and
    [data_len]. *)
Theorem consume_returns_absorbed ctx data :
  let r := tx_parser_consume ctx data in
  snd r = total_consumed (fst r) - total_consumed ctx /\
  0 <= snd r <= Z.of_nat (length data).
Proof. exact (consume_count ctx data). Qed.

(** ** tx_parser.c: contexts that started from [tx_parser_init] *)

Ltac wire_hyps H :=
  let Hni := fresh "Hni" in
  let Htot := fresh "Htot" in
  let Herr := fresh "Herr" in
  let Hdone := fresh "Hdone" in
  let Hver := fresh "Hver" in
  let Hty := fresh "Hty" in
  destruct H as (Hni & Htot & Herr & Hdone & Hver & Hty);
  try specialize (Htot ltac:(discriminate));
  try specialize (Herr eq_refl);
  try specialize (Hdone eq_refl);
  try specialize (Hver eq_refl);
  try specialize (Hty eq_refl).

Ltac wire_cbn :=
  cbn [field_start version_checked tx_type_checked state field_offset
       total_consumed parsed scratch set_state set_field_offset set_parsed
       version tx_type set_version set_chain_id set_sender set_nonce
       set_gas_price set_gas_limit set_tx_type set_recipient set_amount
       set_fee tx_parser_compute_fee tx_parser_init fst snd negb] in *.

Ltac wire_goal :=
  unfold wire_ok; wire_cbn; field_sizes;
  repeat split; intros; try discriminate; try congruence; try lia.

Lemma tx_parser_init_wire : wire_ok tx_parser_init.
Proof. wire_goal. Qed.

Lemma wire_total_bound ctx :
  parser_inv ctx -> wire_ok ctx -> 0 <= total_consumed ctx <= 82.
Proof.
  intros (_ & _ & Hoff) Hw. destruct ctx as [s off scr p tot].
  unfold wire_ok in Hw. cbn [state field_offset total_consumed parsed] in *.
  destruct s; wire_hyps Hw; try congruence; try lia;
    wire_cbn; field_sizes; try specialize (Hoff ltac:(lia)); lia.
Qed.

Lemma wire_absorbed ctx chunk :
  parser_inv ctx -> wire_ok ctx -> get_field_size (state ctx) <> 0 ->
  field_offset ctx + Z.of_nat (length chunk) < get_field_size (state ctx) ->
  parser_inv (absorbed ctx chunk) /\ wire_ok (absorbed ctx chunk).
Proof.
  intros Hinv Hw Hfs Hk.
  destruct (absorbed_inv ctx chunk Hinv Hfs) as (L1 & T1); [lia|].
  pose proof Hinv as (_ & _ & Hoff). specialize (Hoff Hfs).
  split.
  - split; [exact L1|]. split; [exact T1|]. intros _.
    unfold absorbed. cbn [state field_offset]. lia.
  - destruct ctx as [s off scr p tot]. unfold absorbed in *.
    cbn [state field_offset total_consumed parsed scratch] in *.
    unfold wire_ok in Hw. cbn [state field_offset total_consumed parsed] in Hw.
    destruct s; field_sizes; try congruence; wire_hyps Hw; wire_goal.
Qed.

Lemma wire_completed ctx chunk :
  parser_inv ctx -> wire_ok ctx -> get_field_size (state ctx) <> 0 ->
  field_offset ctx + Z.of_nat (length chunk) = get_field_size (state ctx) ->
  parser_inv (completed (absorbed ctx chunk)) /\
  wire_ok (completed (absorbed ctx chunk)).
Proof.
  intros Hinv Hw Hfs Hk.
  destruct (absorbed_inv ctx chunk Hinv Hfs) as (L1 & T1); [lia|].
  split; [apply completed_inv; assumption|].
  destruct ctx as [s off scr p tot].
  unfold completed, process_complete_field, absorbed in *.
  cbn [state field_offset total_consumed parsed scratch] in *.
  unfold wire_ok in Hw. cbn [state field_offset total_consumed parsed] in Hw.
  destruct s; field_sizes; try congruence; wire_hyps Hw;
    cbn [state field_offset total_consumed parsed scratch
         set_parsed set_state set_field_offset];
    try solve [wire_goal].
  - cbn [version set_version negb].
    destruct (Z.eqb_spec (buf_at (memcpy_at scr (Z.to_nat off) chunk) 0) 1);
      wire_goal.
  - cbn [tx_type set_tx_type].
    destruct (Z.eqb_spec (buf_at (memcpy_at scr (Z.to_nat off) chunk) 0)
                         TX_TYPE_TRANSFER); wire_goal.
Qed.

Lemma active_field_size s :
  s <> TX_PARSE_STATE_INIT -> is_terminal s = false -> get_field_size s <> 0.
Proof. destruct s; cbn [is_terminal]; field_sizes; congruence || lia. Qed.

Lemma feed_wire ctx b :
  parser_inv ctx -> wire_ok ctx ->
  parser_inv (feed ctx b) /\ wire_ok (feed ctx b).
Proof.
  intros Hinv Hw.
  destruct (is_terminal (state ctx)) eqn:Hterm.
  { rewrite feed_terminal by exact Hterm. auto. }
  rewrite (feed_unfold _ _ Hinv Hterm).
  pose proof (wire_total_bound ctx Hinv Hw) as Hb.
  destruct (Z.geb_spec (total_consumed ctx) MAX_TX_SIZE);
    [unfold MAX_TX_SIZE in *; lia|].
  destruct (Z.eqb_spec (get_field_size (state ctx)) 0) as [Hfs|Hfs].
  { exfalso. destruct Hw as (Hni & _).
    exact (active_field_size _ Hni Hterm Hfs). }
  cbv zeta. pose proof Hinv as (_ & _ & Hoff). specialize (Hoff Hfs).
  change (field_offset (absorbed ctx [b])) with (field_offset ctx + 1).
  destruct (Z.geb_spec (field_offset ctx + 1) (get_field_size (state ctx))).
  - apply wire_completed; try assumption; cbn [length]; lia.
  - apply wire_absorbed; try assumption; cbn [length]; lia.
Qed.

Lemma fold_feed_wire l : forall ctx,
  parser_inv ctx -> wire_ok ctx ->
  parser_inv (fold_left feed l ctx) /\ wire_ok (fold_left feed l ctx).
Proof.
  induction l as [|b l IH]; intros ctx Hinv Hw; cbn [fold_left]; [auto|].
  destruct (feed_wire ctx b Hinv Hw) as (H1 & H2). apply IH; assumption.
Qed.

(** On such a context the size cap is out of reach, and a call of any
    length has the effect of its bytes given one at a time. *)
Lemma consume_loop_feed_wire fuel : forall ctx rest n,
  parser_inv ctx -> wire_ok ctx -> (length rest <= fuel)%nat ->
  fst (consume_loop fuel ctx rest n) = fold_left feed rest ctx.
Proof.
  induction fuel as [|fuel IH]; intros ctx rest n Hinv Hw Hfuel.
  { destruct rest; [reflexivity|cbn [length] in Hfuel; lia]. }
  destruct rest as [|b tl]; [reflexivity|].
  destruct (is_terminal (state ctx)) eqn:Hterm.
  { rewrite consume_loop_S, Hterm. cbn [fst].
    symmetry. apply fold_feed_terminal, Hterm. }
  pose proof (wire_total_bound ctx Hinv Hw) as Hb.
  assert (Hlt : total_consumed ctx < MAX_TX_SIZE) by (unfold MAX_TX_SIZE; lia).
  assert (Hfs : get_field_size (state ctx) <> 0)
    by (apply active_field_size; [apply Hw|exact Hterm]).
  rewrite (consume_loop_step fuel ctx b tl n Hinv Hlt Hfs). cbv zeta.
  pose proof Hinv as (Hlen & Htot & Hoff). specialize (Hoff Hfs).
  destruct (get_field_size_range (state ctx)) as [?|Hr]; [contradiction|].
  set (fs := get_field_size (state ctx)) in *.
  set (rest := b :: tl) in *.
  set (k := Z.min (Z.of_nat (length rest)) (fs - field_offset ctx)).
  assert (Hav : 1 <= Z.of_nat (length rest)) by (subst rest; cbn [length]; lia).
  assert (Hk : 1 <= k <= fs - field_offset ctx /\ k <= Z.of_nat (length rest))
    by (subst k; lia).
  set (chunk := firstn (Z.to_nat k) rest).
  assert (Lchunk : Z.of_nat (length chunk) = k).
  { subst chunk. rewrite length_firstn, Nat.min_l by lia. lia. }
  assert (Lrest : (length (skipn (Z.to_nat k) rest) <= fuel)%nat).
  { rewrite length_skipn. lia. }
  replace (fold_left feed rest ctx)
    with (fold_left feed (chunk ++ skipn (Z.to_nat k) rest) ctx)
    by (subst chunk; rewrite firstn_skipn; reflexivity).
  rewrite fold_left_app.
  rewrite (fold_feed_field chunk ctx Hinv Hfs); fold fs;
    try (unfold MAX_TX_SIZE; lia).
  2:{ intros E. rewrite E in Lchunk. cbn in Lchunk. lia. }
  rewrite Lchunk.
  destruct (Z.geb_spec (field_offset ctx + k) fs) as [Hge|Hlt2].
  - destruct (wire_completed ctx chunk Hinv Hw Hfs) as (Hi2 & Hw2);
      [fold fs; lia|].
    unfold completed in *.
    destruct (process_complete_field (absorbed ctx chunk)) as [[|] c2].
    + apply IH; assumption.
    + cbn [fst]. symmetry. apply fold_feed_terminal. reflexivity.
  - destruct (wire_absorbed ctx chunk Hinv Hw Hfs) as (Hi2 & Hw2);
      [fold fs; lia|].
    apply IH; assumption.
Qed.

Lemma consume_feed_wire ctx data :
  parser_inv ctx -> wire_ok ctx ->
  fst (tx_parser_consume ctx data) = fold_left feed data ctx.
Proof.
  intros Hinv Hw. unfold tx_parser_consume.
  destruct (is_terminal (state ctx)) eqn:Hterm.
  - symmetry. apply fold_feed_terminal, Hterm.
  - apply consume_loop_feed_wire; [assumption..|lia].
Qed.

Lemma consume_chunks_wire chunks : forall ctx,
  parser_inv ctx -> wire_ok ctx ->
  consume_chunks ctx chunks = fold_left feed (concat chunks) ctx.
Proof.
  induction chunks as [|c chunks IH]; intros ctx Hinv Hw; [reflexivity|].
  unfold consume_chunks in *. cbn [fold_left concat].
  rewrite fold_left_app, consume_feed_wire by assumption.
  destruct (fold_feed_wire c ctx Hinv Hw) as (H1 & H2).
  apply IH; assumption.
Qed.

(** X2. Whatever chunks a freshly initialised parser is given, it absorbs
    82 bytes at most; when it reports done it has absorbed exactly 82, the
    version it stored is 1 and the tx_type it stored is Transfer; and the
    chunk boundaries do not matter. *)
Theorem fresh_parser_bounded (chunks : list (list Z)) :
  let ctx := consume_chunks tx_parser_init chunks in
  0 <= total_consumed ctx <= 82 /\
  (tx_parser_is_done ctx = true ->
   total_consumed ctx = 82 /\ version (parsed ctx) = 1 /\
   tx_type (parsed ctx) = TX_TYPE_TRANSFER) /\
  ctx = fst (tx_parser_consume tx_parser_init (concat chunks)).
Proof.
  cbv zeta.
  rewrite consume_chunks_wire, consume_feed_wire
    by (apply tx_parser_init_inv || apply tx_parser_init_wire).
  destruct (fold_feed_wire (concat chunks) tx_parser_init
              tx_parser_init_inv tx_parser_init_wire) as (Hinv & Hw).
  split; [apply wire_total_bound; assumption|]. split; [|reflexivity].
  unfold tx_parser_is_done. intros Hd.
  destruct (state (fold_left feed (concat chunks) tx_parser_init)) eqn:E;
    try discriminate.
  destruct Hw as (_ & Htot & _ & Hdone & Hver & Hty). rewrite E in *.
  specialize (Htot ltac:(discriminate)). specialize (Hdone eq_refl).
  cbn [field_start] in Htot.
  split; [lia|]. split; [apply Hver|apply Hty]; reflexivity.
Qed.

(** ** tx_parser.c: rejected and over-long input *)

Lemma consume_init_feed data :
  fst (tx_parser_consume tx_parser_init data) = fold_left feed data tx_parser_init.
Proof. apply consume_feed_wire; [apply tx_parser_init_inv|apply tx_parser_init_wire]. Qed.

(** The count returned on a fresh parser is the final [total_consumed]. *)
Lemma consume_init_count data :
  snd (tx_parser_consume tx_parser_init data)
  = total_consumed (fold_left feed data tx_parser_init).
Proof.
  destruct (consume_count tx_parser_init data) as (H & _).
  rewrite H, consume_init_feed. cbn [tx_parser_init total_consumed]. lia.
Qed.

Lemma fold_left_cons {A B} (f : A -> B -> A) b tl a :
  fold_left f (b :: tl) a = fold_left f tl (f a b).
Proof. reflexivity. Qed.

Lemma bad_version_error (b : Z) (tl : list Z) :
  b <> 1 ->
  let r := tx_parser_consume tx_parser_init (b :: tl) in
  tx_parser_has_error (fst r) = true /\ snd r = 1 /\
  version (parsed (fst r)) = b /\ total_consumed (fst r) = 1.
Proof.
  intros Hb. cbv zeta. rewrite consume_init_count, consume_init_feed.
  rewrite fold_left_cons.
  assert (E : feed tx_parser_init b = completed (absorbed tx_parser_init [b])).
  { rewrite feed_unfold; [reflexivity|apply tx_parser_init_inv|reflexivity]. }
  rewrite E. unfold completed, process_complete_field, absorbed.
  cbn [tx_parser_init state scratch parsed field_offset total_consumed length
       Z.to_nat memcpy_at firstn app buf_at nth set_parsed set_version version].
  destruct (Z.eqb_spec b 1) as [|_]; [contradiction|]. cbn [negb].
  rewrite fold_feed_terminal by reflexivity.
  repeat split.
Qed.

(** X3. A transaction whose first byte is not 1 puts a fresh parser into the
    error state: [tx_parser_consume] stores that byte as the version,
    returns 1, and absorbs nothing of what follows. *)
Theorem bad_version_rejected (b : Z) (tl : list Z) :
  b <> 1 ->
  let r := tx_parser_consume tx_parser_init (b :: tl) in
  tx_parser_has_error (fst r) = true /\ snd r = 1 /\
  version (parsed (fst r)) = b /\ total_consumed (fst r) = 1.
Proof. exact (bad_version_error b tl). Qed.

Lemma bad_version_rejected_witness :
  2 <> 1 /\ snd (tx_parser_consume tx_parser_init (2 :: skipn 1 tx_s1)) = 1.
Proof.
  split; [discriminate|].
  apply (bad_version_rejected 2 (skipn 1 tx_s1)). discriminate.
Defined.

(** The decoding of a whole Transfer, in the form the later proofs use. *)
Lemma transfer_parse (data : list Z) :
  valid_transfer data ->
  let c := fst (tx_parser_consume tx_parser_init data) in
  state c = TX_PARSE_STATE_DONE /\
  snd (tx_parser_consume tx_parser_init data) = 82 /\
  version (parsed c) = 1 /\
  chain_id (parsed c) = le_value (wire_field data OFF_CHAIN_ID 8) /\
  sender (parsed c) = wire_field data OFF_SENDER 20 /\
  nonce (parsed c) = le_value (wire_field data OFF_NONCE 8) /\
  gas_price (parsed c) = le_value (wire_field data OFF_GAS_PRICE 8) /\
  gas_limit (parsed c) = le_value (wire_field data OFF_GAS_LIMIT 8) /\
  tx_type (parsed c) = TX_TYPE_TRANSFER /\
  recipient (parsed c) = wire_field data OFF_RECIPIENT 20 /\
  amount (parsed c) = le_value (wire_field data OFF_AMOUNT 8) /\
  parsed c
  = tx_parser_compute_fee
      (mk_parsed 1 (chain_id (parsed c)) (sender (parsed c)) (nonce (parsed c))
         (gas_price (parsed c)) (gas_limit (parsed c)) TX_TYPE_TRANSFER
         (recipient (parsed c)) (amount (parsed c)) false 0 0).
Proof.
  intros (Hlen & Hbytes & Hver & Hty). unfold TRANSFER_LEN in Hlen.
  explode_list data.
  cbn [nth OFF_VERSION OFF_TX_TYPE] in Hver, Hty. subst.
  unfold bytes_ok in Hbytes. explode_forall.
  cbv zeta.
  match goal with
  | |- context [tx_parser_consume ?c ?d] =>
      let t := eval cbv -[read_u64_le tx_parser_compute_fee] in
               (tx_parser_consume c d) in
      change (tx_parser_consume c d) with t
  end.
  cbn [fst snd state parsed].
  unfold tx_parser_compute_fee, set_fee.
  cbn [version chain_id sender nonce gas_price gas_limit tx_type recipient amount].
  unfold wire_field, OFF_CHAIN_ID, OFF_SENDER, OFF_NONCE, OFF_GAS_PRICE,
    OFF_GAS_LIMIT, OFF_RECIPIENT, OFF_AMOUNT.
  cbn [firstn skipn].
  repeat split; try reflexivity; apply read_u64_le_value; assumption.
Qed.

Lemma bad_tx_type_error (pre : list Z) (t : Z) (tl : list Z) :
  length pre = 53%nat -> nth 0 pre 0 = 1 -> t <> TX_TYPE_TRANSFER ->
  let r := tx_parser_consume tx_parser_init (pre ++ t :: tl) in
  tx_parser_has_error (fst r) = true /\ snd r = 54 /\
  tx_type (parsed (fst r)) = t /\ total_consumed (fst r) = 54.
Proof.
  intros Hlen Hver Ht. cbv zeta.
  rewrite consume_init_count, consume_init_feed.
  rewrite fold_left_app, fold_left_cons, <- consume_init_feed.
  explode_list pre. cbn [nth] in Hver. subst.
  match goal with
  | |- context [tx_parser_consume ?c ?d] =>
      let v := eval cbv -[read_u64_le tx_parser_compute_fee] in
               (fst (tx_parser_consume c d)) in
      change (fst (tx_parser_consume c d)) with v
  end.
  match goal with |- context [feed ?c t] => set (c53 := c) end.
  assert (Hinv : parser_inv c53).
  { subst c53. split; [reflexivity|]. split; cbn; field_sizes; lia. }
  assert (E : feed c53 t = completed (absorbed c53 [t])).
  { rewrite feed_unfold; [reflexivity|exact Hinv|reflexivity]. }
  rewrite E. unfold completed, process_complete_field, absorbed.
  subst c53.
  cbn [state scratch parsed field_offset total_consumed length
       Z.to_nat memcpy_at firstn app buf_at nth set_parsed set_tx_type tx_type].
  destruct (Z.eqb_spec t TX_TYPE_TRANSFER) as [|_]; [contradiction|].
  rewrite fold_feed_terminal by reflexivity.
  repeat split.
Qed.

(** X4. A transaction whose tx_type byte (offset 53) is not Transfer puts a
    fresh parser into the error state at that byte: [tx_parser_consume]
    returns 54 and absorbs nothing of what follows. *)
Theorem bad_tx_type_rejected (pre : list Z) (t : Z) (tl : list Z) :
  length pre = 53%nat -> nth 0 pre 0 = 1 -> t <> TX_TYPE_TRANSFER ->
  let r := tx_parser_consume tx_parser_init (pre ++ t :: tl) in
  tx_parser_has_error (fst r) = true /\ snd r = 54 /\
  tx_type (parsed (fst r)) = t /\ total_consumed (fst r) = 54.
Proof. exact (bad_tx_type_error pre t tl). Qed.

Lemma bad_tx_type_rejected_witness :
  length (firstn 53 tx_s1) = 53%nat /\ nth 0 (firstn 53 tx_s1) 0 = 1 /\
  7 <> TX_TYPE_TRANSFER /\
  snd (tx_parser_consume tx_parser_init (firstn 53 tx_s1 ++ 7 :: skipn 54 tx_s1))
  = 54.
Proof.
  assert (H1 : length (firstn 53 tx_s1) = 53%nat) by reflexivity.
  assert (H2 : nth 0 (firstn 53 tx_s1) 0 = 1) by reflexivity.
  assert (H3 : 7 <> TX_TYPE_TRANSFER) by discriminate.
  split; [exact H1|]. split; [exact H2|]. split; [exact H3|].
  apply (bad_tx_type_rejected (firstn 53 tx_s1) 7 (skipn 54 tx_s1) H1 H2 H3).
Defined.

Lemma transfer_fold_done tx :
  valid_transfer tx ->
  state (fold_left feed tx tx_parser_init) = TX_PARSE_STATE_DONE /\
  total_consumed (fold_left feed tx tx_parser_init) = 82.
Proof.
  intros Hv. destruct (transfer_parse tx Hv) as (Hd & Hn & _).
  rewrite consume_init_count in Hn. rewrite consume_init_feed in Hd. auto.
Qed.

(** X5. Bytes that follow a complete Transfer in the same call are not
    absorbed: the parser ends in the context of the Transfer alone and
    [tx_parser_consume] returns 82, less than the length it was given. *)
Theorem trailing_bytes_not_absorbed (tx extra : list Z) :
  valid_transfer tx ->
  tx_parser_consume tx_parser_init (tx ++ extra)
  = (fst (tx_parser_consume tx_parser_init tx), 82).
Proof.
  intros Hv. destruct (transfer_fold_done tx Hv) as (Hd & Ht).
  assert (E : fold_left feed (tx ++ extra) tx_parser_init
              = fold_left feed tx tx_parser_init).
  { rewrite fold_left_app. apply fold_feed_terminal. rewrite Hd. reflexivity. }
  rewrite (surjective_pairing (tx_parser_consume tx_parser_init (tx ++ extra))).
  rewrite consume_init_count, !consume_init_feed, E, Ht. reflexivity.
Qed.

Lemma trailing_bytes_not_absorbed_witness :
  valid_transfer tx_s1 /\
  snd (tx_parser_consume tx_parser_init (tx_s1 ++ [0xEE; 0xFF])) = 82.
Proof.
  split; [exact tx_s1_valid|].
  rewrite (trailing_bytes_not_absorbed tx_s1 [0xEE; 0xFF] tx_s1_valid).
  reflexivity.
Defined.

(** ** tx_display.c: decimal strings *)

Lemma digit_char_is_digit d : 0 <= d < 10 -> is_digit (digit_char d).
Proof.
  intros H. unfold is_digit, digit_char. rewrite nat_ascii_embedding by lia. lia.
Qed.

Lemma digit_char_nonzero d :
  0 < d < 10 -> is_char_zero (digit_char d) = false.
Proof.
  intros H. unfold is_char_zero. apply Ascii.eqb_neq. intros E.
  apply (f_equal nat_of_ascii) in E. unfold digit_char in E.
  rewrite nat_ascii_embedding in E by lia. cbn in E. lia.
Qed.

Lemma u64_digits_loop_magnitude fuel : forall v buf m,
  0 <= v < 10 ^ Z.of_nat m ->
  (length (u64_digits_loop fuel v buf) <= length buf + m)%nat.
Proof.
  induction fuel as [|fuel IH]; intros v buf m Hv; cbn [u64_digits_loop]; [lia|].
  destruct (Z.gtb_spec v 0) as [Hpos|]; [|lia].
  destruct m as [|m]; [change (10 ^ Z.of_nat 0) with 1 in Hv; lia|].
  rewrite Nat2Z.inj_succ, Z.pow_succ_r in Hv by lia.
  specialize (IH (v / 10) (buf ++ [digit_char (v mod 10)]) m).
  rewrite length_app in IH. cbn [length] in IH.
  assert (0 <= v / 10 < 10 ^ Z.of_nat m)
    by (split; [apply Z.div_pos; lia|apply Z.div_lt_upper_bound; lia]).
  specialize (IH H). lia.
Qed.

Lemma u64_digits_loop_digits fuel : forall v buf,
  0 <= v -> Forall is_digit buf -> Forall is_digit (u64_digits_loop fuel v buf).
Proof.
  induction fuel as [|fuel IH]; intros v buf Hv Hb; cbn [u64_digits_loop];
    [exact Hb|].
  destruct (v >? 0); [|exact Hb].
  apply IH; [apply Z.div_pos; lia|].
  apply Forall_app. split; [exact Hb|]. constructor; [|constructor].
  apply digit_char_is_digit, Z.mod_pos_bound. lia.
Qed.

(** The most significant digit written is not ['0']. *)
Lemma u64_digits_loop_leading fuel : forall v buf,
  0 <= v < 10 ^ Z.of_nat fuel ->
  (v = 0 -> leading_count is_char_zero (rev buf) = O) ->
  leading_count is_char_zero (rev (u64_digits_loop fuel v buf)) = O.
Proof.
  induction fuel as [|fuel IH]; intros v buf Hv Hz.
  - change (10 ^ Z.of_nat 0) with 1 in Hv. cbn [u64_digits_loop]. apply Hz. lia.
  - cbn [u64_digits_loop]. destruct (Z.gtb_spec v 0) as [Hpos|]; [|apply Hz; lia].
    rewrite Nat2Z.inj_succ, Z.pow_succ_r in Hv by lia.
    apply IH.
    + split; [apply Z.div_pos; lia|apply Z.div_lt_upper_bound; lia].
    + intros Hq. rewrite rev_app_distr. cbn [rev app leading_count].
      assert (Hsmall : v < 10).
      { destruct (Z_lt_ge_dec v 10) as [|Hge]; [assumption|].
        assert (1 <= v / 10) by (apply Z.div_le_lower_bound; lia). lia. }
      rewrite digit_char_nonzero; [reflexivity|].
      rewrite Z.mod_small by lia. lia.
Qed.

Lemma format_u64_decimal_spec v out out_len :
  0 <= v < 2 ^ 64 -> 21 <= out_len ->
  let s := fst (format_u64_decimal v out out_len) in
  let n := snd (format_u64_decimal v out out_len) in
  n = Z.of_nat (length s) /\ 1 <= n <= 20 /\
  decimal_value s = v /\ Forall is_digit s /\
  (v <> 0 -> leading_count is_char_zero s = O).
Proof.
  intros Hv Hout. cbv zeta. unfold format_u64_decimal.
  destruct (Z.eqb_spec out_len 0); [lia|].
  destruct (Z.eqb_spec v 0) as [->|Hnz].
  { destruct (Z.ltb_spec out_len 2); [lia|]. cbn [fst snd].
    repeat split; try reflexivity; try lia; try congruence.
    constructor; [unfold is_digit; cbn; lia|constructor]. }
  pose proof (u64_digits_loop_magnitude 24 v [] 20 ltac:(change (10 ^ Z.of_nat 20) with (10 ^ 20); lia)) as Hlen.
  cbn [length Nat.add] in Hlen.
  assert (Hpos : (1 <= length (u64_digits_loop 24 v []))%nat).
  { change 24%nat with (S 23). cbn [u64_digits_loop].
    destruct (Z.gtb_spec v 0); [|lia].
    pose proof (u64_digits_loop_grows 23 (v / 10) ([] ++ [digit_char (v mod 10)]))
      as G.
    cbn [app length] in G. exact G. }
  destruct (Z.gtb_spec (Z.of_nat (length (u64_digits_loop 24 v [])) + 1) out_len);
    [lia|].
  cbn [fst snd]. rewrite length_rev.
  split; [reflexivity|]. split; [lia|]. split; [|split].
  - rewrite u64_digits_loop_value
      by (change (10 ^ Z.of_nat 24) with (10 ^ 24); lia).
    change (10 ^ Z.of_nat (length (@nil ascii))) with 1.
    change (decimal_value (rev [])) with 0. lia.
  - apply Forall_rev, u64_digits_loop_digits; [lia|constructor].
  - intros _. apply u64_digits_loop_leading;
      [change (10 ^ Z.of_nat 24) with (10 ^ 24); lia|lia].
Qed.

(** X6. For a 64-bit value and a buffer of at least 21 bytes,
    [format_u64_decimal] writes the decimal representation of the value:
    between 1 and 20 digits that denote it, without a leading zero unless
    the value is 0, and it returns their number. *)
Theorem format_u64_decimal_correct v out out_len :
  0 <= v < 2 ^ 64 -> 21 <= out_len ->
  let s := fst (format_u64_decimal v out out_len) in
  let n := snd (format_u64_decimal v out out_len) in
  n = Z.of_nat (length s) /\ 1 <= n <= 20 /\
  decimal_value s = v /\ Forall is_digit s /\
  (v <> 0 -> leading_count is_char_zero s = O).
Proof. exact (format_u64_decimal_spec v out out_len). Qed.

Lemma format_u64_decimal_correct_witness :
  0 <= 18446744073709551615 < 2 ^ 64 /\ 21 <= 21 /\
  snd (format_u64_decimal 18446744073709551615 [] 21) = 20 /\
  decimal_value (fst (format_u64_decimal 18446744073709551615 [] 21))
  = 18446744073709551615.
Proof.
  assert (H1 : 0 <= 18446744073709551615 < 2 ^ 64) by lia.
  assert (H2 : 21 <= 21) by lia.
  destruct (format_u64_decimal_correct 18446744073709551615 [] 21 H1 H2)
    as (_ & _ & Hv & _).
  split; [exact H1|]. split; [exact H2|]. split; [reflexivity|exact Hv].
Defined.

Lemma format_u64_decimal_numeral v out out_len :
  0 <= v < 2 ^ 64 -> 21 <= out_len ->
  decimal_of (fst (format_u64_decimal v out out_len)) v /\
  snd (format_u64_decimal v out out_len) <> 0.
Proof.
  intros Hv Hout.
  destruct (format_u64_decimal_spec v out out_len Hv Hout)
    as (Hn & Hrange & Hval & Hdig & Hlead).
  cbv zeta in *. split; [|lia]. unfold decimal_of.
  split; [exact Hdig|]. split; [lia|]. split; [exact Hval|].
  split; [exact Hlead|].
  intros ->. unfold format_u64_decimal.
  destruct (Z.eqb_spec out_len 0); [lia|]. cbn [Z.eqb].
  destruct (Z.ltb_spec out_len 2); [lia|]. reflexivity.
Qed.

(** X7. On the fee that [tx_parser_compute_fee] stores for 64-bit gas
    values, [format_fee] with the display's 40-byte buffer writes the
    decimal representation of [gas_price * gas_limit] when the product fits
    64 bits (1 to 20 digits that denote it, no leading zero, ["0"] for 0),
    and ["Overflow"] when it does not. *)
Theorem computed_fee_string (p : tx_parsed_t) (out : list ascii) :
  0 <= gas_price p < 2 ^ 64 -> 0 <= gas_limit p < 2 ^ 64 ->
  let q := tx_parser_compute_fee p in
  let r := format_fee (fee_low q) (fee_high q) (fee_overflow q) out
                      TX_DISPLAY_FEE_MAX_LEN in
  (gas_price p * gas_limit p < 2 ^ 64 ->
   (decimal_value (fst r) = gas_price p * gas_limit p /\
    snd r = Z.of_nat (length (fst r)) /\ 1 <= snd r) /\
   decimal_of (fst r) (gas_price p * gas_limit p)) /\
  (2 ^ 64 <= gas_price p * gas_limit p -> r = (Literal.overflow_msg, 8)).
Proof.
  intros Ha Hb. cbv zeta.
  destruct (compute_fee_product p Ha Hb) as (E & Rlo & Rhi).
  set (q := tx_parser_compute_fee p) in *.
  assert (Hov : fee_overflow q = negb (fee_high q =? 0)) by reflexivity.
  unfold TX_DISPLAY_FEE_MAX_LEN. split; intros Hprod.
  - assert (Hhi : fee_high q = 0) by nia.
    rewrite Hov, Hhi. cbn [Z.eqb negb].
    replace (gas_price p * gas_limit p) with (fee_low q) by lia.
    split; [apply format_fee_low_part; lia|].
    unfold format_fee. change (40 =? 0) with false. change (0 =? 0) with true.
    cbv iota. apply format_u64_decimal_numeral; [exact Rlo | lia].
  - assert (Hhi : fee_high q <> 0) by nia.
    rewrite Hov. destruct (Z.eqb_spec (fee_high q) 0); [contradiction|].
    cbn [negb]. apply format_fee_overflow_flag. lia.
Qed.

Lemma computed_fee_string_witness :
  0 <= gas_price fee_s1 < 2 ^ 64 /\ 0 <= gas_limit fee_s1 < 2 ^ 64 /\
  decimal_value
    (fst (format_fee (fee_low (tx_parser_compute_fee fee_s1))
            (fee_high (tx_parser_compute_fee fee_s1))
            (fee_overflow (tx_parser_compute_fee fee_s1)) []
            TX_DISPLAY_FEE_MAX_LEN))
  = 21000000.
Proof.
  assert (Ha : 0 <= gas_price fee_s1 < 2 ^ 64) by (cbn; lia).
  assert (Hb : 0 <= gas_limit fee_s1 < 2 ^ 64) by (cbn; lia).
  split; [exact Ha|]. split; [exact Hb|].
  destruct (computed_fee_string fee_s1 [] Ha Hb) as (H & _).
  apply H. cbn. lia.
Defined.

(** ** address.c: Base58 as a number *)

Lemma b58_digit_nth k :
  (k < 58)%nat -> b58_digit (nth k BASE58_ALPHABET zero) = Z.of_nat k.
Proof.
  intros H.
  assert (F : forallb (fun k => index_of (nth k BASE58_ALPHABET zero) BASE58_ALPHABET
                                =? k)%nat (seq 0 58) = true)
    by (vm_compute; reflexivity).
  rewrite forallb_forall in F. specialize (F k). rewrite in_seq in F.
  unfold b58_digit. f_equal. apply Nat.eqb_eq, F. lia.
Qed.

Lemma b58_value_snoc s c : b58_value (s ++ [c]) = b58_value s * 58 + b58_digit c.
Proof. unfold b58_value. rewrite fold_left_app. reflexivity. Qed.

Lemma b58_value_rev ds : b58_value (rev ds) = b58_value_lsb ds.
Proof.
  induction ds as [|c ds IH]; [reflexivity|].
  cbn [rev b58_value_lsb fold_right]. rewrite b58_value_snoc, IH.
  unfold b58_value_lsb. lia.
Qed.

Lemma b58_value_ones z s : b58_value (repeat "1"%char z ++ s) = b58_value s.
Proof.
  unfold b58_value. rewrite fold_left_app. f_equal.
  induction z as [|z IH]; [reflexivity|].
  cbn [repeat]. rewrite fold_left_cons.
  change (0 * 58 + b58_digit "1") with 0. exact IH.
Qed.

(** The digits the outer loop emits denote the number in [live]. *)
Lemma b58_loop_value fuel : forall live acc r,
  bytes_ok live -> b58_loop fuel live acc = Some r ->
  exists ds, r = acc ++ ds /\ b58_value_lsb ds = be_value live.
Proof.
  induction fuel as [|fuel IH]; intros live acc r Hok Hr; [discriminate|].
  destruct live as [|b tl].
  { cbn [b58_loop] in Hr. inversion Hr; subst. exists [].
    rewrite app_nil_r. auto. }
  set (live := b :: tl) in *.
  destruct (div58_loop_spec live 0 Hok ltac:(lia)) as (Hqok & _ & Hc & Hdiv).
  change (b58_loop (S fuel) live acc) with
    (let (quot, carry) := div58_loop live 0 in
     if (MAX_B58_LEN <=? length acc)%nat then None
     else b58_loop fuel (skipn (leading_count is_zero quot) quot)
            (acc ++ [nth (Z.to_nat carry) BASE58_ALPHABET zero])) in Hr.
  destruct (div58_loop live 0) as [quot carry]. cbn [fst snd] in *.
  destruct (MAX_B58_LEN <=? length acc)%nat; [discriminate|].
  apply IH in Hr; [|apply bytes_ok_skipn, Hqok].
  destruct Hr as (ds & -> & Hv). rewrite be_value_skip_zeros in Hv.
  exists (nth (Z.to_nat carry) BASE58_ALPHABET zero :: ds).
  split; [rewrite <- app_assoc; reflexivity|].
  cbn [b58_value_lsb fold_right]. fold (b58_value_lsb ds).
  rewrite b58_digit_nth by lia. lia.
Qed.

(** [base58_encode] succeeds as soon as the buffer has room for the digits
    the number can have. *)
Lemma base58_encode_bounded (input : list Z) out out_len (m : nat) :
  bytes_ok input -> (1 <= length input <= 32)%nat ->
  let z := leading_count is_zero input in
  be_value (skipn z input) < 58 ^ Z.of_nat m -> (m <= MAX_B58_LEN)%nat ->
  Z.of_nat (z + m) + 1 <= out_len ->
  let s := fst (base58_encode input out out_len) in
  let n := snd (base58_encode input out out_len) in
  n = Z.of_nat (length s) /\ 1 <= n <= Z.of_nat (z + m) /\
  Forall in_alphabet s /\
  leading_count is_one s = z /\
  b58_value s = be_value input.
Proof.
  intros Hok Hlen z Hval Hm Hout. cbv zeta. unfold base58_encode.
  destruct (Z.eqb_spec out_len 0); [lia|].
  destruct (Z.eqb_spec (Z.of_nat (length input)) 0); [lia|].
  destruct (Z.gtb_spec (Z.of_nat (length input)) MAX_INPUT_LEN);
    [unfold MAX_INPUT_LEN in *; lia|].
  fold z. set (live := skipn z input) in *.
  assert (Hlok : bytes_ok live) by apply bytes_ok_skipn, Hok.
  destruct (b58_loop_spec (S MAX_B58_LEN) live [] m) as
    (r & Hr & Hrlen & Hne & Hin & Hlast);
    [exact Hlok|apply leading_count_skipn|exact Hval|cbn [length]; lia|lia|].
  rewrite Hr. cbn [length] in Hrlen, Hne.
  destruct (b58_loop_value _ _ _ _ Hlok Hr) as (ds & Hds & Hv).
  cbn [app] in Hds. subst ds.
  destruct (Z.gtb_spec (Z.of_nat (z + length r) + 1) out_len) as [?|_]; [lia|].
  cbn [fst snd].
  assert (Hz : (z <= length input)%nat) by apply leading_count_le.
  assert (Hpos : (1 <= z + length r)%nat).
  { destruct (Nat.eq_dec z 0) as [Hz0|]; [|lia].
    assert (Hlive : live <> []).
    { intros E. apply (f_equal (@length Z)) in E. subst live.
      rewrite length_skipn in E. cbn [length] in E. lia. }
    specialize (Hne Hlive). lia. }
  split; [rewrite length_app, repeat_length, length_rev; reflexivity|].
  split; [lia|]. split; [|split].
  - apply Forall_app. split.
    + apply Forall_forall. intros c Hc. apply repeat_spec in Hc. subst c.
      unfold in_alphabet. cbn. auto.
    + apply Forall_rev. apply Hin. constructor.
  - rewrite leading_count_repeat_app by reflexivity.
    rewrite Hlast; [lia|]. reflexivity.
  - rewrite b58_value_ones, b58_value_rev, Hv. subst live.
    apply be_value_skip_zeros.
Qed.

Lemma input_digits_bound z :
  (z <= 32)%nat -> 256 ^ Z.of_nat (32 - z) <= 58 ^ Z.of_nat (44 - z).
Proof.
  intros H.
  assert (F : forallb (fun k => 256 ^ Z.of_nat (32 - k) <=? 58 ^ Z.of_nat (44 - k))
                      (seq 0 33) = true) by (vm_compute; reflexivity).
  rewrite forallb_forall in F. apply Z.leb_le, F, in_seq. lia.
Qed.

Lemma base58_encode_value_spec (input : list Z) out out_len :
  bytes_ok input -> (1 <= length input <= 32)%nat -> 45 <= out_len ->
  let s := fst (base58_encode input out out_len) in
  let n := snd (base58_encode input out out_len) in
  n = Z.of_nat (length s) /\ 1 <= n <= 44 /\
  Forall in_alphabet s /\
  leading_count is_one s = leading_count is_zero input /\
  b58_value s = be_value input.
Proof.
  intros Hok Hlen Hout.
  set (z := leading_count is_zero input).
  assert (Hz : (z <= length input)%nat) by apply leading_count_le.
  destruct (base58_encode_bounded input out out_len (44 - z) Hok Hlen)
    as (H1 & H2 & H3 & H4 & H5); fold z.
  - pose proof (be_value_range (skipn z input) (bytes_ok_skipn z input Hok)) as Hr.
    rewrite length_skipn in Hr. pose proof (input_digits_bound z ltac:(lia)).
    assert (256 ^ Z.of_nat (length input - z) <= 256 ^ Z.of_nat (32 - z))
      by (apply Z.pow_le_mono_r; lia).
    lia.
  - unfold MAX_B58_LEN. lia.
  - lia.
  - cbv zeta. repeat split; try assumption; lia.
Qed.

(** X8. For an input of 1 to 32 bytes and a buffer of at least 45 bytes,
    [base58_encode] succeeds and writes a Base58 numeral of the input: read
    as a base-58 number the string has the value of the input read as a
    base-256 number, it starts with as many ['1'] as the input has leading
    zero bytes, it has at most 44 characters, and its length is returned. *)
Theorem base58_encode_value (input : list Z) out out_len :
  bytes_ok input -> (1 <= length input <= 32)%nat -> 45 <= out_len ->
  let s := fst (base58_encode input out out_len) in
  let n := snd (base58_encode input out out_len) in
  n = Z.of_nat (length s) /\ 1 <= n <= 44 /\
  Forall in_alphabet s /\
  leading_count is_one s = leading_count is_zero input /\
  b58_value s = be_value input.
Proof. exact (base58_encode_value_spec input out out_len). Qed.

Lemma base58_encode_value_witness :
  bytes_ok addr_sample /\ (1 <= length addr_sample <= 32)%nat /\ 45 <= 64 /\
  b58_value (fst (base58_encode addr_sample [] 64)) = be_value addr_sample.
Proof.
  assert (H2 : (1 <= length addr_sample <= 32)%nat) by (cbn; lia).
  assert (H3 : 45 <= 64) by lia.
  split; [exact addr_sample_ok|]. split; [exact H2|]. split; [exact H3|].
  apply (base58_encode_value addr_sample [] 64 addr_sample_ok H2 H3).
Defined.

Lemma be_value_inj a : forall b,
  length a = length b -> bytes_ok a -> bytes_ok b ->
  be_value a = be_value b -> a = b.
Proof.
  induction a as [|x a IH]; intros [|y b] Hlen Ha Hb Hv; try discriminate;
    [reflexivity|].
  cbn [length] in Hlen. apply Nat.succ_inj in Hlen.
  inversion Ha as [|? ? Hx Ha']; inversion Hb as [|? ? Hy Hb']; subst.
  cbn [be_value] in Hv. rewrite Hlen in Hv.
  pose proof (be_value_range a Ha') as Ra. rewrite Hlen in Ra.
  pose proof (be_value_range b Hb') as Rb.
  set (P := 256 ^ Z.of_nat (length b)) in *.
  assert (Hxy : x = y) by nia.
  subst y. f_equal. apply IH; try assumption. lia.
Qed.

(** X9. Two byte strings of the same length (1 to 32 bytes) that
    [base58_encode] renders as the same string are equal: the encoding of
    addresses is injective. *)
Theorem base58_encode_injective (a b : list Z) out out_len :
  bytes_ok a -> bytes_ok b -> length a = length b ->
  (1 <= length a <= 32)%nat -> 45 <= out_len ->
  fst (base58_encode a out out_len) = fst (base58_encode b out out_len) ->
  a = b.
Proof.
  intros Ha Hb Hlen Hla Hout Heq.
  destruct (base58_encode_value_spec a out out_len Ha Hla Hout)
    as (_ & _ & _ & _ & Va).
  destruct (base58_encode_value_spec b out out_len Hb ltac:(lia) Hout)
    as (_ & _ & _ & _ & Vb).
  apply be_value_inj; try assumption. rewrite <- Va, <- Vb, Heq. reflexivity.
Qed.

Lemma base58_encode_injective_witness :
  bytes_ok addr_sample /\ length addr_sample = length addr_sample /\
  (1 <= length addr_sample <= 32)%nat /\ 45 <= 64 /\
  fst (base58_encode addr_sample [] 64) = fst (base58_encode addr_sample [] 64) /\
  addr_sample = addr_sample.
Proof.
  assert (H2 : (1 <= length addr_sample <= 32)%nat) by (cbn; lia).
  assert (H3 : 45 <= 64) by lia.
  split; [exact addr_sample_ok|]. split; [reflexivity|]. split; [exact H2|].
  split; [exact H3|]. split; [reflexivity|].
  exact (base58_encode_injective addr_sample addr_sample [] 64 addr_sample_ok
           addr_sample_ok eq_refl H2 H3 eq_refl).
Defined.

(** X10. Whatever the input and the buffer size, [base58_encode] returns the
    length of the string it leaves in a non-empty buffer, and that string
    with its terminator fits the buffer; an empty input or one longer than
    32 bytes leaves the empty string, and a buffer of size 0 is not
    written. *)
Theorem base58_encode_fits (input : list Z) out out_len :
  0 <= out_len ->
  let s := fst (base58_encode input out out_len) in
  let n := snd (base58_encode input out out_len) in
  (out_len = 0 -> s = out /\ n = 0) /\
  (0 < out_len -> n = Z.of_nat (length s) /\ n + 1 <= out_len) /\
  (0 < out_len -> (length input = 0 \/ 32 < length input)%nat -> s = []).
Proof.
  intros Hout. cbv zeta. unfold base58_encode.
  destruct (Z.eqb_spec out_len 0) as [->|Hnz].
  { cbn [fst snd]. repeat split; intros; lia. }
  split; [intros; contradiction|].
  destruct (Z.eqb_spec (Z.of_nat (length input)) 0) as [H0|H0].
  { cbn [fst snd length]. repeat split; lia. }
  destruct (Z.gtb_spec (Z.of_nat (length input)) MAX_INPUT_LEN) as [H1|H1].
  { cbn [fst snd length]. repeat split; lia. }
  unfold MAX_INPUT_LEN in H1.
  destruct (b58_loop _ _ _) as [r|].
  2:{ cbn [fst snd length]. repeat split; lia. }
  match goal with
  | |- context [?t + 1 >? out_len] => destruct (Z.gtb_spec (t + 1) out_len)
  end.
  { cbn [fst snd length]. repeat split; lia. }
  cbn [fst snd]. rewrite length_app, repeat_length, length_rev.
  repeat split; intros; lia.
Qed.

Lemma base58_encode_fits_witness :
  0 <= 5 /\
  base58_encode (repeat 0x42 20) [] 5 = ([], 0) /\
  base58_encode (repeat 0 33) [] 64 = ([], 0).
Proof.
  split; [lia|].
  destruct (base58_encode_fits (repeat 0 33) [] 64 ltac:(lia)) as (_ & _ & H).
  split; [reflexivity|].
  rewrite (surjective_pairing (base58_encode (repeat 0 33) [] 64)).
  rewrite H by (cbn; lia). reflexivity.
Defined.

(** A 20-byte address in the 35-byte buffer of the display and of the
    global state. *)
Lemma base58_address_spec (addr : list Z) out :
  length addr = 20%nat -> bytes_ok addr ->
  let s := fst (base58_encode addr out ADDRESS_BASE58_MAX_LEN) in
  let n := snd (base58_encode addr out ADDRESS_BASE58_MAX_LEN) in
  n = Z.of_nat (length s) /\ 1 <= n <= 34 /\
  Forall in_alphabet s /\
  leading_count is_one s = leading_count is_zero addr /\
  b58_value s = be_value addr.
Proof.
  intros Hlen Hok.
  set (z := leading_count is_zero addr).
  assert (Hz : (z <= 20)%nat) by (subst z; rewrite <- Hlen; apply leading_count_le).
  destruct (base58_encode_bounded addr out ADDRESS_BASE58_MAX_LEN (34 - z) Hok)
    as (H1 & H2 & H3 & H4 & H5); fold z.
  - lia.
  - pose proof (be_value_range (skipn z addr) (bytes_ok_skipn z addr Hok)) as Hr.
    rewrite length_skipn, Hlen in Hr. pose proof (address_digits_bound z Hz). lia.
  - unfold MAX_B58_LEN. lia.
  - unfold ADDRESS_BASE58_MAX_LEN. lia.
  - cbv zeta. repeat split; try assumption; lia.
Qed.

(** ** tx_display.c: the display strings of a parsed record *)

Lemma format_fee_spec (p : tx_parsed_t) out :
  0 <= fee_low p < 2 ^ 64 -> fee_overflow p = negb (fee_high p =? 0) ->
  let r := format_fee (fee_low p) (fee_high p) (fee_overflow p) out
                      TX_DISPLAY_FEE_MAX_LEN in
  1 <= snd r /\
  (fee_overflow p = true -> fst r = Literal.overflow_msg) /\
  (fee_overflow p = false -> decimal_value (fst r) = fee_low p).
Proof.
  intros Hlo Hov. cbv zeta. unfold TX_DISPLAY_FEE_MAX_LEN.
  destruct (fee_overflow p) eqn:E.
  - rewrite format_fee_overflow_flag by lia. cbn [fst snd].
    repeat split; try lia; congruence.
  - assert (Hhi : fee_high p = 0).
    { destruct (Z.eqb_spec (fee_high p) 0); [assumption|discriminate]. }
    rewrite Hhi.
    destruct (format_fee_low_part (fee_low p) out 40 Hlo ltac:(lia))
      as (H1 & H2 & H3).
    repeat split; try assumption; congruence.
Qed.

Lemma base58_address_numeral (addr : list Z) out :
  length addr = 20%nat -> bytes_ok addr ->
  base58_of (fst (base58_encode addr out ADDRESS_BASE58_MAX_LEN)) addr /\
  snd (base58_encode addr out ADDRESS_BASE58_MAX_LEN) <> 0.
Proof.
  intros Hl Hb.
  destruct (base58_address_spec addr out Hl Hb) as (Hn & Hr & Ha & Hlead & Hv).
  cbv zeta in *. split; [|lia]. unfold base58_of.
  split; [exact Ha|]. split; [lia|]. split; [exact Hv | exact Hlead].
Qed.

Lemma format_fee_numeral (p : tx_parsed_t) out :
  0 <= fee_low p < 2 ^ 64 -> fee_overflow p = negb (fee_high p =? 0) ->
  let r := format_fee (fee_low p) (fee_high p) (fee_overflow p) out
                      TX_DISPLAY_FEE_MAX_LEN in
  snd r <> 0 /\
  (fee_overflow p = true -> fst r = Literal.overflow_msg) /\
  (fee_overflow p = false -> decimal_of (fst r) (fee_low p)).
Proof.
  intros Hlo Hov. cbv zeta.
  destruct (format_fee_spec p out Hlo Hov) as (H1 & H2 & _). cbv zeta in H1, H2.
  split; [lia|]. split; [exact H2|].
  intros E.
  assert (Hhi : fee_high p = 0).
  { rewrite E in Hov. destruct (Z.eqb_spec (fee_high p) 0); [assumption|discriminate]. }
  rewrite E, Hhi. unfold format_fee, TX_DISPLAY_FEE_MAX_LEN.
  change (40 =? 0) with false. change (0 =? 0) with true. cbv iota.
  apply format_u64_decimal_numeral; [exact Hlo | lia].
Qed.

Lemma tx_display_format_spec (p : tx_parsed_t) :
  parsed_ok p ->
  let d := snd (tx_display_format p) in
  fst (tx_display_format p) = true /\
  decimal_of (d_amount d) (amount p) /\
  decimal_of (d_chain_id d) (chain_id p) /\
  decimal_of (d_nonce d) (nonce p) /\
  base58_of (d_recipient d) (recipient p) /\
  base58_of (d_sender d) (sender p) /\
  (fee_overflow p = true -> d_fee d = Literal.overflow_msg) /\
  (fee_overflow p = false -> decimal_of (d_fee d) (fee_low p)).
Proof.
  intros (Hc & Hn & Ha & Hsl & Hsb & Hrl & Hrb & Hlo & Hov). cbv zeta.
  unfold tx_display_format, format_address, sumchain_address_to_base58.
  unfold ADDRESS_LEN. rewrite !firstn_all2 by lia.
  cbn [display_zero d_amount d_recipient d_fee d_chain_id d_sender d_nonce].
  destruct (format_u64_decimal_numeral (amount p) [] TX_DISPLAY_AMOUNT_MAX_LEN Ha
              ltac:(unfold TX_DISPLAY_AMOUNT_MAX_LEN; lia)) as (A1 & A2).
  destruct (format_u64_decimal (amount p) [] TX_DISPLAY_AMOUNT_MAX_LEN)
    as [s_amount n_amount]. cbn [fst snd] in A1, A2.
  destruct (Z.eqb_spec n_amount 0); [contradiction|].
  destruct (base58_address_numeral (recipient p) [] Hrl Hrb) as (R1 & R2).
  destruct (base58_encode (recipient p) [] ADDRESS_BASE58_MAX_LEN)
    as [s_rec n_rec]. cbn [fst snd] in R1, R2.
  destruct (Z.eqb_spec n_rec 0); [contradiction|].
  destruct (format_fee_numeral p [] Hlo Hov) as (F1 & F2 & F3).
  destruct (format_fee (fee_low p) (fee_high p) (fee_overflow p) []
              TX_DISPLAY_FEE_MAX_LEN) as [s_fee n_fee]. cbn [fst snd] in F1, F2, F3.
  destruct (Z.eqb_spec n_fee 0); [contradiction|].
  destruct (format_u64_decimal_numeral (chain_id p) [] TX_DISPLAY_CHAIN_ID_MAX_LEN Hc
              ltac:(unfold TX_DISPLAY_CHAIN_ID_MAX_LEN; lia)) as (C1 & C2).
  destruct (format_u64_decimal (chain_id p) [] TX_DISPLAY_CHAIN_ID_MAX_LEN)
    as [s_chain n_chain]. cbn [fst snd] in C1, C2.
  destruct (Z.eqb_spec n_chain 0); [contradiction|].
  destruct (base58_address_numeral (sender p) [] Hsl Hsb) as (S1 & S2).
  destruct (base58_encode (sender p) [] ADDRESS_BASE58_MAX_LEN)
    as [s_snd n_snd]. cbn [fst snd] in S1, S2.
  destruct (Z.eqb_spec n_snd 0); [contradiction|].
  destruct (format_u64_decimal_numeral (nonce p) [] TX_DISPLAY_AMOUNT_MAX_LEN Hn
              ltac:(unfold TX_DISPLAY_AMOUNT_MAX_LEN; lia)) as (N1 & N2).
  destruct (format_u64_decimal (nonce p) [] TX_DISPLAY_AMOUNT_MAX_LEN)
    as [s_nonce n_nonce]. cbn [fst snd] in N1, N2.
  destruct (Z.eqb_spec n_nonce 0); [contradiction|].
  cbn [fst snd d_amount d_recipient d_fee d_chain_id d_sender d_nonce].
  split; [reflexivity|]. split; [exact A1|]. split; [exact C1|].
  split; [exact N1|]. split; [exact R1|]. split; [exact S1|].
  split; [exact F2 | exact F3].
Qed.

(** X11. On a record with 64-bit integers, 20-byte addresses and an
    overflow flag that agrees with [fee_high], [tx_display_format]
    succeeds, and each string it produces is the numeral of its field:
    amount, chain id and nonce are shown as 1 to 20 decimal digits that
    denote the value, without a leading zero (["0"] for 0); recipient and
    sender as 1 to 34 characters of the Base58 alphabet that denote the 20
    bytes, with one ['1'] in front for each leading zero byte; and the fee
    string is ["Overflow"] or the decimal numeral of [fee_low]. *)
Theorem tx_display_format_faithful (p : tx_parsed_t) :
  parsed_ok p ->
  let d := snd (tx_display_format p) in
  fst (tx_display_format p) = true /\
  decimal_of (d_amount d) (amount p) /\
  decimal_of (d_chain_id d) (chain_id p) /\
  decimal_of (d_nonce d) (nonce p) /\
  base58_of (d_recipient d) (recipient p) /\
  base58_of (d_sender d) (sender p) /\
  (fee_overflow p = true -> d_fee d = Literal.overflow_msg) /\
  (fee_overflow p = false -> decimal_of (d_fee d) (fee_low p)).
Proof. exact (tx_display_format_spec p). Qed.

(** ** crypto.c: derivation paths *)

Lemma be32_compose b0 b1 b2 b3 :
  byte_ok b0 -> byte_ok b1 -> byte_ok b2 -> byte_ok b3 ->
  Z.lor (u32 (Z.shiftl b0 24))
    (Z.lor (u32 (Z.shiftl b1 16)) (Z.lor (u32 (Z.shiftl b2 8)) b3))
  = b0 * 2 ^ 24 + b1 * 2 ^ 16 + b2 * 2 ^ 8 + b3.
Proof.
  unfold byte_ok, u32. intros H0 H1 H2 H3.
  rewrite !Z.shiftl_mul_pow2 by lia.
  rewrite !Z.mod_small by lia.
  rewrite (Z.lor_comm (b2 * 2 ^ 8) b3), (lor_shift_add b3 b2 8) by lia.
  set (s2 := b3 + b2 * 2 ^ 8). assert (0 <= s2 < 2 ^ 16) by (subst s2; lia).
  rewrite (Z.lor_comm (b1 * 2 ^ 16) s2), (lor_shift_add s2 b1 16) by lia.
  set (s1 := s2 + b1 * 2 ^ 16). assert (0 <= s1 < 2 ^ 24) by (subst s1 s2; lia).
  rewrite (Z.lor_comm (b0 * 2 ^ 24) s1), (lor_shift_add s1 b0 24) by lia.
  subst s1 s2. ring.
Qed.

Lemma be32_bytes_value c :
  u32_ok c ->
  Forall byte_ok (be32_bytes c) /\
  (c / 2 ^ 24 mod 256) * 2 ^ 24 + (c / 2 ^ 16 mod 256) * 2 ^ 16
  + (c / 2 ^ 8 mod 256) * 2 ^ 8 + c mod 256 = c.
Proof.
  unfold u32_ok, be32_bytes, byte_ok. intros H.
  change (2 ^ 24) with 16777216. change (2 ^ 16) with 65536.
  change (2 ^ 8) with 256. change (2 ^ 32) with 4294967296 in H.
  split.
  - repeat (apply Forall_cons; [apply Z.mod_pos_bound; lia|]); apply Forall_nil.
  - Z.div_mod_to_equations. lia.
Qed.

(** The four bytes at [&data[1 + i * 4]] of a path in wire form. *)
Lemma path_wire_bytes comps : forall i rest hd,
  (i < length comps)%nat ->
  exists tail,
    skipn (1 + i * 4) (hd :: flat_map be32_bytes comps ++ rest)
    = be32_bytes (nth i comps 0) ++ tail.
Proof.
  induction comps as [|c comps IH]; intros i rest hd Hi;
    [cbn [length] in Hi; lia|].
  destruct i as [|i].
  - exists (flat_map be32_bytes comps ++ rest). cbn [flat_map].
    rewrite <- app_assoc. reflexivity.
  - destruct (IH i rest hd) as (tail & Ht); [cbn [length] in Hi; lia|].
    exists tail. cbn [flat_map nth]. rewrite <- Ht.
    unfold be32_bytes at 1. reflexivity.
Qed.

Lemma path_component_wire comps i rest :
  Forall u32_ok comps -> (i < length comps)%nat ->
  path_component (path_wire comps ++ rest) i = nth i comps 0.
Proof.
  intros Hok Hi. unfold path_component, path_wire.
  change ((Z.of_nat (length comps) :: flat_map be32_bytes comps) ++ rest)
    with (Z.of_nat (length comps) :: flat_map be32_bytes comps ++ rest).
  destruct (path_wire_bytes comps i rest (Z.of_nat (length comps)) Hi)
    as (tail & ->).
  assert (Hc : u32_ok (nth i comps 0)).
  { rewrite Forall_forall in Hok. apply Hok, nth_In, Hi. }
  destruct (be32_bytes_value _ Hc) as (Hb & Hv).
  unfold be32_bytes in *. cbn [app buf_at nth].
  inversion Hb as [|? ? B0 Hb1]; inversion Hb1 as [|? ? B1 Hb2];
    inversion Hb2 as [|? ? B2 Hb3]; inversion Hb3 as [|? ? B3 _]; subst.
  rewrite be32_compose by assumption. exact Hv.
Qed.

Lemma crypto_parse_path_wire comps rest old :
  (1 <= length comps <= 10)%nat -> Forall u32_ok comps ->
  crypto_parse_path (path_wire comps ++ rest) old
  = (1 + 4 * Z.of_nat (length comps),
     mk_path (Z.of_nat (length comps))
             (comps ++ skipn (length comps) (path old))).
Proof.
  intros Hn Hok. unfold crypto_parse_path.
  assert (Hlen : length (path_wire comps ++ rest)
                 = (1 + 4 * length comps + length rest)%nat).
  { unfold path_wire. rewrite length_app. cbn [length]. f_equal.
    rewrite (flat_map_constant_length (c := 4%nat)); [lia|].
    intros; reflexivity. }
  rewrite Hlen.
  assert (Hhd : buf_at (path_wire comps ++ rest) 0 = Z.of_nat (length comps))
    by reflexivity.
  rewrite Hhd. unfold MAX_BIP32_PATH_LEN.
  destruct (Z.ltb_spec (Z.of_nat (1 + 4 * length comps + length rest)) 1); [lia|].
  destruct (Z.eqb_spec (Z.of_nat (length comps)) 0); [lia|].
  destruct (Z.gtb_spec (Z.of_nat (length comps)) 10); [lia|]. cbn [orb].
  destruct (Z.ltb_spec (Z.of_nat (1 + 4 * length comps + length rest))
                       (1 + Z.of_nat (length comps) * 4)); [lia|].
  rewrite Nat2Z.id. f_equal; [lia|]. f_equal. f_equal.
  apply nth_ext with (d := 0) (d' := 0).
  - rewrite length_map, length_seq. reflexivity.
  - intros i Hi. rewrite length_map, length_seq in Hi.
    rewrite (nth_indep _ 0 (path_component (path_wire comps ++ rest) 0))
      by (rewrite length_map, length_seq; exact Hi).
    rewrite map_nth, seq_nth by exact Hi. cbn [Nat.add].
    apply path_component_wire; assumption.
Qed.

(** X12. Parsing the wire form of a path of 1 to 10 32-bit components,
    whatever bytes follow it, returns [1 + 4 * n], stores the count and the
    components, and leaves the entries of [path->path] beyond them as they
    were. *)
Theorem crypto_parse_path_roundtrip comps rest old :
  (1 <= length comps <= 10)%nat -> Forall u32_ok comps ->
  let r := crypto_parse_path (path_wire comps ++ rest) old in
  fst r = 1 + 4 * Z.of_nat (length comps) /\
  path_length (snd r) = Z.of_nat (length comps) /\
  firstn (length comps) (path (snd r)) = comps /\
  skipn (length comps) (path (snd r)) = skipn (length comps) (path old).
Proof.
  intros Hn Hok. cbv zeta. rewrite crypto_parse_path_wire by assumption.
  cbn [fst snd path_length path]. split; [reflexivity|]. split; [reflexivity|].
  split.
  - rewrite firstn_app, Nat.sub_diag, firstn_all. cbn [firstn].
    apply app_nil_r.
  - rewrite skipn_app, Nat.sub_diag, skipn_all. reflexivity.
Qed.

Lemma crypto_parse_path_roundtrip_witness :
  (1 <= length path_s1 <= 10)%nat /\ Forall u32_ok path_s1 /\
  path_wire path_s1 = path_s1_wire /\
  firstn 5 (path (snd (crypto_parse_path (path_wire path_s1 ++ tx_s1)
                         bip32_path_zero))) = path_s1.
Proof.
  assert (H1 : (1 <= length path_s1 <= 10)%nat) by (cbn; lia).
  assert (H2 : Forall u32_ok path_s1)
    by (repeat (apply Forall_cons; [unfold u32_ok; lia|]); apply Forall_nil).
  split; [exact H1|]. split; [exact H2|]. split; [reflexivity|].
  apply (crypto_parse_path_roundtrip path_s1 tx_s1 bip32_path_zero H1 H2).
Defined.

Lemma land_high_bit c :
  u32_ok c -> (Z.land c 0x80000000 =? 0) = (c <? 2 ^ 31).
Proof.
  unfold u32_ok. intros Hc.
  assert (Hbit : Z.testbit c 31 = negb (c <? 2 ^ 31)).
  { destruct (Z.ltb_spec c (2 ^ 31)) as [Hlt|Hge]; cbn [negb].
    - destruct (Z.eq_dec c 0) as [->|]; [reflexivity|].
      apply Z.bits_above_log2; [lia|]. apply Z.log2_lt_pow2; lia.
    - apply Z.testbit_true; [lia|].
      change (2 ^ 31) with 2147483648 in *. change (2 ^ 32) with 4294967296 in *.
      Z.div_mod_to_equations. lia. }
  destruct (Z.ltb_spec c (2 ^ 31)) as [Hlt|Hge]; cbn [negb] in Hbit.
  - apply Z.eqb_eq. apply Z.bits_inj'. intros n Hn.
    rewrite Z.land_spec, Z.bits_0.
    destruct (Z.eq_dec n 31) as [->|Hne]; [rewrite Hbit; reflexivity|].
    change 0x80000000 with (2 ^ 31).
    rewrite (Z.pow2_bits_false 31 n) by lia. apply andb_false_r.
  - apply high_bit_land, Hbit.
Qed.

Lemma crypto_validate_path_spec (p : bip32_path_t) :
  Forall u32_ok (path p) ->
  (crypto_validate_path p = true <->
   (path_length p <> 0 /\ path_length p <= MAX_BIP32_PATH_LEN) /\
   Forall hardened (firstn (Z.to_nat (path_length p)) (path p))).
Proof.
  intros Hok. unfold crypto_validate_path, MAX_BIP32_PATH_LEN.
  destruct (Z.eqb_spec (path_length p) 0) as [H0|H0]; cbn [orb].
  { split; [discriminate|]. intros ((H & _) & _). lia. }
  destruct (Z.gtb_spec (path_length p) 10) as [H1|H1].
  { split; [discriminate|]. intros ((_ & H) & _). lia. }
  assert (Hok' : forall c,
            In c (firstn (Z.to_nat (path_length p)) (path p)) -> u32_ok c).
  { intros c Hc. rewrite Forall_forall in Hok. apply Hok.
    rewrite <- (firstn_skipn (Z.to_nat (path_length p)) (path p)).
    apply in_or_app. left. exact Hc. }
  rewrite forallb_forall, Forall_forall.
  split.
  - intros H. split; [split; [exact H0|lia]|].
    intros c Hc. specialize (H c Hc). rewrite land_high_bit in H by auto.
    unfold hardened. destruct (Z.ltb_spec c (2 ^ 31)); [discriminate|lia].
  - intros (_ & H) c Hc. specialize (H c Hc). rewrite land_high_bit by auto.
    unfold hardened in H. destruct (Z.ltb_spec c (2 ^ 31)); [lia|reflexivity].
Qed.

(** X13. For a path whose stored components are 32-bit values,
    [crypto_validate_path] accepts exactly the paths whose count is not 0
    and at most 10 and whose first [length] components are all hardened
    (at least [2^31]). *)
Theorem crypto_validate_path_hardened (p : bip32_path_t) :
  Forall u32_ok (path p) ->
  (crypto_validate_path p = true <->
   (path_length p <> 0 /\ path_length p <= MAX_BIP32_PATH_LEN) /\
   Forall hardened (firstn (Z.to_nat (path_length p)) (path p))).
Proof. exact (crypto_validate_path_spec p). Qed.

Lemma crypto_validate_path_hardened_witness :
  Forall u32_ok (path (mk_path 5 (path_s1 ++ repeat 0 5))) /\
  crypto_validate_path (mk_path 5 (path_s1 ++ repeat 0 5)) = true.
Proof.
  assert (H : Forall u32_ok (path (mk_path 5 (path_s1 ++ repeat 0 5))))
    by (repeat (apply Forall_cons; [unfold u32_ok; lia|]); apply Forall_nil).
  split; [exact H|].
  apply (proj2 (crypto_validate_path_hardened _ H)).
  split; [split; [discriminate | unfold MAX_BIP32_PATH_LEN; cbn; lia]|].
  repeat (apply Forall_cons; [unfold hardened; lia|]); apply Forall_nil.
Defined.

Lemma lor_range n a b :
  0 <= n -> 0 <= a < 2 ^ n -> 0 <= b < 2 ^ n -> 0 <= Z.lor a b < 2 ^ n.
Proof.
  intros Hn Ha Hb.
  assert (H0 : 0 <= Z.lor a b) by (apply Z.lor_nonneg; lia).
  split; [exact H0|].
  destruct (Z.eq_dec (Z.lor a b) 0) as [->|Hne]; [lia|].
  apply Z.log2_lt_pow2; [lia|].
  rewrite Z.log2_lor by lia.
  destruct (Z.eq_dec a 0) as [->|Ha0]; destruct (Z.eq_dec b 0) as [->|Hb0].
  - exfalso. apply Hne. reflexivity.
  - change (Z.log2 0) with 0. rewrite Z.max_r by apply Z.log2_nonneg.
    apply Z.log2_lt_pow2; lia.
  - change (Z.log2 0) with 0. rewrite Z.max_l by apply Z.log2_nonneg.
    apply Z.log2_lt_pow2; lia.
  - apply Z.max_lub_lt; apply Z.log2_lt_pow2; lia.
Qed.

Lemma buf_at_byte (l : list Z) i : bytes_ok l -> byte_ok (buf_at l i).
Proof.
  intros H. unfold buf_at.
  destruct (Nat.lt_ge_cases i (length l)) as [Hi|Hi].
  - unfold bytes_ok in H. rewrite Forall_forall in H. apply H, nth_In, Hi.
  - rewrite nth_overflow by exact Hi. unfold byte_ok. lia.
Qed.

Lemma path_component_range data i :
  bytes_ok data -> u32_ok (path_component data i).
Proof.
  intros H. unfold path_component, u32_ok.
  assert (Hs : bytes_ok (skipn (1 + i * 4) data)).
  { unfold bytes_ok in *. rewrite <- (firstn_skipn (1 + i * 4) data) in H.
    apply Forall_app in H. apply H. }
  pose proof (buf_at_byte _ 3 Hs) as H3. unfold byte_ok in H3.
  assert (Hu : forall x, 0 <= u32 x < 2 ^ 32)
    by (intros x; unfold u32; apply Z.mod_pos_bound; lia).
  repeat (apply lor_range; [lia | apply Hu |]). lia.
Qed.

Lemma crypto_parse_path_spec data old :
  bytes_ok data ->
  let r := crypto_parse_path data old in
  (fst r = 0 /\ snd r = old) \/
  (1 <= path_length (snd r) <= MAX_BIP32_PATH_LEN /\
   path_length (snd r) = buf_at data 0 /\
   fst r = 1 + 4 * path_length (snd r) /\
   fst r <= Z.of_nat (length data) /\
   Forall u32_ok (firstn (Z.to_nat (path_length (snd r))) (path (snd r)))).
Proof.
  intros Hb. cbv zeta. unfold crypto_parse_path, MAX_BIP32_PATH_LEN.
  destruct (Z.ltb_spec (Z.of_nat (length data)) 1) as [H1|H1];
    [left; split; reflexivity|].
  pose proof (buf_at_byte data 0 Hb) as H0. unfold byte_ok in H0.
  destruct (Z.eqb_spec (buf_at data 0) 0) as [Hz|Hz]; cbn [orb];
    [left; split; reflexivity|].
  destruct (Z.gtb_spec (buf_at data 0) 10) as [Hg|Hg];
    [left; split; reflexivity|].
  destruct (Z.ltb_spec (Z.of_nat (length data)) (1 + buf_at data 0 * 4))
    as [Hr|Hr]; [left; split; reflexivity|].
  right. cbn [fst snd path_length path].
  split; [lia|]. split; [reflexivity|]. split; [lia|]. split; [lia|].
  rewrite firstn_app, length_map, length_seq, Nat.sub_diag. cbn [firstn].
  rewrite app_nil_r.
  rewrite firstn_all2 by (rewrite length_map, length_seq; lia).
  apply Forall_forall. intros c Hc.
  apply in_map_iff in Hc as (i & <- & _). apply path_component_range, Hb.
Qed.

(** X14. On bytes, [crypto_parse_path] either returns 0 and leaves [*path]
    as it was, or stores a count of 1 to 10 (the first byte), returns
    [1 + 4 * count], which is never more than the bytes it was given, and
    stores components that are 32-bit values. *)
Theorem crypto_parse_path_bounds data old :
  bytes_ok data ->
  let r := crypto_parse_path data old in
  (fst r = 0 /\ snd r = old) \/
  (1 <= path_length (snd r) <= MAX_BIP32_PATH_LEN /\
   path_length (snd r) = buf_at data 0 /\
   fst r = 1 + 4 * path_length (snd r) /\
   fst r <= Z.of_nat (length data) /\
   Forall u32_ok (firstn (Z.to_nat (path_length (snd r))) (path (snd r)))).
Proof. exact (crypto_parse_path_spec data old). Qed.

Lemma path_s1_wire_bytes : bytes_ok path_s1_wire.
Proof.
  unfold bytes_ok, path_s1_wire.
  repeat (apply Forall_cons; [unfold byte_ok; lia|]). apply Forall_nil.
Qed.

Lemma crypto_parse_path_bounds_witness :
  bytes_ok path_s1_wire /\
  fst (crypto_parse_path path_s1_wire bip32_path_zero) = 21.
Proof.
  split; [exact path_s1_wire_bytes|].
  destruct (crypto_parse_path_bounds path_s1_wire bip32_path_zero
              path_s1_wire_bytes) as [(H & _)|(_ & _ & H & _)].
  - vm_compute in H. discriminate H.
  - rewrite H. reflexivity.
Defined.

Lemma parsed_path_validate comps rest old :
  (1 <= length comps <= 10)%nat -> Forall u32_ok comps ->
  (crypto_validate_path (snd (crypto_parse_path (path_wire comps ++ rest) old))
   = true <-> Forall hardened comps).
Proof.
  intros Hn Hok. rewrite crypto_parse_path_wire by assumption.
  cbn [snd]. unfold crypto_validate_path, MAX_BIP32_PATH_LEN.
  cbn [path_length path].
  destruct (Z.eqb_spec (Z.of_nat (length comps)) 0) as [H0|H0]; [lia|].
  destruct (Z.gtb_spec (Z.of_nat (length comps)) 10) as [H1|H1]; [lia|].
  cbn [orb]. rewrite Nat2Z.id, firstn_app, Nat.sub_diag, firstn_all.
  cbn [firstn]. rewrite app_nil_r.
  rewrite forallb_forall, Forall_forall. rewrite Forall_forall in Hok.
  split; intros H c Hc; specialize (H c Hc).
  - rewrite land_high_bit in H by auto. unfold hardened.
    destruct (Z.ltb_spec c (2 ^ 31)); [discriminate|lia].
  - rewrite land_high_bit by auto. unfold hardened in H.
    destruct (Z.ltb_spec c (2 ^ 31)); [lia|reflexivity].
Qed.

(** X15. A path of 1 to 10 32-bit components that was parsed from its wire
    form passes [crypto_validate_path] exactly when every component is
    hardened. *)
Theorem parsed_path_valid_iff_hardened comps rest old :
  (1 <= length comps <= 10)%nat -> Forall u32_ok comps ->
  (crypto_validate_path (snd (crypto_parse_path (path_wire comps ++ rest) old))
   = true <-> Forall hardened comps).
Proof. exact (parsed_path_validate comps rest old). Qed.

Lemma parsed_path_valid_iff_hardened_witness :
  (1 <= length path_s1 <= 10)%nat /\ Forall u32_ok path_s1 /\
  crypto_validate_path
    (snd (crypto_parse_path (path_wire path_s1 ++ tx_s1) bip32_path_zero))
  = true.
Proof.
  assert (H1 : (1 <= length path_s1 <= 10)%nat) by (cbn; lia).
  assert (H2 : Forall u32_ok path_s1)
    by (repeat (apply Forall_cons; [unfold u32_ok; lia|]); apply Forall_nil).
  split; [exact H1|]. split; [exact H2|].
  apply (proj2 (parsed_path_valid_iff_hardened path_s1 tx_s1 bip32_path_zero
                  H1 H2)).
  repeat (apply Forall_cons; [unfold hardened; lia|]); apply Forall_nil.
Defined.

(** ** From the wire to the screen *)

Lemma le_value_range (l : list Z) :
  bytes_ok l -> 0 <= le_value l < 256 ^ Z.of_nat (length l).
Proof.
  unfold bytes_ok, le_value. induction 1 as [|b l Hb _ IH].
  - cbn. lia.
  - cbn [fold_right length]. rewrite Nat2Z.inj_succ, Z.pow_succ_r by lia.
    unfold byte_ok in Hb. nia.
Qed.

Lemma wire_field_bytes data off len :
  bytes_ok data -> bytes_ok (wire_field data off len).
Proof.
  unfold bytes_ok, wire_field. intros H.
  rewrite <- (firstn_skipn off data) in H. apply Forall_app in H as (_ & H).
  rewrite <- (firstn_skipn len (skipn off data)) in H.
  apply Forall_app in H. apply H.
Qed.

Lemma wire_field_length data off len :
  (off + len <= length data)%nat -> length (wire_field data off len) = len.
Proof.
  intros H. unfold wire_field. rewrite length_firstn, length_skipn. lia.
Qed.

Lemma wire_u64_range data off :
  bytes_ok data -> (off + 8 <= length data)%nat ->
  0 <= le_value (wire_field data off 8) < 2 ^ 64.
Proof.
  intros Hb Hl.
  pose proof (le_value_range _ (wire_field_bytes data off 8 Hb)) as H.
  rewrite wire_field_length in H by exact Hl.
  change (256 ^ Z.of_nat 8) with (2 ^ 64) in H. exact H.
Qed.

Lemma transfer_parsed_ok (data : list Z) :
  valid_transfer data ->
  parsed_ok (parsed (fst (tx_parser_consume tx_parser_init data))).
Proof.
  intros Hv. pose proof Hv as (Hlen & Hb & _ & _). unfold TRANSFER_LEN in Hlen.
  destruct (transfer_parse data Hv)
    as (_ & _ & _ & Hc & Hs & Hn & Hgp & Hgl & _ & Hr & Ha & Hfee).
  cbv zeta in *.
  set (p := parsed (fst (tx_parser_consume tx_parser_init data))) in *.
  assert (Rgp : 0 <= gas_price p < 2 ^ 64)
    by (rewrite Hgp; apply wire_u64_range; [exact Hb | unfold OFF_GAS_PRICE; lia]).
  assert (Rgl : 0 <= gas_limit p < 2 ^ 64)
    by (rewrite Hgl; apply wire_u64_range; [exact Hb | unfold OFF_GAS_LIMIT; lia]).
  unfold parsed_ok.
  split; [rewrite Hc; apply wire_u64_range; [exact Hb | unfold OFF_CHAIN_ID; lia]|].
  split; [rewrite Hn; apply wire_u64_range; [exact Hb | unfold OFF_NONCE; lia]|].
  split; [rewrite Ha; apply wire_u64_range; [exact Hb | unfold OFF_AMOUNT; lia]|].
  split; [rewrite Hs; apply wire_field_length; unfold OFF_SENDER; lia|].
  split; [rewrite Hs; apply wire_field_bytes, Hb|].
  split; [rewrite Hr; apply wire_field_length; unfold OFF_RECIPIENT; lia|].
  split; [rewrite Hr; apply wire_field_bytes, Hb|].
  rewrite Hfee.
  split.
  - apply compute_fee_product; cbn [gas_price gas_limit]; assumption.
  - unfold tx_parser_compute_fee, set_fee. cbn [fee_overflow fee_high].
    reflexivity.
Qed.

Lemma tx_display_format_faithful_witness :
  parsed_ok (parsed (fst (tx_parser_consume tx_parser_init tx_s1))) /\
  fst (tx_display_format (parsed (fst (tx_parser_consume tx_parser_init tx_s1))))
  = true.
Proof.
  split; [exact (transfer_parsed_ok tx_s1 tx_s1_valid)|].
  apply (tx_display_format_faithful _ (transfer_parsed_ok tx_s1 tx_s1_valid)).
Defined.

Lemma transfer_display_spec (data : list Z) :
  valid_transfer data ->
  let p := tx_parser_get_parsed (fst (tx_parser_consume tx_parser_init data)) in
  let d := snd (tx_display_format p) in
  let fee := le_value (wire_field data OFF_GAS_PRICE 8)
             * le_value (wire_field data OFF_GAS_LIMIT 8) in
  fst (tx_display_format p) = true /\
  decimal_of (d_amount d) (le_value (wire_field data OFF_AMOUNT 8)) /\
  decimal_of (d_chain_id d) (le_value (wire_field data OFF_CHAIN_ID 8)) /\
  decimal_of (d_nonce d) (le_value (wire_field data OFF_NONCE 8)) /\
  base58_of (d_recipient d) (wire_field data OFF_RECIPIENT 20) /\
  base58_of (d_sender d) (wire_field data OFF_SENDER 20) /\
  (fee < 2 ^ 64 -> fee_overflow p = false /\ decimal_of (d_fee d) fee) /\
  (2 ^ 64 <= fee -> fee_overflow p = true /\ d_fee d = Literal.overflow_msg).
Proof.
  intros Hv. pose proof Hv as (Hlen & Hb & _ & _). unfold TRANSFER_LEN in Hlen.
  unfold tx_parser_get_parsed. cbv zeta.
  destruct (transfer_parse data Hv)
    as (_ & _ & _ & Hc & Hs & Hn & Hgp & Hgl & _ & Hr & Ha & Hfee).
  destruct (tx_display_format_spec _ (transfer_parsed_ok data Hv))
    as (D0 & D1 & D2 & D3 & D4 & D5 & D6 & D7).
  cbv zeta in *.
  set (p := parsed (fst (tx_parser_consume tx_parser_init data))) in *.
  assert (Rgp : 0 <= gas_price p < 2 ^ 64)
    by (rewrite Hgp; apply wire_u64_range; [exact Hb | unfold OFF_GAS_PRICE; lia]).
  assert (Rgl : 0 <= gas_limit p < 2 ^ 64)
    by (rewrite Hgl; apply wire_u64_range; [exact Hb | unfold OFF_GAS_LIMIT; lia]).
  assert (F : fee_high p * 2 ^ 64 + fee_low p = gas_price p * gas_limit p /\
              0 <= fee_low p < 2 ^ 64 /\ 0 <= fee_high p < 2 ^ 64 /\
              fee_overflow p = negb (fee_high p =? 0)).
  { rewrite Hfee.
    match goal with
    | |- context [tx_parser_compute_fee ?q] =>
        pose proof (compute_fee_product q) as Hq; cbn [gas_price gas_limit] in Hq;
        destruct (Hq Rgp Rgl) as (E & Rlo & Rhi)
    end.
    cbv zeta in E.
    split; [exact E|]. split; [exact Rlo|]. split; [exact Rhi|].
    unfold tx_parser_compute_fee, set_fee. cbn [fee_overflow fee_high].
    reflexivity. }
  destruct F as (E & Rlo & Rhi & Hov).
  rewrite <- Hgp, <- Hgl, <- Ha, <- Hc, <- Hn, <- Hr, <- Hs.
  split; [exact D0|]. split; [exact D1|]. split; [exact D2|].
  split; [exact D3|]. split; [exact D4|]. split; [exact D5|].
  split; intros Hfee'.
  - assert (Hz : fee_high p = 0) by nia.
    assert (Hf : fee_overflow p = false)
      by (rewrite Hov, Hz; reflexivity).
    split; [exact Hf|].
    replace (gas_price p * gas_limit p) with (fee_low p) by lia.
    exact (D7 Hf).
  - assert (Hz : fee_high p <> 0) by nia.
    assert (Hf : fee_overflow p = true)
      by (rewrite Hov; destruct (Z.eqb_spec (fee_high p) 0); [contradiction|reflexivity]).
    split; [exact Hf|]. exact (D6 Hf).
Qed.

(** X16. For a well-formed Transfer, the strings that [tx_display_format]
    makes from the parser's record are the numerals of the bytes on the
    wire: amount, chain id and nonce are the decimal numerals (1 to 20
    digits, no leading zero, ["0"] for 0) of the little-endian fields,
    recipient and sender the Base58 numerals (1 to 34 alphabet characters,
    one ['1'] for each leading zero byte) of the 20-byte fields, and the
    fee is the decimal numeral of [gas_price * gas_limit] when that is
    below [2^64] and ["Overflow"] otherwise. *)
Theorem transfer_display_faithful (data : list Z) :
  valid_transfer data ->
  let p := tx_parser_get_parsed (fst (tx_parser_consume tx_parser_init data)) in
  let d := snd (tx_display_format p) in
  let fee := le_value (wire_field data OFF_GAS_PRICE 8)
             * le_value (wire_field data OFF_GAS_LIMIT 8) in
  fst (tx_display_format p) = true /\
  decimal_of (d_amount d) (le_value (wire_field data OFF_AMOUNT 8)) /\
  decimal_of (d_chain_id d) (le_value (wire_field data OFF_CHAIN_ID 8)) /\
  decimal_of (d_nonce d) (le_value (wire_field data OFF_NONCE 8)) /\
  base58_of (d_recipient d) (wire_field data OFF_RECIPIENT 20) /\
  base58_of (d_sender d) (wire_field data OFF_SENDER 20) /\
  (fee < 2 ^ 64 -> fee_overflow p = false /\ decimal_of (d_fee d) fee) /\
  (2 ^ 64 <= fee -> fee_overflow p = true /\ d_fee d = Literal.overflow_msg).
Proof. exact (transfer_display_spec data). Qed.

Lemma transfer_display_faithful_witness :
  valid_transfer tx_s1 /\
  decimal_of
    (d_amount (snd (tx_display_format
       (tx_parser_get_parsed (fst (tx_parser_consume tx_parser_init tx_s1))))))
    (le_value (wire_field tx_s1 OFF_AMOUNT 8)).
Proof.
  split; [exact tx_s1_valid|].
  apply (transfer_display_faithful tx_s1 tx_s1_valid).
Defined.

(** ** apdu_handlers.c: the streaming session *)

Section StreamProps.
Context {B3 : Blake3} {KP : KeyProvider}.

Lemma stream_parser_wire chunks :
  let c := fst (tx_parser_consume tx_parser_init (concat chunks)) in
  c = fold_left feed (concat chunks) tx_parser_init /\
  parser_inv c /\ wire_ok c.
Proof.
  cbv zeta. rewrite consume_init_feed. split; [reflexivity|].
  apply fold_feed_wire; [apply tx_parser_init_inv | apply tx_parser_init_wire].
Qed.

Lemma stream_session_bound s chunks :
  stream_session s chunks -> 0 <= total_received s <= 82.
Proof.
  intros (_ & _ & Hp & _ & Ht & _).
  destruct (stream_parser_wire chunks) as (_ & Hi & Hw). cbv zeta in Hi, Hw.
  rewrite <- Hp in Hi, Hw. rewrite <- Ht. apply wire_total_bound; assumption.
Qed.

Lemma absorb_tx_bytes_stream s d s' chunks :
  stream_session s chunks -> absorb_tx_bytes s d = inr s' ->
  initialized s' = initialized s /\
  last_chunk_received s' = last_chunk_received s /\
  session_path s' = session_path s /\
  exists chunks', stream_session s' chunks' /\ concat chunks' = concat chunks ++ d.
Proof.
  intros Hs. pose proof Hs as (Hv & Hh & Hp & Hr & Ht & He).
  unfold absorb_tx_bytes.
  destruct (Z.gtb_spec (Z.of_nat (length d)) 0) as [Hpos|Hz].
  - destruct (total_received s + Z.of_nat (length d) >? MAX_TX_SIZE);
      [discriminate|].
    pose proof (consume_count (parser s) d) as (Hc & _).
    destruct (stream_parser_wire chunks) as (Hf & Hi & Hw). cbv zeta in Hf, Hi, Hw.
    rewrite <- Hp in Hi, Hw.
    pose proof (consume_feed_wire (parser s) d Hi Hw) as Hfd.
    destruct (tx_parser_consume (parser s) d) as [pc consumed].
    cbn [fst snd] in Hc, Hfd.
    destruct (Z.eqb_spec consumed (Z.of_nat (length d))) as [Hall|];
      [cbn [negb orb]|discriminate].
    destruct (tx_parser_has_error pc) eqn:Herr; [discriminate|].
    intros E. injection E as <-.
    cbn [initialized last_chunk_received session_path].
    split; [reflexivity|]. split; [reflexivity|]. split; [reflexivity|].
    exists (chunks ++ [d]). split.
    + unfold stream_session.
      cbn [session_path tx_hash_ctx parser total_received].
      split; [exact Hv|]. split.
      { unfold hash_of_chunks in *. rewrite fold_left_app, <- Hh. reflexivity. }
      split.
      { rewrite concat_app. cbn [concat]. rewrite app_nil_r.
        rewrite consume_init_feed, fold_left_app, <- consume_init_feed, <- Hp.
        exact Hfd. }
      split.
      { rewrite concat_app. cbn [concat]. rewrite app_nil_r, length_app. lia. }
      split; [lia | exact Herr].
    + rewrite concat_app. cbn [concat]. rewrite app_nil_r. reflexivity.
  - intros E. injection E as <-.
    split; [reflexivity|]. split; [reflexivity|]. split; [reflexivity|].
    exists chunks. split; [exact Hs|].
    destruct d; [rewrite app_nil_r; reflexivity | cbn [length] in Hz; lia].
Qed.

Lemma absorb_tx_bytes_fits s d chunks :
  stream_session s chunks -> Z.of_nat (length d) <= 255 ->
  absorb_tx_bytes s d <> inl SW_TX_TOO_LARGE.
Proof.
  intros Hs Hd. pose proof (stream_session_bound s chunks Hs) as Hb.
  unfold absorb_tx_bytes.
  destruct (Z.of_nat (length d) >? 0); [|discriminate].
  destruct (Z.gtb_spec (total_received s + Z.of_nat (length d)) MAX_TX_SIZE)
    as [Hbig|_]; [unfold MAX_TX_SIZE in Hbig; lia|].
  destruct (tx_parser_consume (parser s) d) as [pc consumed].
  destruct (negb (consumed =? Z.of_nat (length d)) || tx_parser_has_error pc);
    [|discriminate].
  intros E. injection E as E. revert E. sw_differ.
Qed.

Lemma reset_stream_inv st : stream_inv (reset_sign_session st).
Proof. unfold stream_inv. cbn. discriminate. Qed.

Lemma fresh_stream_session p last :
  crypto_validate_path p = true ->
  stream_session
    (mk_session true p (sum_blake3_init sum_blake3_ctx_zero) tx_parser_init 0 last)
    [].
Proof.
  intros Hv. unfold stream_session.
  cbn [session_path tx_hash_ctx parser total_received concat length].
  split; [exact Hv|]. repeat split; reflexivity.
Qed.

Lemma sign_tx_until_approval_stream st a :
  stream_inv st -> stream_progress st a (sign_tx_until_approval st a).
Proof.
  intros Hst. unfold sign_tx_until_approval.
  destruct (negb (p1 a =? P1_FIRST_CHUNK) && negb (p1 a =? P1_MORE_CHUNK)).
  { split; [apply reset_stream_inv | intros _; sw_differ]. }
  destruct (negb (p2 a =? P2_LAST_CHUNK) && negb (p2 a =? P2_MORE_CHUNKS)).
  { split; [apply reset_stream_inv | intros _; sw_differ]. }
  match goal with
  | |- stream_progress _ _ (match ?arm with _ => _ end) =>
      assert (Harm : match arm with
                     | inl (sw, st') =>
                         stream_inv st' /\ (lc a <= 255 -> sw <> SW_TX_TOO_LARGE)
                     | inr st' =>
                         st' = set_sign_session (sign_session st') st /\
                         initialized (sign_session st') = true /\
                         last_chunk_received (sign_session st')
                         = negb (p2 a =? P2_MORE_CHUNKS) /\
                         session_path (sign_session st')
                         = (if p1 a =? P1_FIRST_CHUNK
                            then snd (crypto_parse_path (data a) bip32_path_zero)
                            else session_path (sign_session st)) /\
                         exists chunks, stream_session (sign_session st') chunks
                     end);
      [|destruct arm as [[sw st']|st']]
  end.
  - destruct (p1 a =? P1_FIRST_CHUNK).
    + destruct (Z.ltb_spec (lc a) 1) as [|Hlc].
      { split; [apply reset_stream_inv | intros _; sw_differ]. }
      change (session_path (sign_session (reset_sign_session st)))
        with bip32_path_zero.
      destruct (crypto_parse_path (data a) bip32_path_zero)
        as [path_bytes p] eqn:Hpp.
      destruct (path_bytes =? 0).
      { split; [apply reset_stream_inv | intros _; sw_differ]. }
      destruct (crypto_validate_path p) eqn:Hv; cbn [negb].
      2:{ split; [apply reset_stream_inv | intros _; sw_differ]. }
      change (tx_hash_ctx (sign_session (reset_sign_session st)))
        with sum_blake3_ctx_zero.
      pose proof (fresh_stream_session p (negb (p2 a =? P2_MORE_CHUNKS)) Hv) as Hs.
      match goal with
      | |- context [absorb_tx_bytes ?s ?d] =>
          pose proof (absorb_tx_bytes_fits s d [] Hs) as Hfit;
          destruct (absorb_tx_bytes s d) as [sw|s'] eqn:E
      end.
      * split; [apply reset_stream_inv|]. intros Hle Hsw. subst sw.
        apply Hfit; [|reflexivity].
        rewrite length_skipn. unfold lc in Hle. lia.
      * destruct (absorb_tx_bytes_stream _ _ _ _ Hs E) as (Hi & Hl & Hp & Hc).
        cbn [initialized last_chunk_received session_path] in Hi, Hl, Hp.
        cbn [sign_session set_sign_session snd].
        split; [reflexivity|]. split; [exact Hi|]. split; [exact Hl|].
        split; [exact Hp|].
        destruct Hc as (chunks' & Hc & _). exists chunks'. exact Hc.
    + destruct (initialized (sign_session st)) eqn:Hi; cbn [negb].
      2:{ split; [|intros _; sw_differ]. unfold stream_inv. rewrite Hi.
          discriminate. }
      destruct (Hst Hi) as (Hlast & chunks & Hs). rewrite Hlast.
      assert (Hs' : stream_session
                      (mk_session true (session_path (sign_session st))
                         (tx_hash_ctx (sign_session st)) (parser (sign_session st))
                         (total_received (sign_session st))
                         (negb (p2 a =? P2_MORE_CHUNKS))) chunks) by exact Hs.
      match goal with
      | |- context [absorb_tx_bytes ?s ?d] =>
          pose proof (absorb_tx_bytes_fits s d chunks Hs') as Hfit;
          destruct (absorb_tx_bytes s d) as [sw|s'] eqn:E
      end.
      * split; [apply reset_stream_inv|]. intros Hle Hsw. subst sw.
        apply Hfit; [|reflexivity]. unfold lc in Hle. exact Hle.
      * destruct (absorb_tx_bytes_stream _ _ _ _ Hs' E) as (Hi' & Hl & Hp & Hc).
        cbn [initialized last_chunk_received session_path] in Hi', Hl, Hp.
        cbn [sign_session set_sign_session].
        split; [reflexivity|]. split; [exact Hi'|]. split; [exact Hl|].
        split; [exact Hp|].
        destruct Hc as (chunks' & Hc & _). exists chunks'. exact Hc.
  - exact Harm.
  - destruct Harm as (Hf & Hi & Hl & Hp & Hc).
    destruct (p2 a =? P2_MORE_CHUNKS) eqn:Hmore; cbn [negb] in *.
    + split; [|intros _; sw_differ]. intros _. split; [exact Hl | exact Hc].
    + destruct (tx_parser_is_done (parser (sign_session st'))) eqn:Hdone;
        cbn [negb].
      2:{ split; [apply reset_stream_inv | intros _; sw_differ]. }
      destruct (tx_display_format (tx_parser_get_parsed (parser (sign_session st'))))
        as [ok d] eqn:Hfmt.
      destruct ok; cbn [negb].
      2:{ split; [apply reset_stream_inv | intros _; sw_differ]. }
      destruct (fee_overflow (tx_parser_get_parsed (parser (sign_session st'))))
        eqn:Hov.
      { split; [apply reset_stream_inv | intros _; sw_differ]. }
      cbn [stream_progress]. cbv zeta.
      split; [exact Hf|]. split; [exact Hi|]. split; [exact Hp|].
      split; [exact Hc|].
      split; [exact Hdone|]. split; [exact Hfmt | exact Hov].
Qed.

Lemma stream_session_done s chunks :
  stream_session s chunks -> tx_parser_is_done (parser s) = true ->
  length (concat chunks) = TRANSFER_LEN.
Proof.
  intros (_ & _ & Hp & Hr & Ht & _) Hd.
  destruct (stream_parser_wire chunks) as (_ & _ & Hw). cbv zeta in Hw.
  rewrite <- Hp in Hw. unfold tx_parser_is_done in Hd.
  destruct (state (parser s)) eqn:E; try discriminate.
  destruct Hw as (_ & Htot & _ & Hdone & _). rewrite E in *.
  specialize (Htot ltac:(discriminate)). specialize (Hdone eq_refl).
  cbn [field_start] in Htot. unfold TRANSFER_LEN. lia.
Qed.

Lemma handle_sign_tx_stream ui st a :
  stream_inv st ->
  stream_inv (snd (handle_sign_tx ui st a)) /\
  (lc a <= 255 -> fst (fst (handle_sign_tx ui st a)) <> SW_TX_TOO_LARGE).
Proof.
  intros Hst. pose proof (sign_tx_until_approval_stream st a Hst) as H.
  unfold handle_sign_tx.
  destruct (sign_tx_until_approval st a) as [sw st'|d st'].
  - exact H.
  - destruct (sign_tx_after_approval_ok (ui d) st') as (Hz & _). cbv zeta in Hz.
    split.
    + unfold stream_inv. rewrite Hz. cbn. discriminate.
    + intros _. unfold sign_tx_after_approval.
      repeat (break_match; cbn [fst]; try sw_differ).
Qed.

Lemma apdu_dispatch_stream ui st a :
  stream_inv st ->
  stream_inv (snd (apdu_dispatch ui st a)) /\
  (lc a <= 255 -> fst (fst (apdu_dispatch ui st a)) <> SW_TX_TOO_LARGE).
Proof.
  intros Hst. unfold apdu_dispatch.
  destruct (negb (cla a =? CLA_SUMCHAIN)); [split; [exact Hst | intros _; sw_differ]|].
  destruct (ins a =? INS_GET_VERSION); [split; [exact Hst | intros _; sw_differ]|].
  destruct (ins a =? INS_GET_APP_NAME); [split; [exact Hst | intros _; sw_differ]|].
  destruct (ins a =? INS_GET_PUBLIC_KEY).
  { split.
    - unfold stream_inv. rewrite handle_get_public_key_session. exact Hst.
    - intros _. unfold handle_get_public_key.
      repeat (break_match; cbn [fst]; try sw_differ). }
  destruct (ins a =? INS_GET_ADDRESS).
  { split.
    - unfold stream_inv. rewrite handle_get_address_session. exact Hst.
    - intros _. unfold handle_get_address.
      repeat (break_match; cbn [fst]; try sw_differ). }
  destruct (ins a =? INS_SIGN_TX); [apply handle_sign_tx_stream, Hst|].
  split; [exact Hst | intros _; sw_differ].
Qed.

Lemma reachable_stream st : reachable st -> stream_inv st.
Proof.
  induction 1 as [st|ui st a _ IH].
  - apply reset_stream_inv.
  - apply apdu_dispatch_stream, IH.
Qed.

End StreamProps.

Section StreamTheorems.
Context {B3 : Blake3} {KP : KeyProvider}.

(** X17. Every command other than SIGN_TX, a foreign class and an unknown
    instruction included, leaves the signing session as it was, so a stream
    in progress survives it. *)
Theorem other_commands_keep_session ui (st : app_state_t) (a : apdu_t) :
  cla a <> CLA_SUMCHAIN \/ ins a <> INS_SIGN_TX ->
  sign_session (snd (apdu_dispatch ui st a)) = sign_session st.
Proof.
  intros H. unfold apdu_dispatch.
  destruct (Z.eqb_spec (cla a) CLA_SUMCHAIN) as [Hc|Hc]; cbn [negb];
    [|reflexivity].
  destruct (ins a =? INS_GET_VERSION); [reflexivity|].
  destruct (ins a =? INS_GET_APP_NAME); [reflexivity|].
  destruct (ins a =? INS_GET_PUBLIC_KEY); [apply handle_get_public_key_session|].
  destruct (ins a =? INS_GET_ADDRESS); [apply handle_get_address_session|].
  destruct (Z.eqb_spec (ins a) INS_SIGN_TX) as [Hi|Hi]; [|reflexivity].
  destruct H; contradiction.
Qed.

(** X18. In every state the application can reach, an active session waits
    for more chunks: the last-chunk flag is clear, the stored path passed
    validation, the hash context has absorbed exactly the chunks received,
    the parser stands where a one-call parse of those bytes ends, without
    error and with every byte absorbed, and at most 82 bytes were received. *)
Theorem session_stream_invariant (st : app_state_t) :
  reachable st -> initialized (sign_session st) = true ->
  last_chunk_received (sign_session st) = false /\
  exists chunks,
    stream_session (sign_session st) chunks /\
    0 <= total_received (sign_session st) <= 82.
Proof.
  intros Hr Hi. destruct (reachable_stream st Hr Hi) as (Hl & chunks & Hs).
  split; [exact Hl|]. exists chunks. split; [exact Hs|].
  exact (stream_session_bound _ _ Hs).
Qed.

(** X19. From a reachable state no command is answered with
    [SW_TX_TOO_LARGE]: the parser stops a stream long before [MAX_TX_SIZE]
    bytes ([lc] is a [uint8_t]). *)
Theorem tx_too_large_unreachable ui (st : app_state_t) (a : apdu_t) :
  reachable st -> lc a <= 255 ->
  fst (fst (apdu_dispatch ui st a)) <> SW_TX_TOO_LARGE.
Proof.
  intros Hr Hlc.
  exact (proj2 (apdu_dispatch_stream ui st a (reachable_stream st Hr)) Hlc).
Qed.

(** X20. When SIGN_TX answers with response bytes from a reachable state,
    there are chunks of transaction bytes, 82 bytes in all, such that the
    parser run on them ends done, the display strings are those of their
    parse, the fee did not overflow, the user approved exactly these
    strings, and the response is the signature, made with the path of the
    first chunk, of the BLAKE3 digest of these chunks. *)
Theorem signature_covers_displayed_tx ui (st : app_state_t) (a : apdu_t) :
  reachable st ->
  let res := handle_sign_tx ui st a in
  snd (fst res) <> [] ->
  exists chunks p,
    let c := fst (tx_parser_consume tx_parser_init (concat chunks)) in
    let digest := snd (sum_blake3_finalize32 (hash_of_chunks chunks) (hash st)) in
    length (concat chunks) = TRANSFER_LEN /\
    tx_parser_is_done c = true /\
    fee_overflow (tx_parser_get_parsed c) = false /\
    fst (tx_display_format (tx_parser_get_parsed c)) = true /\
    ui (snd (tx_display_format (tx_parser_get_parsed c))) = UI_RESULT_APPROVED /\
    p = (if p1 a =? P1_FIRST_CHUNK
         then snd (crypto_parse_path (data a) bip32_path_zero)
         else session_path (sign_session st)) /\
    crypto_validate_path p = true /\
    fst (fst res) = SW_OK /\
    crypto_sign_hash p digest (signature st) = (true, snd (fst res)).
Proof.
  intros Hr. cbv zeta. intros Hne.
  pose proof (sign_tx_until_approval_stream st a (reachable_stream st Hr)) as H.
  unfold handle_sign_tx in *.
  destruct (sign_tx_until_approval st a) as [sw st'|d st'];
    [exfalso; apply Hne; reflexivity|].
  destruct H as (Hf & Hi & Hp & (chunks & Hs) & Hdone & Hfmt & Hov).
  destruct (sign_tx_after_approval_ok (ui d) st') as (_ & _ & Hok).
  destruct (Hok Hne) as (Hui & Hsw & Hlen). clear Hok.
  pose proof Hs as (Hv & Hh & Hpar & _).
  exists chunks, (session_path (sign_session st')).
  rewrite <- Hpar, Hfmt. cbn [fst snd].
  split; [exact (stream_session_done _ _ Hs Hdone)|].
  split; [exact Hdone|]. split; [exact Hov|]. split; [reflexivity|].
  split; [exact Hui|]. split; [exact Hp|]. split; [exact Hv|].
  split; [exact Hsw|].
  assert (Hh' : hash st' = hash st) by (rewrite Hf; reflexivity).
  assert (Hg' : signature st' = signature st) by (rewrite Hf; reflexivity).
  rewrite <- Hh, <- Hh', <- Hg'.
  revert Hne Hlen. rewrite Hui. unfold sign_tx_after_approval.
  destruct (sum_blake3_finalize32 (tx_hash_ctx (sign_session st')) (hash st'))
    as [h dg].
  cbn [session_path snd set_hash set_sign_session hash signature].
  pose proof (sig64_length (session_path (sign_session st')) dg (signature st'))
    as Hsig.
  destruct (crypto_sign_hash (session_path (sign_session st')) dg (signature st'))
    as [ok sg].
  cbn [snd] in Hsig.
  destruct ok; cbn [negb fst snd set_signature signature];
    [|intros Hne; exfalso; apply Hne; reflexivity].
  intros _ _. rewrite firstn_all2 by (rewrite Hsig; apply Nat.le_refl).
  reflexivity.
Qed.

End StreamTheorems.

Lemma other_commands_keep_session_witness :
  (cla apdu_pubkey_trailing <> CLA_SUMCHAIN \/
   ins apdu_pubkey_trailing <> INS_SIGN_TX) /\
  sign_session (snd (apdu_dispatch ui_auto_approve streaming_state
                       apdu_pubkey_trailing))
  = sign_session streaming_state.
Proof.
  assert (H : cla apdu_pubkey_trailing <> CLA_SUMCHAIN \/
              ins apdu_pubkey_trailing <> INS_SIGN_TX)
    by (right; vm_compute; discriminate).
  split; [exact H|].
  apply (other_commands_keep_session ui_auto_approve streaming_state
           apdu_pubkey_trailing H).
Defined.

Lemma session_stream_invariant_witness :
  reachable streaming_state /\
  initialized (sign_session streaming_state) = true /\
  last_chunk_received (sign_session streaming_state) = false.
Proof.
  split; [exact streaming_reachable|]. split; [reflexivity|].
  apply (session_stream_invariant streaming_state streaming_reachable eq_refl).
Defined.

Lemma tx_too_large_unreachable_witness :
  reachable streaming_state /\ lc apdu_continue_last <= 255 /\
  fst (fst (apdu_dispatch ui_auto_approve streaming_state apdu_continue_last))
  <> SW_TX_TOO_LARGE.
Proof.
  assert (H : lc apdu_continue_last <= 255) by (vm_compute; discriminate).
  split; [exact streaming_reachable|]. split; [exact H|].
  apply (tx_too_large_unreachable ui_auto_approve streaming_state
           apdu_continue_last streaming_reachable H).
Defined.

Lemma signature_covers_displayed_tx_witness :
  reachable boot_state /\
  snd (fst (handle_sign_tx ui_auto_approve boot_state apdu_sign_s1)) <> [] /\
  fst (fst (handle_sign_tx ui_auto_approve boot_state apdu_sign_s1)) = SW_OK.
Proof.
  assert (H : snd (fst (handle_sign_tx ui_auto_approve boot_state apdu_sign_s1))
              <> []) by (vm_compute; discriminate).
  split; [exact boot_reachable|]. split; [exact H|].
  destruct (signature_covers_displayed_tx ui_auto_approve boot_state apdu_sign_s1
              boot_reachable H) as (chunks & p & Hc).
  apply Hc.
Defined.

(** ** apdu_handlers.c: a Transfer signed in one command *)

Section OneShot.
Context {B3 : Blake3} {KP : KeyProvider}.

Lemma absorb_transfer p last tx :
  valid_transfer tx ->
  absorb_tx_bytes
    (mk_session true p (sum_blake3_init sum_blake3_ctx_zero) tx_parser_init 0 last)
    tx
  = inr (mk_session true p
           (sum_blake3_update (sum_blake3_init sum_blake3_ctx_zero) tx)
           (fst (tx_parser_consume tx_parser_init tx)) 82 last).
Proof.
  intros Hv. pose proof Hv as (Hlen & _). unfold TRANSFER_LEN in Hlen.
  destruct (transfer_parse tx Hv) as (Hd & Hn & _). cbv zeta in Hd.
  unfold absorb_tx_bytes.
  cbn [total_received tx_hash_ctx parser initialized session_path
       last_chunk_received].
  rewrite Hlen. change (Z.of_nat 82 >? 0) with true.
  change (0 + Z.of_nat 82 >? MAX_TX_SIZE) with false. cbv iota.
  destruct (tx_parser_consume tx_parser_init tx) as [c n].
  cbn [fst snd] in *. subst n.
  unfold tx_parser_has_error. rewrite Hd.
  change (negb (82 =? Z.of_nat 82) || false) with false. cbv iota.
  reflexivity.
Qed.

Lemma path_wire_length comps :
  length (path_wire comps) = (1 + 4 * length comps)%nat.
Proof.
  unfold path_wire. cbn [length]. f_equal.
  rewrite (flat_map_constant_length (c := 4%nat)); [lia|].
  intros; reflexivity.
Qed.

Lemma skipn_repeat_sub {A} (x : A) n m :
  skipn n (repeat x m) = repeat x (m - n).
Proof.
  revert m. induction n as [|n IH]; intros m.
  - rewrite Nat.sub_0_r. reflexivity.
  - destruct m; [reflexivity|]. cbn [repeat skipn]. apply IH.
Qed.

Lemma sign_one_shot (st : app_state_t) (a : apdu_t) comps tx :
  p1 a = P1_FIRST_CHUNK -> p2 a = P2_LAST_CHUNK ->
  data a = path_wire comps ++ tx ->
  (1 <= length comps <= 10)%nat -> Forall u32_ok comps ->
  Forall hardened comps -> valid_transfer tx ->
  let c := fst (tx_parser_consume tx_parser_init tx) in
  let p := mk_path (Z.of_nat (length comps))
                   (comps ++ repeat 0 (10 - length comps)) in
  sign_tx_until_approval st a
  = if fee_overflow (tx_parser_get_parsed c)
    then Exit SW_TX_OVERFLOW (reset_sign_session st)
    else Ask (snd (tx_display_format (tx_parser_get_parsed c)))
             (set_sign_session
                (mk_session true p
                   (sum_blake3_update (sum_blake3_init sum_blake3_ctx_zero) tx)
                   c 82 true) st).
Proof.
  intros Hp1 Hp2 Hdata Hn Hok Hhard Hv. cbv zeta.
  pose proof (proj2 (parsed_path_validate comps tx bip32_path_zero Hn Hok) Hhard)
    as Hval.
  rewrite crypto_parse_path_wire in Hval by assumption. cbn [snd] in Hval.
  destruct (transfer_parse tx Hv) as (Hd & _). cbv zeta in Hd.
  destruct (tx_display_format_spec _ (transfer_parsed_ok tx Hv)) as (Hfmt & _).
  unfold sign_tx_until_approval. rewrite Hp1, Hp2, Hdata.
  change (P1_FIRST_CHUNK =? P1_FIRST_CHUNK) with true.
  change (P2_LAST_CHUNK =? P2_LAST_CHUNK) with true.
  change (P2_LAST_CHUNK =? P2_MORE_CHUNKS) with false.
  cbn [negb andb]. cbv iota.
  assert (Hlc : (lc a <? 1) = false).
  { apply Z.ltb_ge. unfold lc. rewrite Hdata, length_app, path_wire_length. lia. }
  rewrite Hlc.
  change (session_path (sign_session (reset_sign_session st)))
    with bip32_path_zero.
  rewrite crypto_parse_path_wire by assumption.
  assert (Hpb : (1 + 4 * Z.of_nat (length comps) =? 0) = false)
    by (apply Z.eqb_neq; lia).
  rewrite Hpb.
  change (skipn (length comps) (path bip32_path_zero))
    with (skipn (length comps) (repeat 0 10)) in *.
  rewrite Hval. cbn [negb].
  assert (Hskip : skipn (Z.to_nat (1 + 4 * Z.of_nat (length comps)))
                    (path_wire comps ++ tx) = tx).
  { replace (Z.to_nat (1 + 4 * Z.of_nat (length comps)))
      with (length (path_wire comps)) by (rewrite path_wire_length; lia).
    rewrite skipn_app, Nat.sub_diag, skipn_all. reflexivity. }
  rewrite Hskip.
  change (tx_hash_ctx (sign_session (reset_sign_session st)))
    with sum_blake3_ctx_zero.
  rewrite absorb_transfer by exact Hv.
  cbn [sign_session set_sign_session parser].
  unfold tx_parser_is_done at 1. rewrite Hd. cbn [negb].
  rewrite skipn_repeat_sub. unfold tx_parser_get_parsed.
  destruct (tx_display_format (parsed (fst (tx_parser_consume tx_parser_init tx))))
    as [ok d].
  cbn [fst snd] in *. subst ok. cbn [negb].
  destruct (fee_overflow (parsed (fst (tx_parser_consume tx_parser_init tx))));
    reflexivity.
Qed.

Lemma one_shot_fee (tx : list Z) :
  valid_transfer tx ->
  let p := tx_parser_get_parsed (fst (tx_parser_consume tx_parser_init tx)) in
  let fee := le_value (wire_field tx OFF_GAS_PRICE 8)
             * le_value (wire_field tx OFF_GAS_LIMIT 8) in
  (fee < 2 ^ 64 -> fee_overflow p = false) /\
  (2 ^ 64 <= fee -> fee_overflow p = true).
Proof.
  intros Hv. destruct (transfer_display_spec tx Hv)
    as (_ & _ & _ & _ & _ & _ & Hlo & Hhi).
  cbv zeta in *. split; intros H; [apply Hlo | apply Hhi]; exact H.
Qed.

(** X21. A single SIGN_TX command (first and last chunk) that carries a
    hardened path and a well-formed Transfer whose fee
    [gas_price * gas_limit] does not fit 64 bits is answered with
    [SW_TX_OVERFLOW] and no data, whatever the approval function would say,
    and the session is reset. *)
Theorem overflowing_fee_never_signed ui (st : app_state_t) (a : apdu_t) comps tx :
  p1 a = P1_FIRST_CHUNK -> p2 a = P2_LAST_CHUNK ->
  data a = path_wire comps ++ tx ->
  (1 <= length comps <= 10)%nat -> Forall u32_ok comps ->
  Forall hardened comps -> valid_transfer tx ->
  2 ^ 64 <= le_value (wire_field tx OFF_GAS_PRICE 8)
            * le_value (wire_field tx OFF_GAS_LIMIT 8) ->
  handle_sign_tx ui st a = (SW_TX_OVERFLOW, [], reset_sign_session st).
Proof.
  intros Hp1 Hp2 Hdata Hn Hok Hhard Hv Hfee.
  unfold handle_sign_tx.
  rewrite (sign_one_shot st a comps tx Hp1 Hp2 Hdata Hn Hok Hhard Hv).
  rewrite (proj2 (one_shot_fee tx Hv) Hfee). reflexivity.
Qed.

(** X22. A single SIGN_TX command that carries a hardened path and a
    well-formed Transfer whose fee fits 64 bits shows the strings of that
    Transfer; when they are approved and the signer succeeds, the answer is
    [SW_OK] with the signature, made with the given path, of the BLAKE3
    digest of the 82 transaction bytes, and the session, the digest buffer
    and the signature buffer are zeroized. *)
Theorem one_shot_transfer_signed ui (st : app_state_t) (a : apdu_t) comps tx sig :
  p1 a = P1_FIRST_CHUNK -> p2 a = P2_LAST_CHUNK ->
  data a = path_wire comps ++ tx ->
  (1 <= length comps <= 10)%nat -> Forall u32_ok comps ->
  Forall hardened comps -> valid_transfer tx ->
  le_value (wire_field tx OFF_GAS_PRICE 8)
  * le_value (wire_field tx OFF_GAS_LIMIT 8) < 2 ^ 64 ->
  let parsed := tx_parser_get_parsed (fst (tx_parser_consume tx_parser_init tx)) in
  let p := mk_path (Z.of_nat (length comps))
                   (comps ++ repeat 0 (10 - length comps)) in
  ui (snd (tx_display_format parsed)) = UI_RESULT_APPROVED ->
  crypto_sign_hash p (sum_blake3_hash tx (hash st)) (signature st) = (true, sig) ->
  let res := handle_sign_tx ui st a in
  fst res = (SW_OK, sig) /\
  sign_session (snd res) = sign_session_zero /\
  hash (snd res) = repeat 0 HASH_LEN /\
  signature (snd res) = repeat 0 SIGNATURE_LEN.
Proof.
  intros Hp1 Hp2 Hdata Hn Hok Hhard Hv Hfee. cbv zeta. intros Hui Hsig.
  unfold handle_sign_tx.
  rewrite (sign_one_shot st a comps tx Hp1 Hp2 Hdata Hn Hok Hhard Hv).
  rewrite (proj1 (one_shot_fee tx Hv) Hfee). rewrite Hui.
  unfold sign_tx_after_approval.
  cbn [sign_session set_sign_session tx_hash_ctx hash].
  unfold sum_blake3_hash in Hsig.
  pose proof (sig64_length
                (mk_path (Z.of_nat (length comps))
                         (comps ++ repeat 0 (10 - length comps)))
                (snd (sum_blake3_finalize32
                        (sum_blake3_update (sum_blake3_init sum_blake3_ctx_zero) tx)
                        (hash st)))
                (signature st)) as Hlen.
  rewrite Hsig in Hlen. cbn [snd] in Hlen.
  destruct (sum_blake3_finalize32
              (sum_blake3_update (sum_blake3_init sum_blake3_ctx_zero) tx)
              (hash st)) as [h dg].
  cbn [snd] in Hsig.
  cbn [session_path initialized parser total_received last_chunk_received
       set_hash set_sign_session sign_session hash signature].
  rewrite Hsig.
  cbn [negb fst snd set_signature set_hash reset_sign_session set_sign_session
       sign_session hash signature].
  rewrite firstn_all2 by (rewrite Hlen; apply Nat.le_refl).
  repeat split.
Qed.

End OneShot.

Lemma path_s1_ok :
  (1 <= length path_s1 <= 10)%nat /\ Forall u32_ok path_s1 /\
  Forall hardened path_s1.
Proof.
  split; [cbn; lia|]. split.
  - repeat (apply Forall_cons; [unfold u32_ok; lia|]); apply Forall_nil.
  - repeat (apply Forall_cons; [unfold hardened; lia|]); apply Forall_nil.
Defined.

Lemma tx_overflow_valid : valid_transfer tx_overflow.
Proof.
  unfold valid_transfer. split; [reflexivity|]. split.
  - let l := eval vm_compute in tx_overflow in change tx_overflow with l.
    prove_bytes_ok.
  - split; reflexivity.
Defined.

Lemma overflowing_fee_never_signed_witness :
  valid_transfer tx_overflow /\
  2 ^ 64 <= le_value (wire_field tx_overflow OFF_GAS_PRICE 8)
            * le_value (wire_field tx_overflow OFF_GAS_LIMIT 8) /\
  handle_sign_tx ui_auto_approve boot_state apdu_sign_overflow
  = (SW_TX_OVERFLOW, [], reset_sign_session boot_state).
Proof.
  assert (Hfee : 2 ^ 64 <= le_value (wire_field tx_overflow OFF_GAS_PRICE 8)
                           * le_value (wire_field tx_overflow OFF_GAS_LIMIT 8))
    by (vm_compute; discriminate).
  split; [exact tx_overflow_valid|]. split; [exact Hfee|].
  destruct path_s1_ok as (Hn & Hok & Hhard).
  apply (overflowing_fee_never_signed ui_auto_approve boot_state
           apdu_sign_overflow path_s1 tx_overflow
           eq_refl eq_refl eq_refl Hn Hok Hhard tx_overflow_valid Hfee).
Defined.

Lemma one_shot_transfer_signed_witness :
  valid_transfer tx_s1 /\
  fst (handle_sign_tx ui_auto_approve boot_state apdu_sign_s1)
  = (SW_OK, repeat 0xAA SIGNATURE_LEN).
Proof.
  split; [exact tx_s1_valid|].
  destruct path_s1_ok as (Hn & Hok & Hhard).
  assert (Hfee : le_value (wire_field tx_s1 OFF_GAS_PRICE 8)
                 * le_value (wire_field tx_s1 OFF_GAS_LIMIT 8) < 2 ^ 64)
    by (vm_compute; reflexivity).
  apply (one_shot_transfer_signed (KP := host_keys)
           ui_auto_approve boot_state apdu_sign_s1
           path_s1 tx_s1 (repeat 0xAA SIGNATURE_LEN)
           eq_refl eq_refl eq_refl Hn Hok Hhard tx_s1_valid Hfee
           eq_refl eq_refl).
Defined.

(** ** tx_parser.c: the verdict on arbitrary bytes *)

Lemma bytes_ok_firstn n l : bytes_ok l -> bytes_ok (firstn n l).
Proof.
  unfold bytes_ok. intros H. rewrite <- (firstn_skipn n l) in H.
  apply Forall_app in H. apply H.
Qed.

Lemma error_not_done c :
  tx_parser_has_error c = true -> tx_parser_is_done c = false.
Proof.
  unfold tx_parser_has_error, tx_parser_is_done.
  destruct (state c); (discriminate || reflexivity).
Qed.

Lemma done_not_error c :
  tx_parser_is_done c = true -> tx_parser_has_error c = false.
Proof.
  unfold tx_parser_has_error, tx_parser_is_done.
  destruct (state c); (discriminate || reflexivity).
Qed.

Lemma nth_firstn_lt {A} (l : list A) i n d :
  (i < n)%nat -> (n <= length l)%nat -> nth i (firstn n l) d = nth i l d.
Proof.
  intros Hi Hn. rewrite <- (firstn_skipn n l) at 2.
  rewrite app_nth1; [reflexivity|]. rewrite length_firstn. lia.
Qed.

Lemma whole_transfer_prefix (data : list Z) :
  bytes_ok data -> (82 <= length data)%nat ->
  nth OFF_VERSION data 0 = 1 -> nth OFF_TX_TYPE data 0 = TX_TYPE_TRANSFER ->
  let r := tx_parser_consume tx_parser_init data in
  tx_parser_is_done (fst r) = true /\ snd r = 82.
Proof.
  intros Hb Hn Hv Ht. cbv zeta.
  assert (Hvalid : valid_transfer (firstn 82 data)).
  { unfold valid_transfer, TRANSFER_LEN.
    split; [rewrite length_firstn; lia|].
    split; [apply bytes_ok_firstn, Hb|].
    unfold OFF_VERSION, OFF_TX_TYPE in *.
    rewrite !nth_firstn_lt by lia. split; assumption. }
  destruct (transfer_fold_done _ Hvalid) as (Hd & Htot).
  rewrite consume_init_count, consume_init_feed.
  rewrite <- (firstn_skipn 82 data), fold_left_app.
  rewrite fold_feed_terminal by (rewrite Hd; reflexivity).
  unfold tx_parser_is_done. rewrite Hd. split; [reflexivity | exact Htot].
Qed.

Lemma partial_transfer_absorbed (data : list Z) :
  bytes_ok data -> (length data < 82)%nat ->
  (length data = 0%nat \/ nth OFF_VERSION data 0 = 1) ->
  ((length data < 54)%nat \/ nth OFF_TX_TYPE data 0 = TX_TYPE_TRANSFER) ->
  let r := tx_parser_consume tx_parser_init data in
  is_terminal (state (fst r)) = false /\ snd r = Z.of_nat (length data).
Proof.
  intros Hb Hn Hv Ht. cbv zeta.
  set (pad := skipn (length data) tx_s1).
  assert (Hpad : length pad = (82 - length data)%nat)
    by (unfold pad; rewrite length_skipn; reflexivity).
  assert (Hvalid : valid_transfer (data ++ pad)).
  { unfold valid_transfer, TRANSFER_LEN.
    split; [rewrite length_app; lia|].
    split.
    { unfold bytes_ok. apply Forall_app. split; [exact Hb|].
      apply bytes_ok_skipn. apply tx_s1_valid. }
    unfold OFF_VERSION, OFF_TX_TYPE in *. split.
    - destruct Hv as [H0|H1].
      + destruct data; [reflexivity | discriminate H0].
      + rewrite app_nth1; [exact H1|]. destruct data; [discriminate H1 | cbn; lia].
    - destruct (Nat.lt_ge_cases (length data) 54) as [Hlt|Hge].
      + rewrite app_nth2 by lia. unfold pad. rewrite nth_skipn.
        replace (length data + (53 - length data))%nat with 53%nat by lia.
        reflexivity.
      + destruct Ht as [Hlt|Ht]; [lia|]. rewrite app_nth1 by lia. exact Ht. }
  destruct (transfer_fold_done _ Hvalid) as (Hd & Htot).
  rewrite fold_left_app in Hd, Htot.
  rewrite consume_init_count, consume_init_feed.
  set (c := fold_left feed data tx_parser_init) in *.
  destruct (fold_feed_inv data tx_parser_init tx_parser_init_inv) as (Hinv & Hle).
  fold c in Hinv, Hle. change (total_consumed tx_parser_init) with 0 in Hle.
  destruct (fold_feed_inv pad c Hinv) as (_ & Hle').
  destruct (is_terminal (state c)) eqn:Hterm.
  - rewrite fold_feed_terminal in Htot by exact Hterm. lia.
  - split; [reflexivity | lia].
Qed.

Lemma split_at_tx_type (data : list Z) :
  (54 <= length data)%nat ->
  exists pre tl, data = pre ++ nth OFF_TX_TYPE data 0 :: tl /\
                 length pre = 53%nat /\ nth 0 pre 0 = nth OFF_VERSION data 0.
Proof.
  intros Hn. unfold OFF_TX_TYPE, OFF_VERSION.
  destruct (nth_split data 0 (n := 53)) as (pre & tl & E & Hl); [lia|].
  exists pre, tl. split; [exact E|]. split; [exact Hl|].
  rewrite E at 1. rewrite app_nth1 by lia. reflexivity.
Qed.

Lemma parser_cases (data : list Z) :
  bytes_ok data ->
  let r := tx_parser_consume tx_parser_init data in
  let n := length data in
  let v := nth OFF_VERSION data 0 in
  let t := nth OFF_TX_TYPE data 0 in
  ((1 <= n)%nat /\ v <> 1 /\
   tx_parser_has_error (fst r) = true /\ tx_parser_is_done (fst r) = false /\
   snd r = 1) \/
  ((54 <= n)%nat /\ v = 1 /\ t <> TX_TYPE_TRANSFER /\
   tx_parser_has_error (fst r) = true /\ tx_parser_is_done (fst r) = false /\
   snd r = 54) \/
  ((82 <= n)%nat /\ v = 1 /\ t = TX_TYPE_TRANSFER /\
   tx_parser_has_error (fst r) = false /\ tx_parser_is_done (fst r) = true /\
   snd r = 82) \/
  ((n < 82)%nat /\ (n = 0%nat \/ v = 1) /\ ((n < 54)%nat \/ t = TX_TYPE_TRANSFER) /\
   tx_parser_has_error (fst r) = false /\ tx_parser_is_done (fst r) = false /\
   snd r = Z.of_nat n).
Proof.
  intros Hb. cbv zeta.
  destruct (Nat.eq_dec (length data) 0) as [H0|H0].
  { right. right. right.
    destruct (partial_transfer_absorbed data Hb) as (Hterm & Hcount);
      [lia | left; exact H0 | left; lia|].
    cbv zeta in Hterm. unfold tx_parser_has_error, tx_parser_is_done.
    destruct (state (fst (tx_parser_consume tx_parser_init data)));
      try discriminate Hterm;
      (split; [lia|]; split; [left; exact H0|]; split; [left; lia|];
       repeat split; exact Hcount). }
  destruct (Z.eq_dec (nth OFF_VERSION data 0) 1) as [Hv|Hv].
  2:{ left. destruct data as [|b tl]; [contradiction|].
      unfold OFF_VERSION in Hv. cbn [nth] in Hv.
      destruct (bad_version_error b tl Hv) as (He & Hc & _). cbv zeta in He, Hc.
      split; [cbn [length]; lia|]. split; [exact Hv|].
      split; [exact He|]. split; [apply error_not_done, He | exact Hc]. }
  destruct (Nat.lt_ge_cases (length data) 54) as [Hlt|Hge].
  { right. right. right.
    destruct (partial_transfer_absorbed data Hb) as (Hterm & Hcount);
      [lia | right; exact Hv | left; exact Hlt|].
    cbv zeta in Hterm. unfold tx_parser_has_error, tx_parser_is_done.
    destruct (state (fst (tx_parser_consume tx_parser_init data)));
      try discriminate Hterm;
      (split; [lia|]; split; [right; exact Hv|]; split; [left; exact Hlt|];
       repeat split; exact Hcount). }
  destruct (Z.eq_dec (nth OFF_TX_TYPE data 0) TX_TYPE_TRANSFER) as [Ht|Ht].
  2:{ right. left.
      destruct (split_at_tx_type data Hge) as (pre & tl & E & Hl & Hp).
      rewrite Hv in Hp.
      destruct (bad_tx_type_error pre _ tl Hl Hp Ht) as (He & Hc & _).
      cbv zeta in He, Hc. rewrite <- E in He, Hc.
      split; [exact Hge|]. split; [exact Hv|]. split; [exact Ht|].
      split; [exact He|]. split; [apply error_not_done, He | exact Hc]. }
  destruct (Nat.lt_ge_cases (length data) 82) as [Hlt|Hbig].
  - right. right. right.
    destruct (partial_transfer_absorbed data Hb) as (Hterm & Hcount);
      [exact Hlt | right; exact Hv | right; exact Ht|].
    cbv zeta in Hterm. unfold tx_parser_has_error, tx_parser_is_done.
    destruct (state (fst (tx_parser_consume tx_parser_init data)));
      try discriminate Hterm;
      (split; [exact Hlt|]; split; [right; exact Hv|]; split; [right; exact Ht|];
       repeat split; exact Hcount).
  - right. right. left.
    destruct (whole_transfer_prefix data Hb Hbig Hv Ht) as (Hd & Hc).
    cbv zeta in Hd, Hc.
    split; [exact Hbig|]. split; [exact Hv|]. split; [exact Ht|].
    split; [apply done_not_error, Hd|]. split; [exact Hd | exact Hc].
Qed.

(** X23. The verdict of a fresh parser on any bytes: it reports done exactly
    when there are at least 82 bytes, the first is 1 and the one at offset
    53 is 0; it reports an error exactly when the first byte is not 1, or
    is 1 and the byte at offset 53 is there and not 0; and when it reports
    neither it has absorbed every byte.  No other byte is checked. *)
Theorem parser_verdict (data : list Z) :
  bytes_ok data ->
  let r := tx_parser_consume tx_parser_init data in
  let n := length data in
  let v := nth OFF_VERSION data 0 in
  let t := nth OFF_TX_TYPE data 0 in
  (tx_parser_is_done (fst r) = true <->
   (82 <= n)%nat /\ v = 1 /\ t = TX_TYPE_TRANSFER) /\
  (tx_parser_has_error (fst r) = true <->
   ((1 <= n)%nat /\ v <> 1) \/
   ((54 <= n)%nat /\ v = 1 /\ t <> TX_TYPE_TRANSFER)) /\
  (tx_parser_is_done (fst r) = false -> tx_parser_has_error (fst r) = false ->
   snd r = Z.of_nat n).
Proof.
  intros Hb. cbv zeta.
  destruct (parser_cases data Hb)
    as [(Hn & Hv & He & Hd & Hc)
       |[(Hn & Hv & Ht & He & Hd & Hc)
        |[(Hn & Hv & Ht & He & Hd & Hc)
         |(Hn & Hv & Ht & He & Hd & Hc)]]];
    cbv zeta in *; rewrite He, Hd.
  - split; [split; [discriminate | intros (_ & H & _); contradiction]|].
    split; [split; [intros _; left; split; assumption | reflexivity]|].
    discriminate.
  - split; [split; [discriminate | intros (_ & _ & H); contradiction]|].
    split; [split; [intros _; right; repeat split; assumption | reflexivity]|].
    discriminate.
  - split; [split; [intros _; repeat split; assumption | reflexivity]|].
    split; [|discriminate].
    split; [discriminate|]. intros [(_ & H)|(_ & _ & H)]; contradiction.
  - split; [split; [discriminate | intros (H & _); lia]|].
    split; [|intros _ _; exact Hc].
    split; [discriminate|].
    intros [(H1 & H2)|(H1 & _ & H2)].
    + destruct Hv as [Hv|Hv]; [lia | contradiction].
    + destruct Ht as [Ht|Ht]; [lia | contradiction].
Qed.

Lemma parser_verdict_witness :
  bytes_ok (firstn 40 tx_s1) /\
  snd (tx_parser_consume tx_parser_init (firstn 40 tx_s1)) = 40.
Proof.
  assert (Hb : bytes_ok (firstn 40 tx_s1))
    by (apply bytes_ok_firstn; apply tx_s1_valid).
  split; [exact Hb|].
  destruct (parser_verdict (firstn 40 tx_s1) Hb) as (_ & _ & H).
  apply H; reflexivity.
Defined.

(** ** apdu_handlers.c: commands that take a path *)

Section PathCommands.
Context {B3 : Blake3} {KP : KeyProvider}.

Lemma soft_path_parse comps rest :
  (1 <= length comps <= 10)%nat -> Forall u32_ok comps ->
  ~ Forall hardened comps ->
  exists pb p,
    crypto_parse_path (path_wire comps ++ rest) bip32_path_zero = (pb, p) /\
    (pb =? 0) = false /\ crypto_validate_path p = false /\
    (1 <= Z.of_nat (length (path_wire comps ++ rest))).
Proof.
  intros Hn Hok Hsoft.
  pose proof (parsed_path_validate comps rest bip32_path_zero Hn Hok) as Hiff.
  rewrite crypto_parse_path_wire in * by assumption. cbn [snd] in Hiff.
  eexists _, _. split; [reflexivity|].
  split; [apply Z.eqb_neq; lia|]. split.
  - destruct (crypto_validate_path _) eqn:E; [|reflexivity].
    exfalso. apply Hsoft, Hiff. reflexivity.
  - rewrite length_app, path_wire_length. lia.
Qed.

(** X24. A path of 1 to 10 components of which one is not hardened is
    refused with [SW_INVALID_PATH] by each command that takes a path:
    GET_PUBLIC_KEY and GET_ADDRESS leave the state as it was, no key having
    been derived, and a first chunk of SIGN_TX leaves the session reset. *)
Theorem unhardened_path_rejected ui (st : app_state_t) (a : apdu_t) comps rest :
  data a = path_wire comps ++ rest ->
  (1 <= length comps <= 10)%nat -> Forall u32_ok comps ->
  ~ Forall hardened comps ->
  handle_get_public_key st a = (SW_INVALID_PATH, [], st) /\
  handle_get_address st a = (SW_INVALID_PATH, [], st) /\
  (p1 a = P1_FIRST_CHUNK -> p2 a = P2_LAST_CHUNK \/ p2 a = P2_MORE_CHUNKS ->
   handle_sign_tx ui st a = (SW_INVALID_PATH, [], reset_sign_session st)).
Proof.
  intros Hdata Hn Hok Hsoft.
  destruct (soft_path_parse comps rest Hn Hok Hsoft)
    as (pb & p & Hpp & Hpb & Hval & Hlen).
  assert (Hlc : (lc a <? 1) = false)
    by (apply Z.ltb_ge; unfold lc; rewrite Hdata; exact Hlen).
  split; [|split].
  - unfold handle_get_public_key. rewrite Hlc, Hdata, Hpp, Hpb, Hval. reflexivity.
  - unfold handle_get_address. rewrite Hlc, Hdata, Hpp, Hpb, Hval. reflexivity.
  - intros Hp1 Hp2. unfold handle_sign_tx, sign_tx_until_approval.
    rewrite Hp1. change (P1_FIRST_CHUNK =? P1_FIRST_CHUNK) with true.
    cbn [negb andb].
    assert (Hp2' : negb (p2 a =? P2_LAST_CHUNK) && negb (p2 a =? P2_MORE_CHUNKS)
                   = false)
      by (destruct Hp2 as [-> | ->]; reflexivity).
    rewrite Hp2', Hlc.
    change (session_path (sign_session (reset_sign_session st)))
      with bip32_path_zero.
    rewrite Hdata, Hpp, Hpb, Hval. reflexivity.
Qed.

Lemma address_bytes_length pk :
  length (sumchain_address_bytes_from_pubkey pk) = 20%nat.
Proof.
  unfold sumchain_address_bytes_from_pubkey, sum_blake3_hash,
    sum_blake3_finalize32, sum_blake3_update, sum_blake3_init.
  cbn [hash_initialized hasher]. change (1 =? 0) with false. cbv iota.
  cbn [hash_initialized hasher]. change (1 =? 0) with false. cbv iota.
  cbn [snd].
  rewrite length_firstn, length_skipn, blake3_finalize_length. reflexivity.
Qed.

(** X25. GET_ADDRESS for a hardened path, when the key derivation succeeds
    and the digest is made of bytes, answers [SW_OK] with the characters of
    a Base58 string of 1 to 34 alphabet characters whose value is that of
    the address, the bytes 12 to 31 of the BLAKE3 digest of the public key;
    the string is left in [address_str], and P1 makes no difference. *)
Theorem get_address_returns_base58 (st : app_state_t) (a : apdu_t) comps rest pk :
  data a = path_wire comps ++ rest ->
  (1 <= length comps <= 10)%nat -> Forall u32_ok comps ->
  Forall hardened comps ->
  crypto_derive_pubkey
    (mk_path (Z.of_nat (length comps)) (comps ++ repeat 0 (10 - length comps)))
    (repeat 0 PUBKEY_LEN) = (true, pk) ->
  bytes_ok (sumchain_address_bytes_from_pubkey pk) ->
  exists s,
    handle_get_address st a
    = (SW_OK, map byte_of_char s, set_address_str s st) /\
    b58_value s = be_value (sumchain_address_bytes_from_pubkey pk) /\
    (1 <= length s <= 34)%nat /\ Forall in_alphabet s.
Proof.
  intros Hdata Hn Hok Hhard Hpk Hb.
  pose proof (proj2 (parsed_path_validate comps rest bip32_path_zero Hn Hok) Hhard)
    as Hval.
  rewrite crypto_parse_path_wire in Hval by assumption. cbn [snd] in Hval.
  change (skipn (length comps) (path bip32_path_zero))
    with (skipn (length comps) (repeat 0 10)) in Hval.
  rewrite skipn_repeat_sub in Hval.
  pose proof (address_bytes_length pk) as Hal.
  destruct (base58_address_spec _ (address_str st) Hal Hb)
    as (Hlen & Hrange & Halpha & _ & Hvalue).
  cbv zeta in *.
  exists (fst (base58_encode (sumchain_address_bytes_from_pubkey pk)
                 (address_str st) ADDRESS_BASE58_MAX_LEN)).
  split; [|split; [exact Hvalue|split; [lia|exact Halpha]]].
  unfold handle_get_address.
  assert (Hlc : (lc a <? 1) = false).
  { apply Z.ltb_ge. unfold lc. rewrite Hdata, length_app, path_wire_length. lia. }
  rewrite Hlc, Hdata, crypto_parse_path_wire by assumption.
  assert (Hpb : (1 + 4 * Z.of_nat (length comps) =? 0) = false)
    by (apply Z.eqb_neq; lia).
  rewrite Hpb.
  change (skipn (length comps) (path bip32_path_zero))
    with (skipn (length comps) (repeat 0 10)).
  rewrite skipn_repeat_sub, Hval. cbn [negb].
  unfold sumchain_get_address_for_path.
  change (ADDRESS_BASE58_MAX_LEN <? ADDRESS_BASE58_MAX_LEN) with false. cbv iota.
  rewrite Hval, Hpk. cbn [negb].
  unfold sumchain_address_to_base58, ADDRESS_LEN.
  rewrite firstn_all2 by (rewrite Hal; apply Nat.le_refl).
  destruct (base58_encode (sumchain_address_bytes_from_pubkey pk)
              (address_str st) ADDRESS_BASE58_MAX_LEN) as [s n].
  cbn [fst snd] in *.
  destruct (Z.eqb_spec n 0) as [Hz|_]; [lia|].
  cbn [negb address_str set_address_str]. reflexivity.
Qed.

End PathCommands.

Lemma path_soft_not_hardened : ~ Forall hardened path_soft.
Proof.
  intros H. inversion H as [|? ? _ H2]. inversion H2 as [|? ? H3 _].
  unfold hardened in H3. lia.
Defined.

Lemma unhardened_path_rejected_witness :
  (1 <= length path_soft <= 10)%nat /\ Forall u32_ok path_soft /\
  ~ Forall hardened path_soft /\
  handle_get_public_key boot_state apdu_pubkey_soft
  = (SW_INVALID_PATH, [], boot_state).
Proof.
  assert (H1 : (1 <= length path_soft <= 10)%nat) by (cbn; lia).
  assert (H2 : Forall u32_ok path_soft)
    by (repeat (apply Forall_cons; [unfold u32_ok; lia|]); apply Forall_nil).
  split; [exact H1|]. split; [exact H2|]. split; [exact path_soft_not_hardened|].
  destruct (unhardened_path_rejected (KP := host_keys) ui_auto_approve boot_state
              apdu_pubkey_soft path_soft [] eq_refl H1 H2 path_soft_not_hardened)
    as (H & _).
  exact H.
Defined.

Lemma get_address_returns_base58_witness :
  bytes_ok (sumchain_address_bytes_from_pubkey (B3 := trace_blake3)
              (repeat 0x42 PUBKEY_LEN)) /\
  fst (fst (handle_get_address (KP := host_keys) boot_state apdu_address_s1))
  = SW_OK.
Proof.
  assert (Hb : bytes_ok (sumchain_address_bytes_from_pubkey (B3 := trace_blake3)
                           (repeat 0x42 PUBKEY_LEN))).
  { let l := eval vm_compute in
      (sumchain_address_bytes_from_pubkey (B3 := trace_blake3)
         (repeat 0x42 PUBKEY_LEN)) in
    change (sumchain_address_bytes_from_pubkey (B3 := trace_blake3)
              (repeat 0x42 PUBKEY_LEN)) with l.
    prove_bytes_ok. }
  split; [exact Hb|].
  destruct path_s1_ok as (Hn & Hok & Hhard).
  destruct (get_address_returns_base58 (KP := host_keys) boot_state
              apdu_address_s1 path_s1 [] (repeat 0x42 PUBKEY_LEN)
              eq_refl Hn Hok Hhard eq_refl Hb) as (s & E & _).
  rewrite E. reflexivity.
Defined.

(** ** apdu_handlers.c: the session error *)

Section SessionError.
Context {B3 : Blake3} {KP : KeyProvider}.

Lemma idle_continuation_refused ui (st : app_state_t) (a : apdu_t) :
  p1 a = P1_MORE_CHUNK -> p2 a = P2_LAST_CHUNK \/ p2 a = P2_MORE_CHUNKS ->
  initialized (sign_session st) = false ->
  handle_sign_tx ui st a = (SW_SESSION_ERROR, [], st).
Proof.
  intros Hp1 Hp2 Hi. unfold handle_sign_tx, sign_tx_until_approval.
  rewrite Hp1. change (P1_MORE_CHUNK =? P1_FIRST_CHUNK) with false.
  change (P1_MORE_CHUNK =? P1_MORE_CHUNK) with true. cbn [negb andb].
  assert (Hp2' : negb (p2 a =? P2_LAST_CHUNK) && negb (p2 a =? P2_MORE_CHUNKS)
                 = false)
    by (destruct Hp2 as [-> | ->]; reflexivity).
  rewrite Hp2', Hi. reflexivity.
Qed.

Ltac not_this_status :=
  let E := fresh "E" in intros E; exfalso; revert E; sw_differ.

Ltac sign_tail st' :=
  destruct (negb (p2 _ =? P2_MORE_CHUNKS)); [|not_this_status];
  destruct (negb (tx_parser_is_done (parser (sign_session st'))));
    [not_this_status|];
  destruct (tx_display_format (tx_parser_get_parsed (parser (sign_session st'))))
    as [ok d];
  destruct (negb ok); [not_this_status|];
  destruct (fee_overflow (tx_parser_get_parsed (parser (sign_session st'))));
    [not_this_status | exact I].

Lemma session_error_cause ui (st : app_state_t) (a : apdu_t) :
  stream_inv st ->
  fst (fst (handle_sign_tx ui st a)) = SW_SESSION_ERROR ->
  p1 a = P1_MORE_CHUNK /\ (p2 a = P2_LAST_CHUNK \/ p2 a = P2_MORE_CHUNKS) /\
  initialized (sign_session st) = false.
Proof.
  intros Hst. unfold handle_sign_tx.
  assert (H : match sign_tx_until_approval st a with
              | Exit sw _ =>
                  sw = SW_SESSION_ERROR ->
                  p1 a = P1_MORE_CHUNK /\
                  (p2 a = P2_LAST_CHUNK \/ p2 a = P2_MORE_CHUNKS) /\
                  initialized (sign_session st) = false
              | Ask _ _ => True
              end).
  2:{ destruct (sign_tx_until_approval st a) as [sw st'|d st'].
      - exact H.
      - intros E. exfalso. revert E. apply sign_tx_after_approval_status. }
  unfold sign_tx_until_approval.
  destruct (Z.eqb_spec (p1 a) P1_FIRST_CHUNK) as [Hf|Hf];
    destruct (Z.eqb_spec (p1 a) P1_MORE_CHUNK) as [Hm|Hm]; cbn [negb andb];
    try (intros E; exfalso; revert E; sw_differ).
  { rewrite Hf in Hm. discriminate Hm. }
  - (* a first chunk *)
    destruct (negb (p2 a =? P2_LAST_CHUNK) && negb (p2 a =? P2_MORE_CHUNKS));
      [intros E; exfalso; revert E; sw_differ|].
    match goal with
    | |- match (match ?arm with _ => _ end) with _ => _ end =>
        assert (Harm : match arm with
                       | inl (sw, _) => sw <> SW_SESSION_ERROR
                       | inr _ => True
                       end);
        [|destruct arm as [[sw st']|st']]
    end.
    + destruct (lc a <? 1); [sw_differ|].
      destruct (crypto_parse_path (data a)
                  (session_path (sign_session (reset_sign_session st))))
        as [path_bytes p].
      destruct (path_bytes =? 0); [sw_differ|].
      destruct (negb (crypto_validate_path p)); [sw_differ|].
      match goal with
      | |- context [absorb_tx_bytes ?s ?d] =>
          destruct (absorb_tx_bytes s d) as [sw|s'] eqn:E
      end; [apply (absorb_tx_bytes_status _ _ _ E) | exact I].
    + intros E. contradiction.
    + sign_tail st'.
  - (* a continuation chunk *)
    destruct (negb (p2 a =? P2_LAST_CHUNK) && negb (p2 a =? P2_MORE_CHUNKS))
      eqn:Hp2; [not_this_status|].
    assert (Hp2' : p2 a = P2_LAST_CHUNK \/ p2 a = P2_MORE_CHUNKS).
    { destruct (Z.eqb_spec (p2 a) P2_LAST_CHUNK); [left; assumption|].
      destruct (Z.eqb_spec (p2 a) P2_MORE_CHUNKS); [right; assumption|].
      discriminate Hp2. }
    destruct (initialized (sign_session st)) eqn:Hi; cbn [negb].
    2:{ intros _. split; [exact Hm|]. split; [exact Hp2' | reflexivity]. }
    destruct (Hst Hi) as (Hlast & _). rewrite Hlast.
    match goal with
    | |- context [absorb_tx_bytes ?s ?d] =>
        destruct (absorb_tx_bytes s d) as [sw|s'] eqn:E
    end.
    + intros E'. exfalso. revert E'. apply (absorb_tx_bytes_status _ _ _ E).
    + sign_tail (set_sign_session s' st).
Qed.

(** X26. From a reachable state SIGN_TX answers [SW_SESSION_ERROR] exactly
    when a continuation chunk (P1 = 0x80, P2 valid) arrives while no
    session is active, and then the state is left as it was; the check of
    the last-chunk flag never fires. *)
Theorem session_error_iff ui (st : app_state_t) (a : apdu_t) :
  reachable st ->
  (fst (fst (handle_sign_tx ui st a)) = SW_SESSION_ERROR <->
   p1 a = P1_MORE_CHUNK /\ (p2 a = P2_LAST_CHUNK \/ p2 a = P2_MORE_CHUNKS) /\
   initialized (sign_session st) = false) /\
  (fst (fst (handle_sign_tx ui st a)) = SW_SESSION_ERROR ->
   handle_sign_tx ui st a = (SW_SESSION_ERROR, [], st)).
Proof.
  intros Hr. pose proof (reachable_stream st Hr) as Hst.
  split; [split|].
  - apply session_error_cause, Hst.
  - intros (H1 & H2 & H3).
    rewrite (idle_continuation_refused ui st a H1 H2 H3). reflexivity.
  - intros E. destruct (session_error_cause ui st a Hst E) as (H1 & H2 & H3).
    apply idle_continuation_refused; assumption.
Qed.

End SessionError.

Lemma session_error_iff_witness :
  reachable boot_state /\
  handle_sign_tx ui_auto_approve boot_state apdu_continue_last
  = (SW_SESSION_ERROR, [], boot_state).
Proof.
  split; [exact boot_reachable|].
  destruct (session_error_iff ui_auto_approve boot_state apdu_continue_last
              boot_reachable) as ((_ & Hback) & Hst).
  apply Hst, Hback.
  split; [reflexivity|]. split; [left; reflexivity | reflexivity].
Defined.

(** ** crypto/sum_blake3.c: a finalized context *)

Section HashGuard.
Context {B3 : Blake3}.

Lemma inactive_update (c : sum_blake3_ctx_t) chunks :
  hash_initialized c = 0 -> fold_left sum_blake3_update chunks c = c.
Proof.
  intros Hc. induction chunks as [|d tl IH]; [reflexivity|].
  cbn [fold_left]. unfold sum_blake3_update at 2. rewrite Hc.
  change (0 =? 0) with true. cbv iota. exact IH.
Qed.

(** X27. Once [sum_blake3_finalize32] has returned, the context is inert:
    whatever chunks are then given to [sum_blake3_update] the context stays
    as it is, and a second [sum_blake3_finalize32] writes nothing to its
    output buffer. *)
Theorem finalized_context_inert (ctx : sum_blake3_ctx_t) (out : list Z)
    (chunks : list (list Z)) (out' : list Z) :
  let c := fst (sum_blake3_finalize32 ctx out) in
  fold_left sum_blake3_update chunks c = c /\
  sum_blake3_finalize32 c out' = (c, out').
Proof.
  cbv zeta.
  assert (Hc : hash_initialized (fst (sum_blake3_finalize32 ctx out)) = 0).
  { unfold sum_blake3_finalize32.
    destruct (Z.eqb_spec (hash_initialized ctx) 0) as [E|E]; [exact E|reflexivity]. }
  split; [apply inactive_update, Hc|].
  unfold sum_blake3_finalize32 at 1. rewrite Hc. reflexivity.
Qed.

End HashGuard.
